(** * RAG Token Analyzer: the text-analysis pipeline of TokenAnalyzer.jsx

    A shallow embedding of the deterministic core of the analyzer
    (tokenizers, paragraph splitter, chunker, entity extractor, attention
    model, aggregator and hint generator) together with the properties the
    specification states about it.

    Conventions of the embedding:
    - a JavaScript string is the list of its UTF-16 code units ([N]); the
      regular expressions of the source carry no [u] flag, so they work on
      code units as well;
    - array lengths and indices are [nat]; the chunk size is an integer
      ([Z]): the page only ever stores one of 90, 100, 120, 256, 512;
    - a JavaScript number that results from a division is a [num]: a
      rational, or one of NaN, +Infinity, -Infinity.  The quotients of the
      counts of the analysis are kept exact.  The attention curve, whose
      branches and thresholds are a matter of the last binary digit, is
      computed as the code computes it, in binary64: every operation and
      every decimal literal is rounded to the nearest binary64 number
      ([b64]).  The sign of zero is not modelled;
    - a [while] loop runs on fuel and yields an [outcome]: [Returns v], or
      [Diverges] when the fuel is used up before the loop condition turns
      false.  That the fuel handed to each loop suffices is a theorem. *)

From Stdlib Require Import Ascii String.
From Stdlib Require Import List Bool Arith NArith ZArith QArith Qround Qabs Qpower Lia Lqa.
Import ListNotations.

Close Scope Q_scope.

(** ** JavaScript strings *)

Module JS.

Definition char := N.
Definition jsstring := list char.

(** A string literal of the source (code points below 256). *)
Definition str (s : string) : jsstring :=
  map N_of_ascii (list_ascii_of_string s).

Definition in_range (lo hi c : char) : bool := ((lo <=? c) && (c <=? hi))%N.

Definition one_of (cs : jsstring) (c : char) : bool := existsb (N.eqb c) cs.

(** [\s]: WhiteSpace and LineTerminator of ECMAScript. *)
Definition isSpace (c : char) : bool :=
  in_range 9%N 13%N c || one_of [32; 160; 5760; 8232; 8233; 8239; 8287; 12288; 65279]%N c
  || in_range 8192%N 8202%N c.

Definition isUpper (c : char) : bool := in_range 65%N 90%N c.
Definition isLower (c : char) : bool := in_range 97%N 122%N c.
Definition isDigit (c : char) : bool := in_range 48%N 57%N c.
Definition isAlpha (c : char) : bool := isUpper c || isLower c.

(** [\w] *)
Definition isWord (c : char) : bool := isAlpha c || isDigit c || (c =? 95)%N.

(** The punctuation class of the fifth pattern: full stop, comma,
    exclamation and question mark, semicolon, colon, both quotes, and the
    round, square and curly brackets. *)
Definition isPunct (c : char) : bool :=
  one_of [46; 44; 33; 63; 59; 58; 39; 34; 40; 41; 91; 93; 123; 125]%N c.

(** [[^\s\w]] *)
Definition isSpecial (c : char) : bool := negb (isSpace c) && negb (isWord c).

(** U+2581, the SentencePiece word-boundary marker. *)
Definition isLowerBlock (c : char) : bool := (c =? 9601)%N.

(** [s.slice(a, b)] for [0 <= a], [0 <= b]. *)
Definition slice (a b : nat) (s : jsstring) : jsstring := firstn (b - a) (skipn a s).

(** [s.trim()] *)
Fixpoint trimStart (s : jsstring) : jsstring :=
  match s with
  | [] => []
  | c :: s' => if isSpace c then trimStart s' else s
  end.

Definition trimEnd (s : jsstring) : jsstring := rev (trimStart (rev s)).

Definition trim (s : jsstring) : jsstring := trimEnd (trimStart s).

End JS.

Import JS.

(** ** Anchored regular expressions of the tokenizers

    Every pattern of the three tokenizers is [^] followed by a sequence of
    character classes, each with a quantifier: [c] is [{1,1}], [c+] is
    [{1,}], [c?] is [{0,1}], [c{m,n}] itself.  Quantifiers are greedy and
    backtrack. *)

Module Regex.

Record item := Item { cls : char -> bool; lo : nat; hi : option nat }.

Definition regex := list item.

Definition one (c : char -> bool) : item := Item c 1 (Some 1).
Definition plus (c : char -> bool) : item := Item c 1 None.
Definition opt (c : char -> bool) : item := Item c 0 (Some 1).
Definition between (m n : nat) (c : char -> bool) : item := Item c m (Some n).

(** Number of leading characters of [s] in class [c], at most [bound]. *)
Fixpoint run_length (c : char -> bool) (bound : option nat) (s : jsstring) : nat :=
  match s with
  | [] => 0
  | x :: s' =>
      if c x then
        match bound with
        | None => S (run_length c None s')
        | Some 0 => 0
        | Some (S b) => S (run_length c (Some b) s')
        end
      else 0
  end.

(** Tries the repetition counts [k], [k-1], ..., [lo] in that order. *)
Fixpoint try_down (f : nat -> option nat) (lo k : nat) : option nat :=
  if k <? lo then None
  else
    match f k with
    | Some n => Some (k + n)
    | None =>
        match k with
        | 0 => None
        | S k' => try_down f lo k'
        end
    end.

(** Length of the match of the sequence at the start of [s]. *)
Fixpoint match_length (r : regex) (s : jsstring) : option nat :=
  match r with
  | [] => Some 0
  | i :: r' =>
      try_down (fun k => match_length r' (skipn k s)) (lo i)
               (run_length (cls i) (hi i) s)
  end.

(** [s.match(r)]: [match[0]] when the pattern matches. *)
Definition exec (r : regex) (s : jsstring) : option jsstring :=
  match match_length r s with
  | Some n => Some (firstn n s)
  | None => None
  end.

(** [r.test(s)] for a pattern of the form [^[c]+$]. *)
Definition test_all (c : char -> bool) (s : jsstring) : bool :=
  match s with
  | [] => false
  | _ => forallb c s
  end.

End Regex.

Import Regex.

(** ** Outcome of a loop that may fail to terminate *)

Inductive outcome (A : Type) : Type :=
| Returns (a : A)
| Diverges.

Arguments Returns {A} a.
Arguments Diverges {A}.

Definition bind {A B : Type} (m : outcome A) (k : A -> outcome B) : outcome B :=
  match m with
  | Returns a => k a
  | Diverges => Diverges
  end.

Notation "x <- m ;; k" := (bind m (fun x => k))
  (at level 61, m at next level, right associativity).

(** ** Tokenizers *)

Definition token := jsstring.

(** The first pattern of the list that matches, as the inner [for] loop
    finds it. *)
Fixpoint first_match (patterns : list regex) (remaining : jsstring) : option jsstring :=
  match patterns with
  | [] => None
  | p :: ps =>
      match exec p remaining with
      | Some word => Some word
      | None => first_match ps remaining
      end
  end.

Section TokenizerLoop.

Variable patterns : list regex.

(** What a matched word pushes onto [tokens]. *)
Variable push : jsstring -> list token.

(** The [while (remaining.length > 0)] loop. *)
Fixpoint tokenize_loop (fuel : nat) (remaining : jsstring) (tokens : list token)
  : outcome (list token) :=
  match remaining with
  | [] => Returns tokens
  | c :: rest =>
      match fuel with
      | 0 => Diverges
      | S fuel' =>
          match first_match patterns remaining with
          | Some word =>
              tokenize_loop fuel' (skipn (length word) remaining) (tokens ++ push word)
          | None =>
              tokenize_loop fuel' rest (tokens ++ [[c]])
          end
      end
  end.

Definition tokenize (text : jsstring) : outcome (list token) :=
  match text with
  | [] => Returns []
  | _ => tokenize_loop (length text) text []
  end.

End TokenizerLoop.

(** [for (let i = 0; i < word.length; i += 4) tokens.push(word.slice(i, Math.min(i + 4, word.length)))] *)
Fixpoint split4_loop (fuel i : nat) (word : jsstring) : list token :=
  match fuel with
  | 0 => []
  | S fuel' =>
      if i <? length word
      then slice i (Nat.min (i + 4) (length word)) word :: split4_loop fuel' (i + 4) word
      else []
  end.

Definition gpt_push (word : jsstring) : list token :=
  if (4 <? length word) && test_all isAlpha word
  then split4_loop (length word) 0 word
  else [word].

Definition gpt_patterns : list regex :=
  [ [plus isSpace];
    [one isUpper; plus isLower];
    [plus isLower];
    [plus isDigit];
    [one isPunct];
    [one isSpecial] ].

Definition claude_patterns : list regex :=
  [ [plus isSpace];
    [one isUpper; between 0 5 isLower];
    [between 1 5 isLower];
    [plus isDigit];
    [one isPunct];
    [one isSpecial] ].

Definition gemini_patterns : list regex :=
  [ [opt isLowerBlock; between 1 6 isAlpha];
    [plus isSpace];
    [plus isDigit];
    [one isSpecial] ].

Definition approximateTokenize : jsstring -> outcome (list token) :=
  tokenize gpt_patterns gpt_push.

Definition approximateClaudeTokenize : jsstring -> outcome (list token) :=
  tokenize claude_patterns (fun word => [word]).

Definition approximateGeminiTokenize : jsstring -> outcome (list token) :=
  tokenize gemini_patterns (fun word => [word]).

(** ** JavaScript numbers *)

Module Num.

Inductive num : Type :=
| Fin (q : Q)
| PInf
| NInf
| NaN.

Definition of_Z (z : Z) : num := Fin (inject_Z z).
Definition of_nat (n : nat) : num := of_Z (Z.of_nat n).

Definition Qltb (x y : Q) : bool := negb (Qle_bool y x).

Definition infinity (negative : bool) : num := if negative then NInf else PInf.

Definition neg (a : num) : num :=
  match a with
  | Fin x => Fin (- x)
  | PInf => NInf
  | NInf => PInf
  | NaN => NaN
  end.

Definition add (a b : num) : num :=
  match a, b with
  | NaN, _ | _, NaN => NaN
  | Fin x, Fin y => Fin (x + y)
  | PInf, NInf | NInf, PInf => NaN
  | PInf, _ | _, PInf => PInf
  | NInf, _ | _, NInf => NInf
  end.

Definition sub (a b : num) : num := add a (neg b).

Definition mul (a b : num) : num :=
  match a, b with
  | NaN, _ | _, NaN => NaN
  | Fin x, Fin y => Fin (x * y)
  | Fin x, PInf | PInf, Fin x =>
      if Qeq_bool x 0 then NaN else infinity (Qltb x 0)
  | Fin x, NInf | NInf, Fin x =>
      if Qeq_bool x 0 then NaN else infinity (negb (Qltb x 0))
  | PInf, PInf | NInf, NInf => PInf
  | PInf, NInf | NInf, PInf => NInf
  end.

(** [a / b]: a zero divisor gives NaN for a zero dividend and an infinity
    otherwise. *)
Definition div (a b : num) : num :=
  match a, b with
  | NaN, _ | _, NaN => NaN
  | Fin x, Fin y =>
      if Qeq_bool y 0
      then if Qeq_bool x 0 then NaN else infinity (Qltb x 0)
      else Fin (x / y)
  | Fin _, _ => Fin 0
  | PInf, Fin y => infinity (Qltb y 0)
  | NInf, Fin y => infinity (negb (Qltb y 0))
  | _, _ => NaN
  end.

Definition Qtrunc (x : Q) : Z := if Qle_bool 0 x then Qfloor x else Qceiling x.

(** [a % b]: the remainder has the sign of the dividend. *)
Definition rem (a b : num) : num :=
  match a, b with
  | Fin x, Fin y =>
      if Qeq_bool y 0 then NaN else Fin (x - y * inject_Z (Qtrunc (x / y)))
  | Fin x, PInf | Fin x, NInf => Fin x
  | _, _ => NaN
  end.

Definition abs (a : num) : num :=
  match a with
  | Fin x => Fin (Qabs x)
  | PInf | NInf => PInf
  | NaN => NaN
  end.

Definition floor (a : num) : num :=
  match a with
  | Fin x => of_Z (Qfloor x)
  | _ => a
  end.

Definition ceil (a : num) : num :=
  match a with
  | Fin x => of_Z (Qceiling x)
  | _ => a
  end.

(** [Math.round]: ties go up. *)
Definition round (a : num) : num :=
  match a with
  | Fin x => of_Z (Qfloor (x + 0.5))
  | _ => a
  end.

(** [a < b]; every comparison with NaN is false. *)
Definition ltb (a b : num) : bool :=
  match a, b with
  | NaN, _ | _, NaN => false
  | Fin x, Fin y => Qltb x y
  | NInf, Fin _ | NInf, PInf | Fin _, PInf => true
  | _, _ => false
  end.

(** [a <= b] *)
Definition leb (a b : num) : bool :=
  match a, b with
  | NaN, _ | _, NaN => false
  | Fin x, Fin y => Qle_bool x y
  | NInf, _ | _, PInf => true
  | _, _ => false
  end.

(** [a === b] *)
Definition eqb (a b : num) : bool :=
  match a, b with
  | Fin x, Fin y => Qeq_bool x y
  | PInf, PInf | NInf, NInf => true
  | _, _ => false
  end.


(** *** binary64

    A finite binary64 number is [n * 2^k] with [|n| < 2^53] and
    [-1074 <= k <= 971].  The result of an operation is its exact result
    rounded to the nearest such number, of two equally near ones to the one
    with even [n]; a result that rounds to [2^1024] or beyond is an
    infinity. *)

Definition pow2 (e : Z) : Q := (2 ^ e)%Q.

(** The binade of a positive [x]: the [e] with [2^e <= x < 2^(e+1)]. *)
Definition binade (x : Q) : Z :=
  let e := (Z.log2 (Qnum x) - Z.log2 (Z.pos (Qden x)))%Z in
  if Qle_bool (pow2 e) x then e else (e - 1)%Z.

(** The nearest integer, of two equally near ones the even one. *)
Definition nearest_even (x : Q) : Z :=
  let n := Qfloor x in
  let rest := (x - inject_Z n)%Q in
  if Qltb rest 0.5 then n
  else if Qltb 0.5 rest then (n + 1)%Z
  else if Z.even n then n else (n + 1)%Z.

(** The exponent [k] of the binary64 numbers around a positive [x]: 53
    significant bits, and no exponent below that of the subnormal numbers. *)
Definition quantum (x : Q) : Z := Z.max (binade x - 52) (-1074).

Definition round_magnitude (x : Q) : Q :=
  (inject_Z (nearest_even (x / pow2 (quantum x))) * pow2 (quantum x))%Q.

(** [x] rounded to the nearest binary64 number, the exponent unbounded
    above. *)
Definition binary64 (x : Q) : Q :=
  if Qeq_bool x 0 then 0%Q
  else if Qltb x 0 then (- round_magnitude (- x))%Q
  else round_magnitude x.

(** The binary64 number that stands for the exact result [a]. *)
Definition b64 (a : num) : num :=
  match a with
  | Fin x =>
      let y := binary64 x in
      if Qle_bool (pow2 1024) (Qabs y) then infinity (Qltb x 0) else Fin y
  | _ => a
  end.

(** A decimal literal of the source. *)
Definition lit (q : Q) : num := b64 (Fin q).

(** [a + b], [a - b], [a * b] and [a / b] in binary64. *)
Definition add64 (a b : num) : num := b64 (add a b).
Definition sub64 (a b : num) : num := b64 (sub a b).
Definition mul64 (a b : num) : num := b64 (mul a b).
Definition div64 (a b : num) : num := b64 (div a b).

(** The result of [toFixed(3)]: the decimal numeral of [thousandths / 1000]
    with three fraction digits, or one of the strings NaN, Infinity and
    -Infinity.  The nearest multiple of 0.001 is taken, of two equally near
    ones the larger in magnitude. *)
Inductive fixed3 : Type :=
| Decimal3 (thousandths : Z)
| NaNString
| InfinityString (negative : bool).

Definition toFixed3 (a : num) : fixed3 :=
  match a with
  | Fin x =>
      if Qltb x 0 then Decimal3 (- Qfloor (- x * 1000 + 0.5))
      else Decimal3 (Qfloor (x * 1000 + 0.5))
  | PInf => InfinityString false
  | NInf => InfinityString true
  | NaN => NaNString
  end.

End Num.

Import Num.

(** ** Attention model *)

Definition getAttentionScore (positionInChunk chunkSize : num) : num :=
  let normalizedPos := div64 positionInChunk chunkSize in
  if ltb normalizedPos (lit 0.15) then
    sub64 (lit 0.95) (mul64 normalizedPos (lit 0.5))
  else if ltb (lit 0.85) normalizedPos then
    add64 (lit 0.7) (mul64 (sub64 normalizedPos (lit 0.85)) (lit 1.5))
  else
    let midPoint := lit 0.5 in
    let distFromMid := abs (sub64 normalizedPos midPoint) in
    add64 (lit 0.55) (mul64 distFromMid (lit 0.3)).

(** The three branch formulas at a finite relative position [r], every
    literal and every operation rounded as in [getAttentionScore]. *)
Definition first_branch (r : Q) : Q :=
  binary64 (binary64 0.95 - binary64 (r * binary64 0.5))%Q.
Definition last_branch (r : Q) : Q :=
  binary64 (binary64 0.7 + binary64 (binary64 (r - binary64 0.85) * binary64 1.5))%Q.
Definition middle_branch (r : Q) : Q :=
  binary64 (binary64 0.55 + binary64 (Qabs (binary64 (r - binary64 0.5)) * binary64 0.3))%Q.

(** ** Chunker *)

Record Chunk := mkChunk {
  tokens : list token;
  text : jsstring;
  startToken : Z;
  endToken : Z;
  tokenCount : nat
}.

Record chunker_state := mkChunker {
  chunks : list Chunk;
  currentChunk : list token;
  currentText : jsstring;
  tokenIndex : Z
}.

(** The body of the [for] loop of [chunkContent] at index [i], where
    [n = tokens.length] and [tok = tokens[i]]. *)
Definition chunk_step (chunkSize : Z) (n i : nat) (tok : token) (st : chunker_state)
  : chunker_state :=
  let cur := currentChunk st ++ [tok] in
  let txt := currentText st ++ tok in
  if (chunkSize <=? Z.of_nat (length cur))%Z || (i =? n - 1) then
    {| chunks := chunks st ++
                 [ {| tokens := cur;
                      text := txt;
                      startToken := tokenIndex st;
                      endToken := tokenIndex st + Z.of_nat (length cur) - 1;
                      tokenCount := length cur |} ];
       currentChunk := [];
       currentText := [];
       tokenIndex := tokenIndex st + Z.of_nat (length cur) |}
  else
    {| chunks := chunks st;
       currentChunk := cur;
       currentText := txt;
       tokenIndex := tokenIndex st |}.

Fixpoint chunk_loop (chunkSize : Z) (n i : nat) (rest : list token) (st : chunker_state)
  : chunker_state :=
  match rest with
  | [] => st
  | tok :: rest' => chunk_loop chunkSize n (S i) rest' (chunk_step chunkSize n i tok st)
  end.

Definition chunkContent (text : jsstring) (tokens : list token) (chunkSize : Z)
  : list Chunk :=
  chunks (chunk_loop chunkSize (length tokens) 0 tokens
            {| chunks := []; currentChunk := []; currentText := []; tokenIndex := 0 |}).

(** ** [String.prototype.split] with a regular expression *)

(** [skip] counts the characters of the current separator still to pass,
    [piece] holds the current piece in reverse. *)
Fixpoint split_loop (sep : regex) (skip : nat) (piece : jsstring) (s : jsstring)
  : list jsstring :=
  match s with
  | [] => [rev piece]
  | c :: s' =>
      match skip with
      | S k => split_loop sep k piece s'
      | 0 =>
          match match_length sep s with
          | Some (S k) => rev piece :: split_loop sep k [] s'
          | _ => split_loop sep 0 (c :: piece) s'
          end
      end
  end.

Definition split (sep : regex) (s : jsstring) : list jsstring := split_loop sep 0 [] s.

(** ** Paragraph splitter *)

Definition isNewline (c : char) : bool := (c =? 10)%N.

(** [/\n\n+/] *)
Definition paragraph_break : regex := [one isNewline; plus isNewline].

Definition splitParagraphs (text : jsstring) : list jsstring :=
  filter (fun p => 0 <? length (trim p)) (split paragraph_break text).

(** ** Entity extractor *)

Record Entity := mkEntity {
  entity_text : jsstring;
  position : nat
}.

(** [text.matchAll(r)] for a global pattern [r].  [matcher before s] is the
    length of the match of [r] that starts where [s] starts, [before]
    being the text in front of that place in reverse order (for look-behind
    and word-boundary assertions).  After a match the scan resumes at its
    end: [skip] counts the characters of the last match still to pass. *)
Fixpoint matchAll_loop (matcher : jsstring -> jsstring -> option nat)
    (skip : nat) (before : jsstring) (index : nat) (s : jsstring)
  : list (jsstring * nat) :=
  match s with
  | [] => []
  | c :: s' =>
      match skip with
      | S k => matchAll_loop matcher k (c :: before) (S index) s'
      | 0 =>
          match matcher before s with
          | Some (S k) =>
              (firstn (S k) s, index) :: matchAll_loop matcher k (c :: before) (S index) s'
          | Some 0 =>
              ([], index) :: matchAll_loop matcher 0 (c :: before) (S index) s'
          | None => matchAll_loop matcher 0 (c :: before) (S index) s'
          end
      end
  end.

Definition matchAll (matcher : jsstring -> jsstring -> option nat) (text : jsstring)
  : list (jsstring * nat) :=
  matchAll_loop matcher 0 [] 0 text.

(** [[.!?]] *)
Definition isSentenceEnd (c : char) : bool := one_of [46; 33; 63]%N c.

(** First alternative of the look-behind, [[.!?]\s+[^A-Z]*], read
    backwards from the place of the match: characters other than capitals,
    the nearest of them preceded by white space that follows a sentence
    end.  [space] tells whether the character just passed is white space. *)
Fixpoint behind_sentence (space : bool) (before : jsstring) : bool :=
  match before with
  | [] => false
  | c :: before' =>
      (isSentenceEnd c && space)
      || (negb (isUpper c) && behind_sentence (isSpace c) before')
  end.

(** Second alternative, [^[^A-Z]*]: nothing but non-capitals back to the
    start of the text. *)
Definition behind_start (before : jsstring) : bool :=
  forallb (fun c => negb (isUpper c)) before.

Definition lookbehind (before : jsstring) : bool :=
  behind_sentence false before || behind_start before.

(** [[A-Z][a-zA-Z]+] *)
Definition capitalized_word : regex := [one isUpper; plus isAlpha].

(** [\s+[A-Z][a-zA-Z]+] *)
Definition next_capitalized_word : regex := [plus isSpace; one isUpper; plus isAlpha].

(** Greedy [( r )*] in final position: the total length of the successive
    matches of [r]. *)
Fixpoint star_length (fuel : nat) (r : regex) (s : jsstring) : nat :=
  match fuel with
  | 0 => 0
  | S fuel' =>
      match match_length r s with
      | Some (S n) => S n + star_length fuel' r (skipn (S n) s)
      | _ => 0
      end
  end.

(** The capitalized-phrase pattern: the look-behind with its two
    alternatives, then one [capitalized_word] and, greedily, any number of
    [next_capitalized_word]. *)
Definition phrase_matcher (before s : jsstring) : option nat :=
  if lookbehind before then
    match match_length capitalized_word s with
    | Some n => Some (n + star_length (length s) next_capitalized_word (skipn n s))
    | None => None
    end
  else None.

(** [\b] between the characters [a] (in front) and [b] (behind), [None]
    standing for the start or the end of the text. *)
Definition word_boundary (a b : option char) : bool :=
  let w o := match o with Some c => isWord c | None => false end in
  xorb (w a) (w b).

(** The acronym pattern [\b([A-Z]{2,})\b]. *)
Definition acronym_matcher (before s : jsstring) : option nat :=
  if word_boundary (hd_error before) (hd_error s) then
    try_down
      (fun k =>
         if word_boundary (nth_error s (k - 1)) (nth_error s k) then Some 0 else None)
      2 (run_length isUpper None s)
  else None.

(** First pass: the matches of the capitalized-phrase pattern longer than
    two characters. *)
Definition capitalizedPhrases (text : jsstring) : list Entity :=
  flat_map (fun m => if 2 <? length (fst m) then [mkEntity (fst m) (snd m)] else [])
           (matchAll phrase_matcher text).

(** Second pass: the acronyms. *)
Definition acronyms (text : jsstring) : list Entity :=
  map (fun m => mkEntity (fst m) (snd m)) (matchAll acronym_matcher text).

Definition extractEntities (text : jsstring) : list Entity :=
  capitalizedPhrases text ++ acronyms text.

(** ** Analysis aggregator *)

Record ParagraphInfo := mkParagraph {
  index : nat;
  paragraph_text : jsstring;
  paragraph_tokenCount : nat;
  exceedsChunk : bool;
  chunksRequired : num
}.

Record EntityInfo := mkEntityInfo {
  entity : Entity;
  tokenPosition : nat;
  chunkIndex : num;
  positionInChunk : num;
  attentionScore : num;
  isLowAttention : bool
}.

Inductive efficiency_label : Type := optimal | acceptable | verbose.

Record AnalysisResult := mkAnalysis {
  gptTokens : nat;
  claudeTokens : nat;
  geminiTokens : nat;
  variance : num;
  paragraphs : list ParagraphInfo;
  analysis_chunks : list Chunk;
  entities : list EntityInfo;
  wordCount : nat;
  wordsPerToken : fixed3;
  efficiency : efficiency_label
}.

Definition paragraphInfo (chunkSize : Z) (idx : nat) (p : jsstring)
  : outcome ParagraphInfo :=
  pTokens <- approximateTokenize p ;;
  Returns {| index := idx;
             paragraph_text := p;
             paragraph_tokenCount := length pTokens;
             exceedsChunk := (chunkSize <? Z.of_nat (length pTokens))%Z;
             chunksRequired := ceil (div (of_nat (length pTokens)) (of_Z chunkSize)) |}.

(** [paragraphs.map((p, idx) => ...)], from index [idx] on. *)
Fixpoint paragraphAnalysis (chunkSize : Z) (idx : nat) (ps : list jsstring)
  : outcome (list ParagraphInfo) :=
  match ps with
  | [] => Returns []
  | p :: ps' =>
      info <- paragraphInfo chunkSize idx p ;;
      infos <- paragraphAnalysis chunkSize (S idx) ps' ;;
      Returns (info :: infos)
  end.

(** The loop that maps the character offset of an entity to a token index;
    [tokenPosition] keeps its initial 0 when the loop ends without
    [break]. *)
Fixpoint tokenPosition_loop (entityPosition i charCount : nat) (rest : list token) : nat :=
  match rest with
  | [] => 0
  | tok :: rest' =>
      if entityPosition <=? charCount then i
      else tokenPosition_loop entityPosition (S i) (charCount + length tok) rest'
  end.

Definition entityInfo (gptTokens : list token) (chunkSize : Z) (e : Entity) : EntityInfo :=
  let tokenPosition := tokenPosition_loop (position e) 0 0 gptTokens in
  let chunkIndex := floor (div (of_nat tokenPosition) (of_Z chunkSize)) in
  let positionInChunk := rem (of_nat tokenPosition) (of_Z chunkSize) in
  let attention := getAttentionScore positionInChunk (of_Z chunkSize) in
  {| entity := e;
     tokenPosition := tokenPosition;
     chunkIndex := chunkIndex;
     positionInChunk := positionInChunk;
     attentionScore := attention;
     isLowAttention := ltb attention (lit 0.65) |}.

Definition max3 (a b c : nat) : nat := Nat.max (Nat.max a b) c.
Definition min3 (a b c : nat) : nat := Nat.min (Nat.min a b) c.

(** [content.split(/\s+/).filter(w => w.length > 0).length] *)
Definition countWords (content : jsstring) : nat :=
  length (filter (fun w => 0 <? length w) (split [plus isSpace] content)).

(** The value of the [analysis] memo: [Returns None] is [null]. *)
Definition analysis (content : jsstring) (chunkSize : Z)
  : outcome (option AnalysisResult) :=
  match trim content with
  | [] => Returns None
  | _ =>
      gpt <- approximateTokenize content ;;
      claude <- approximateClaudeTokenize content ;;
      gemini <- approximateGeminiTokenize content ;;
      paragraphInfos <- paragraphAnalysis chunkSize 0 (splitParagraphs content) ;;
      let chunks := chunkContent content gpt chunkSize in
      let entityInfos := map (entityInfo gpt chunkSize) (extractEntities content) in
      let wordCount := countWords content in
      let wordsPerToken := div (of_nat wordCount) (of_nat (length gpt)) in
      Returns (Some
        {| gptTokens := length gpt;
           claudeTokens := length claude;
           geminiTokens := length gemini;
           variance :=
             round (mul (div (of_nat (max3 (length gpt) (length claude) (length gemini)
                                      - min3 (length gpt) (length claude) (length gemini)))
                             (of_nat (length gpt)))
                        (of_nat 100));
           paragraphs := paragraphInfos;
           analysis_chunks := chunks;
           entities := entityInfos;
           wordCount := wordCount;
           wordsPerToken := toFixed3 wordsPerToken;
           efficiency :=
             if leb (Fin 0.75) wordsPerToken then optimal
             else if leb (Fin 0.65) wordsPerToken then acceptable
             else verbose |})
  end.

(** ** Hint generator *)

Inductive hint_type : Type := warning | critical | optimize | info.

(** The message of a hint, by the values its template interpolates. *)
Inductive hint_message : Type :=
| EntitiesAfterFirstChunk (later : nat)
| LowAttentionEntities (count : nat) (examples : list jsstring)
| LongParagraphs (count : nat) (chunkSize : Z)
| LowEfficiency (wordsPerToken : fixed3)
| ManyChunks (count : nat)
| LargeChunkSize.

Record Hint := mkHint {
  type : hint_type;
  message : hint_message
}.

Definition is_verbose (l : efficiency_label) : bool :=
  match l with
  | verbose => true
  | _ => false
  end.

Definition hints (analysis : option AnalysisResult) (chunkSize : Z) : list Hint :=
  match analysis with
  | None => []
  | Some a =>
      let firstChunkEntities := filter (fun e => eqb (chunkIndex e) (of_nat 0)) (entities a) in
      let laterEntities := filter (fun e => ltb (of_nat 0) (chunkIndex e)) (entities a) in
      let lowAttentionEntities := filter isLowAttention (entities a) in
      let longParagraphs := filter exceedsChunk (paragraphs a) in
      (if length firstChunkEntities <? length laterEntities
       then [mkHint warning (EntitiesAfterFirstChunk (length laterEntities))] else [])
      ++ (if 0 <? length lowAttentionEntities
          then [mkHint critical
                  (LowAttentionEntities (length lowAttentionEntities)
                     (map (fun e => entity_text (entity e)) (firstn 3 lowAttentionEntities)))]
          else [])
      ++ (if 0 <? length longParagraphs
          then [mkHint warning (LongParagraphs (length longParagraphs) chunkSize)] else [])
      ++ (if is_verbose (efficiency a)
          then [mkHint optimize (LowEfficiency (wordsPerToken a))] else [])
      ++ (if 5 <? length (analysis_chunks a)
          then [mkHint info (ManyChunks (length (analysis_chunks a)))] else [])
      ++ (if (120 <? chunkSize)%Z then [mkHint optimize LargeChunkSize] else [])
  end.

(** The [hints] memo of the component, computed from the [analysis] memo
    of the same content and chunk size. *)
Definition derivedHints (content : jsstring) (chunkSize : Z) : outcome (list Hint) :=
  a <- analysis content chunkSize ;;
  Returns (hints a chunkSize).

(** ** Colour of an attention score *)

Definition getAttentionColor (score : num) : jsstring :=
  if leb (lit 0.85) score then str "#4FD1C5"
  else if leb (lit 0.70) score then str "#38A89D"
  else if leb (lit 0.60) score then str "#6B7280"
  else str "#FF4444".

(** * Vocabulary of the properties *)

(** ** Tokenizers *)

(** Least number of characters a match of [r] takes. *)
Definition min_length (r : regex) : nat := fold_right (fun i n => lo i + n) 0 r.

(** The progress of one iteration of a tokenizer loop: a matched word has
    at least one character and lies within [remaining]; without a match the
    fallback takes exactly the first character. *)
Definition iteration_progress (patterns : list regex) (remaining : jsstring) : Prop :=
  match first_match patterns remaining with
  | Some word =>
      1 <= length word <= length remaining
      /\ length (skipn (length word) remaining) < length remaining
  | None => True
  end.

(** ** Chunker *)

(** The fields of a chunk agree with its tokens. *)
Definition chunk_wf (c : Chunk) : Prop :=
  text c = concat (tokens c)
  /\ tokenCount c = length (tokens c)
  /\ endToken c = (startToken c + Z.of_nat (tokenCount c) - 1)%Z.

(** The open chunk after [tok] is pushed, and the chunk record an iteration
    closes. *)
Definition extended (st : chunker_state) (tok : token) : list token :=
  currentChunk st ++ [tok].

Definition flushed (st : chunker_state) (tok : token) : Chunk :=
  {| tokens := extended st tok;
     text := currentText st ++ tok;
     startToken := tokenIndex st;
     endToken := (tokenIndex st + Z.of_nat (length (extended st tok)) - 1)%Z;
     tokenCount := length (extended st tok) |}.

(** Invariant of the loop of [chunkContent] in front of every iteration:
    [done] are the tokens seen so far. *)
Record chunker_inv (S : Z) (done : list token) (st : chunker_state) : Prop := {
  inv_partition : concat (map tokens (chunks st)) ++ currentChunk st = done;
  inv_full : Forall (fun c => Z.of_nat (tokenCount c) = S) (chunks st);
  inv_wf : Forall chunk_wf (chunks st);
  inv_start :
    forall k c, nth_error (chunks st) k = Some c -> startToken c = (Z.of_nat k * S)%Z;
  inv_index : tokenIndex st = (Z.of_nat (length (chunks st)) * S)%Z;
  inv_current : (Z.of_nat (length (currentChunk st)) < S)%Z;
  inv_text : currentText st = concat (currentChunk st)
}.

(** What the finished chunk list satisfies. *)
Record chunked (S : Z) (toks : list token) (cs : list Chunk) : Prop := {
  out_partition : concat (map tokens cs) = toks;
  out_wf : Forall chunk_wf cs;
  out_start :
    forall k c, nth_error cs k = Some c -> startToken c = (Z.of_nat k * S)%Z;
  out_full :
    forall k c, nth_error cs k = Some c -> k + 1 < length cs ->
                Z.of_nat (tokenCount c) = S;
  out_last :
    forall c, nth_error cs (length cs - 1) = Some c ->
              (1 <= Z.of_nat (tokenCount c) <= S)%Z
}.

(** [ceil(a / b)] on integers, for a positive [b]. *)
Definition ceil_div (a b : Z) : Z := ((a + b - 1) / b)%Z.

(** The chunk partition property of a chunk list [cs] for the tokens
    [toks] and the chunk size [S]. *)
Definition chunk_partition (toks : list token) (S : Z) (cs : list Chunk) : Prop :=
  let N := Z.of_nat (length toks) in
  (Z.of_nat (length cs) = ceil_div N S
   /\ (forall k c, nth_error cs k = Some c -> (k + 1 < length cs)%nat ->
                   Z.of_nat (tokenCount c) = S)
   /\ (forall c, nth_error cs (length cs - 1)%nat = Some c ->
                 Z.of_nat (tokenCount c) = if N mod S =? 0 then S else N mod S)
   /\ concat (map text cs) = concat toks
   /\ concat (map tokens cs) = toks
   /\ (forall k c, nth_error cs k = Some c ->
                   text c = concat (tokens c)
                   /\ tokenCount c = length (tokens c)
                   /\ startToken c = Z.of_nat k * S
                   /\ endToken c = startToken c + Z.of_nat (tokenCount c) - 1)
   /\ (forall k c c', nth_error cs k = Some c -> nth_error cs (k + 1)%nat = Some c' ->
                      startToken c' = endToken c + 1))%Z.

(** ** Attention model *)

(** The score at the finite relative position [r], by the branch
    formulas. *)
Definition branch_score (r : Q) : Q :=
  if Qltb r (binary64 0.15) then first_branch r
  else if Qltb (binary64 0.85) r then last_branch r
  else middle_branch r.



(** ** Aggregator *)

(** What [paragraphAnalysis] records for the paragraph [p]. *)
Definition paragraph_recorded (chunkSize : Z) (p : jsstring) (info : ParagraphInfo) : Prop :=
  exists pTokens,
    approximateTokenize p = Returns pTokens
    /\ paragraph_text info = p
    /\ paragraph_tokenCount info = length pTokens
    /\ exceedsChunk info = (chunkSize <? Z.of_nat (length pTokens))%Z
    /\ chunksRequired info = ceil (div (of_nat (length pTokens)) (of_Z chunkSize)).



(** ** Paragraph splitter *)

(** The text that pieces and the separators between them spell. *)
Fixpoint interleave (pieces seps : list jsstring) : jsstring :=
  match pieces with
  | [] => []
  | p :: pieces' =>
      match seps with
      | [] => p
      | sp :: seps' => p ++ sp ++ interleave pieces' seps'
      end
  end.

(** [sp] is what the pattern [sep] matches at the start of some text. *)
Definition separator (sep : regex) (sp : jsstring) : Prop :=
  exists s, match_length sep s = Some (length sp) /\ sp = firstn (length sp) s.

(** Two newline characters in a row somewhere in [s]. *)
Fixpoint has_break (s : jsstring) : bool :=
  match s with
  | [] => false
  | c :: s' =>
      match s' with
      | [] => false
      | d :: _ => (isNewline c && isNewline d) || has_break s'
      end
  end.

(** The last character of a piece held in reverse, and the first of a
    text, are newlines. *)
Definition ends_with_newline (reversed : jsstring) : bool :=
  match reversed with
  | [] => false
  | c :: _ => isNewline c
  end.

Definition starts_with_newline (s : jsstring) : bool :=
  match s with
  | [] => false
  | c :: _ => isNewline c
  end.

(** A run of two or more newlines. *)
Definition newline_run (sp : jsstring) : Prop :=
  2 <= length sp /\ forallb isNewline sp = true.

(** Every separator is a whole run of newlines: the piece in front of it
    does not end in a newline, and the text behind it does not start with
    one. *)
Fixpoint whole_runs (pieces seps : list jsstring) : Prop :=
  match pieces, seps with
  | p :: pieces', sp :: seps' =>
      ends_with_newline (rev p) = false
      /\ starts_with_newline (interleave pieces' seps') = false
      /\ whole_runs pieces' seps'
  | _, _ => True
  end.

(** [pieces] and [seps] cut [text] at its runs of two or more newlines. *)
Definition cut_at_breaks (text : jsstring) (pieces seps : list jsstring) : Prop :=
  length pieces = S (length seps)
  /\ text = interleave pieces seps
  /\ Forall newline_run seps
  /\ Forall (fun p => has_break p = false) pieces
  /\ whole_runs pieces seps.

(** ** Entity extractor *)

(** The first alternative of the look-behind, [[.!?]\s+[^A-Z]*], read as
    a regular expression.  [before] is the text in front of the match in
    reverse order, so it begins with the run [rest] of non-capitals, goes
    on with the white space [ws] and then the sentence end [c]. *)
Definition matches_behind_sentence (before : jsstring) : Prop :=
  exists rest ws c a,
    before = rest ++ ws ++ c :: a
    /\ forallb (fun x => negb (isUpper x)) rest = true
    /\ ws <> []
    /\ forallb isSpace ws = true
    /\ isSentenceEnd c = true.

(** ** Shape of the tokens *)

(** [[^A-Z]] *)
Definition notUpper (c : char) : bool := negb (isUpper c).

(** Greatest number of characters a match of [r] takes, when every
    quantifier of [r] is bounded. *)
Fixpoint max_length (r : regex) : option nat :=
  match r with
  | [] => Some 0
  | i :: r' =>
      match hi i, max_length r' with
      | Some h, Some m => Some (h + m)
      | _, _ => None
      end
  end.

(** Every class of [r] lies within the class [P]. *)
Definition classes_within (P : char -> bool) (r : regex) : Prop :=
  Forall (fun i => forall x, cls i x = true -> P x = true) r.

(** A capital letter can only be the first character of [t]. *)
Definition capital_only_first (t : token) : bool := forallb notUpper (tl t).

(** The first character of [t] is in the class [P]. *)
Definition starts_with (P : char -> bool) (t : token) : bool :=
  match t with
  | [] => false
  | c :: _ => P c
  end.

(** A pattern whose matches hold capitals in first place only: a single
    leading character followed by non-capitals. *)
Definition capital_first_pattern (r : regex) : Prop :=
  match r with
  | [] => True
  | i :: r' => (hi i = Some 1 \/ classes_within notUpper [i]) /\ classes_within notUpper r'
  end.

(** What every token of the primary tokenizer looks like: it is not
    empty, it has at most 4 characters when it is made of letters only, and
    a capital letter can only be its first character. *)
Definition gpt_token (t : token) : Prop :=
  1 <= length t
  /\ (forallb isAlpha t = true -> length t <= 4)
  /\ capital_only_first t = true.

(** Tokens of the secondary tokenizer: not empty, and at most 6 characters
    when the first one is a letter. *)
Definition claude_token (t : token) : Prop :=
  1 <= length t /\ (starts_with isAlpha t = true -> length t <= 6).

(** Tokens of the tertiary tokenizer: not empty, at most 6 characters when
    the first one is a letter and at most 7 when it is the marker. *)
Definition gemini_token (t : token) : Prop :=
  1 <= length t
  /\ (starts_with isAlpha t = true -> length t <= 6)
  /\ (starts_with isLowerBlock t = true -> length t <= 7).

(** A pattern whose matches are short or do not start in the class [P]. *)
Definition bounded_or_outside (bound : nat) (P : char -> bool) (r : regex) : Prop :=
  (exists M, max_length r = Some M /\ M <= bound)
  \/ classes_within (fun c => negb (P c)) r.

(** ** Entities and their place in the text *)

(** [text.slice(position, position + entity.text.length)] is the text of
    the entity. *)
Definition found_at (text : jsstring) (e : Entity) : Prop :=
  position e + length (entity_text e) <= length text
  /\ firstn (length (entity_text e)) (skipn (position e) text) = entity_text e.

(** The entities of [es] lie one after the other from the offset [lower]
    on, without overlap. *)
Fixpoint in_sequence (lower : nat) (es : list Entity) : Prop :=
  match es with
  | [] => True
  | e :: es' =>
      lower <= position e
      /\ in_sequence (position e + Nat.max 1 (length (entity_text e))) es'
  end.

(** The same for the matches of [matchAll]. *)
Fixpoint matches_in_sequence (lower : nat) (ms : list (jsstring * nat)) : Prop :=
  match ms with
  | [] => True
  | m :: ms' =>
      lower <= snd m
      /\ matches_in_sequence (snd m + Nat.max 1 (length (fst m))) ms'
  end.

(** ** Tokens and character offsets *)

(** The character offset at which the token of index [k] starts. *)
Definition offset_of (toks : list token) (k : nat) : nat :=
  length (concat (firstn k toks)).

(** ** Attention by relative position *)

(** The colour of the token at position [m] of a chunk of [S] tokens, read
    off the two numbers: hot in front of 15% and behind 95%, medium behind
    85% and up to 95%, degraded from 15% to one third and from two thirds to
    85%, cold strictly between one third and two thirds. *)
Definition zone_color (m S : Z) : jsstring :=
  if ((20 * m <? 3 * S) || (19 * S <? 20 * m))%Z then str "#4FD1C5"
  else if (17 * S <? 20 * m)%Z then str "#38A89D"
  else if ((3 * m <=? S) || (2 * S <=? 3 * m))%Z then str "#6B7280"
  else str "#FF4444".

(** ** Words and tokens *)

(** The number of words of [s]: the maximal runs of characters other than
    white space.  [in_word] tells whether the character in front of [s]
    belongs to a word. *)
Fixpoint count_words (in_word : bool) (s : jsstring) : nat :=
  match s with
  | [] => 0
  | c :: s' =>
      if isSpace c then count_words false s'
      else (if in_word then 0 else 1) + count_words true s'
  end.

(** [[^\s]] *)
Definition notSpace (c : char) : bool := negb (isSpace c).

(** A token that is white space only, or free of white space. *)
Definition unmixed (t : token) : Prop :=
  forallb isSpace t = true \/ forallb notSpace t = true.

Definition nonempty (s : jsstring) : bool :=
  match s with
  | [] => false
  | _ => true
  end.

(** A pattern whose matches are white space only, or free of it. *)
Definition unmixed_pattern (r : regex) : Prop :=
  classes_within isSpace r \/ classes_within notSpace r.

(** * Properties *)

(** ** Matches of the anchored patterns *)

Module RegexFacts.

Lemma run_length_le (c : char -> bool) (s : jsstring) :
  forall bound, run_length c bound s <= length s.
Proof.
  induction s as [|x s IH]; intros bound; simpl; [lia|].
  destruct (c x); [|lia].
  destruct bound as [[|b]|]; try lia.
  - specialize (IH (Some b)). lia.
  - specialize (IH None). lia.
Qed.

Lemma try_down_some (f : nat -> option nat) (lo : nat) :
  forall k m, try_down f lo k = Some m ->
  exists j n, lo <= j /\ j <= k /\ f j = Some n /\ m = j + n.
Proof.
  induction k as [|k IH]; intros m H; simpl in H.
  - destruct (0 <? lo) eqn:E; [discriminate|].
    apply Nat.ltb_ge in E.
    destruct (f 0) as [n|] eqn:F; [|discriminate].
    injection H as <-. exists 0, n. repeat split; auto.
  - destruct (S k <? lo) eqn:E; [discriminate|].
    apply Nat.ltb_ge in E.
    destruct (f (S k)) as [n|] eqn:F.
    + injection H as <-. exists (S k), n. repeat split; auto.
    + destruct (IH _ H) as (j & n & ? & ? & ? & ?).
      exists j, n. repeat split; auto.
Qed.

Lemma match_length_bounds (r : regex) :
  forall s n, match_length r s = Some n -> min_length r <= n /\ n <= length s.
Proof.
  induction r as [|i r IH]; intros s n H; simpl in *.
  - injection H as <-. lia.
  - apply try_down_some in H. destruct H as (j & m & Hlo & Hj & Hm & ->).
    apply IH in Hm. rewrite length_skipn in Hm.
    pose proof (run_length_le (cls i) s (hi i)). lia.
Qed.

Lemma exec_prefix (r : regex) (s w : jsstring) :
  exec r s = Some w ->
  s = w ++ skipn (length w) s /\ min_length r <= length w.
Proof.
  unfold exec. destruct (match_length r s) as [n|] eqn:E; [|discriminate].
  intros H. injection H as <-.
  apply match_length_bounds in E.
  rewrite length_firstn, Nat.min_l by lia.
  rewrite firstn_skipn. split; [reflexivity | lia].
Qed.

Lemma first_match_prefix (ps : list regex) (s w : jsstring) :
  Forall (fun r => 1 <= min_length r) ps ->
  first_match ps s = Some w ->
  s = w ++ skipn (length w) s /\ 1 <= length w.
Proof.
  induction 1 as [|r ps Hr _ IH]; simpl; [discriminate|].
  destruct (exec r s) as [w'|] eqn:E; [|exact IH].
  intros H. injection H as ->.
  apply exec_prefix in E. destruct E. split; [assumption | lia].
Qed.

End RegexFacts.

Import RegexFacts.

(** ** The tokenizer loop *)

Section TokenizerFacts.

Variable patterns : list regex.
Variable push : jsstring -> list token.

Hypothesis patterns_progress : Forall (fun r => 1 <= min_length r) patterns.
Hypothesis push_concat : forall word, concat (push word) = word.
Hypothesis push_count :
  forall word, 1 <= length word -> 1 <= length (push word) <= length word.

(** One iteration takes at least one character off [remaining]. *)
Lemma first_match_progress (remaining word : jsstring) :
  first_match patterns remaining = Some word ->
  1 <= length word <= length remaining
  /\ length (skipn (length word) remaining) < length remaining.
Proof.
  intros H. apply first_match_prefix in H; [|assumption].
  destruct H as [Hs Hw].
  assert (length remaining = length word + length (skipn (length word) remaining))
    by (rewrite Hs at 1; apply length_app).
  lia.
Qed.

(** With fuel for every character left, the loop ends; what it appends
    spells [remaining] and has no more tokens than [remaining] has
    characters, and at least one when [remaining] is not empty. *)
Lemma tokenize_loop_spec :
  forall fuel remaining tokens,
    length remaining <= fuel ->
    exists more,
      tokenize_loop patterns push fuel remaining tokens = Returns (tokens ++ more)
      /\ concat more = remaining
      /\ length more <= length remaining
      /\ (1 <= length remaining -> 1 <= length more).
Proof.
  induction fuel as [|fuel IH]; intros remaining tokens Hfuel.
  - destruct remaining; [|simpl in Hfuel; lia].
    exists []. simpl. rewrite app_nil_r. repeat split; auto.
  - destruct remaining as [|c rest].
    + exists []. simpl. rewrite app_nil_r. repeat split; auto.
    + cbn [tokenize_loop].
      destruct (first_match patterns (c :: rest)) as [word|] eqn:E.
      * pose proof (first_match_progress _ _ E) as [Hw Hlt].
        pose proof (first_match_prefix _ _ _ patterns_progress E) as [Hs _].
        destruct (IH (skipn (length word) (c :: rest)) (tokens ++ push word))
          as (more & Hrun & Hcat & Hlen & _); [simpl in *; lia|].
        exists (push word ++ more).
        rewrite Hrun, <- app_assoc. split; [reflexivity|].
        pose proof (push_count word (proj1 Hw)) as Hp.
        assert (length (c :: rest)
                = length word + length (skipn (length word) (c :: rest)))
          by (rewrite Hs at 1; apply length_app).
        rewrite concat_app, push_concat, Hcat, length_app.
        repeat split; [symmetry; exact Hs | lia | lia].
      * destruct (IH rest (tokens ++ [[c]])) as (more & Hrun & Hcat & Hlen & _);
          [simpl in *; lia|].
        exists ([c] :: more).
        rewrite Hrun, <- app_assoc. split; [reflexivity|].
        simpl. rewrite Hcat. repeat split; lia.
Qed.

Lemma tokenize_spec (text : jsstring) :
  exists toks,
    tokenize patterns push text = Returns toks
    /\ concat toks = text
    /\ length toks <= length text
    /\ (1 <= length text -> 1 <= length toks).
Proof.
  destruct text as [|c text].
  - exists []. simpl. repeat split; auto.
  - destruct (tokenize_loop_spec _ (c :: text) [] (le_n _)) as (more & H).
    exists more. exact H.
Qed.

(** Fuel beyond the length of [remaining] changes nothing. *)
Lemma tokenize_loop_fuel :
  forall fuel fuel' remaining tokens,
    length remaining <= fuel -> length remaining <= fuel' ->
    tokenize_loop patterns push fuel remaining tokens
    = tokenize_loop patterns push fuel' remaining tokens.
Proof.
  induction fuel as [|fuel IH]; intros fuel' remaining tokens L L'.
  - destruct remaining; [|simpl in L; lia]. destruct fuel'; reflexivity.
  - destruct remaining as [|c rest]; [destruct fuel'; reflexivity|].
    destruct fuel' as [|fuel']; [simpl in L'; lia|].
    cbn [tokenize_loop].
    destruct (first_match patterns (c :: rest)) as [word|] eqn:E.
    + pose proof (first_match_progress _ _ E) as [_ Hlt].
      apply IH; simpl in *; lia.
    + apply IH; simpl in *; lia.
Qed.

End TokenizerFacts.

(** ** The sub-word split of the primary tokenizer *)

Lemma split4_loop_spec (word : jsstring) :
  forall fuel i,
    length word - i <= fuel ->
    concat (split4_loop fuel i word) = skipn i word
    /\ length (split4_loop fuel i word) <= length word - i
    /\ (i < length word -> 1 <= length (split4_loop fuel i word)).
Proof.
  induction fuel as [|fuel IH]; intros i Hfuel.
  - simpl. rewrite skipn_all2 by lia. repeat split; lia.
  - simpl. destruct (i <? length word) eqn:E.
    + apply Nat.ltb_lt in E.
      destruct (IH (i + 4)) as (Hcat & Hlen & _); [lia|].
      simpl. rewrite Hcat. unfold slice.
      repeat split; try lia.
      destruct (Nat.le_gt_cases (i + 4) (length word)) as [Hle|Hgt].
      * rewrite Nat.min_l by lia.
        replace (i + 4 - i) with 4 by lia.
        replace (i + 4) with (4 + i) by lia.
        rewrite <- skipn_skipn. apply firstn_skipn.
      * rewrite Nat.min_r by lia.
        rewrite (skipn_all2 word (n := i + 4)) by lia.
        rewrite app_nil_r. apply firstn_all2.
        rewrite length_skipn. lia.
    + apply Nat.ltb_ge in E. rewrite skipn_all2 by lia.
      simpl. repeat split; lia.
Qed.

Lemma gpt_push_concat (word : jsstring) : concat (gpt_push word) = word.
Proof.
  unfold gpt_push.
  destruct ((4 <? length word) && test_all isAlpha word).
  - destruct (split4_loop_spec word (length word) 0) as (H & _); [lia|].
    exact H.
  - simpl. apply app_nil_r.
Qed.

Lemma gpt_push_count (word : jsstring) :
  1 <= length word -> 1 <= length (gpt_push word) <= length word.
Proof.
  intros Hw. unfold gpt_push.
  destruct ((4 <? length word) && test_all isAlpha word).
  - destruct (split4_loop_spec word (length word) 0) as (_ & Hle & Hge); lia.
  - simpl. lia.
Qed.

Lemma whole_push_concat (word : jsstring) : concat [word] = word.
Proof. simpl. apply app_nil_r. Qed.

Lemma whole_push_count (word : jsstring) :
  1 <= length word -> 1 <= length [word] <= length word.
Proof. simpl. lia. Qed.

Lemma gpt_patterns_progress : Forall (fun r => 1 <= min_length r) gpt_patterns.
Proof. repeat constructor. Qed.

Lemma claude_patterns_progress : Forall (fun r => 1 <= min_length r) claude_patterns.
Proof. repeat constructor. Qed.

Lemma gemini_patterns_progress : Forall (fun r => 1 <= min_length r) gemini_patterns.
Proof. repeat constructor. Qed.

Lemma approximateTokenize_spec (text : jsstring) :
  exists toks,
    approximateTokenize text = Returns toks
    /\ concat toks = text
    /\ length toks <= length text
    /\ (1 <= length text -> 1 <= length toks).
Proof.
  apply tokenize_spec;
    auto using gpt_patterns_progress, gpt_push_concat, gpt_push_count.
Qed.

Lemma approximateClaudeTokenize_spec (text : jsstring) :
  exists toks,
    approximateClaudeTokenize text = Returns toks
    /\ concat toks = text
    /\ length toks <= length text
    /\ (1 <= length text -> 1 <= length toks).
Proof.
  apply tokenize_spec;
    auto using claude_patterns_progress, whole_push_concat, whole_push_count.
Qed.

Lemma approximateGeminiTokenize_spec (text : jsstring) :
  exists toks,
    approximateGeminiTokenize text = Returns toks
    /\ concat toks = text
    /\ length toks <= length text
    /\ (1 <= length text -> 1 <= length toks).
Proof.
  apply tokenize_spec;
    auto using gemini_patterns_progress, whole_push_concat, whole_push_count.
Qed.

(** C1 (tokenizer completeness): every tokenizer returns, on every input
    string, a token sequence whose concatenation in order is the input. *)
Theorem tokenizers_concat (text : jsstring) :
  (exists toks, approximateTokenize text = Returns toks /\ concat toks = text)
  /\ (exists toks, approximateClaudeTokenize text = Returns toks /\ concat toks = text)
  /\ (exists toks, approximateGeminiTokenize text = Returns toks /\ concat toks = text).
Proof.
  destruct (approximateTokenize_spec text) as (g & Hg & Cg & _).
  destruct (approximateClaudeTokenize_spec text) as (c & Hc & Cc & _).
  destruct (approximateGeminiTokenize_spec text) as (m & Hm & Cm & _).
  repeat split; eauto.
Qed.

(** C9 (tokenizer termination): on every input each tokenizer loop makes
    progress in every iteration, ends within as many iterations as the
    input has characters whatever larger amount of fuel it is given, and
    returns no more tokens than the input has characters. *)
Theorem tokenizers_terminate (text : jsstring) :
  (forall remaining,
      iteration_progress gpt_patterns remaining
      /\ iteration_progress claude_patterns remaining
      /\ iteration_progress gemini_patterns remaining)
  /\ (forall more,
         tokenize_loop gpt_patterns gpt_push (length text + more) text []
         = approximateTokenize text
         /\ tokenize_loop claude_patterns (fun word => [word]) (length text + more) text []
            = approximateClaudeTokenize text
         /\ tokenize_loop gemini_patterns (fun word => [word]) (length text + more) text []
            = approximateGeminiTokenize text)
  /\ (exists toks, approximateTokenize text = Returns toks /\ length toks <= length text)
  /\ (exists toks, approximateClaudeTokenize text = Returns toks /\ length toks <= length text)
  /\ (exists toks, approximateGeminiTokenize text = Returns toks /\ length toks <= length text).
Proof.
  split; [|split].
  - intros remaining. unfold iteration_progress.
    repeat split;
      match goal with
      | |- match first_match ?ps ?r with _ => _ end =>
          destruct (first_match ps r) eqn:E; [|exact I]
      end;
      eapply first_match_progress in E;
      eauto using gpt_patterns_progress, claude_patterns_progress,
        gemini_patterns_progress.
  - intros more.
    assert (T : forall ps push,
               Forall (fun r => 1 <= min_length r) ps ->
               tokenize_loop ps push (length text + more) text [] = tokenize ps push text).
    { intros ps push Hps. destruct text as [|c t]; [destruct more; reflexivity|].
      unfold tokenize. apply tokenize_loop_fuel; auto; lia. }
    repeat split; apply T;
      auto using gpt_patterns_progress, claude_patterns_progress,
        gemini_patterns_progress.
  - destruct (approximateTokenize_spec text) as (g & Hg & _ & Lg & _).
    destruct (approximateClaudeTokenize_spec text) as (c & Hc & _ & Lc & _).
    destruct (approximateGeminiTokenize_spec text) as (m & Hm & _ & Lm & _).
    repeat split; eauto.
Qed.

(** ** The chunker *)

Module ChunkerFacts.

Local Open Scope Z_scope.

Lemma concat_snoc (l : list token) (t : token) : concat (l ++ [t]) = concat l ++ t.
Proof. rewrite concat_app. simpl. now rewrite app_nil_r. Qed.

Lemma nth_error_snoc (A : Type) (l : list A) (x y : A) (k : nat) :
  nth_error (l ++ [x]) k = Some y ->
  nth_error l k = Some y /\ (k < length l)%nat \/ k = length l /\ y = x.
Proof.
  intros H. destruct (Nat.lt_ge_cases k (length l)) as [Hlt|Hge].
  - rewrite nth_error_app1 in H by assumption. auto.
  - rewrite nth_error_app2 in H by assumption.
    destruct (k - length l)%nat as [|m] eqn:E; simpl in H.
    + injection H as <-. right. split; [lia | reflexivity].
    + destruct m; discriminate.
Qed.

Lemma initial_inv (S : Z) :
  1 <= S ->
  chunker_inv S []
    {| chunks := []; currentChunk := []; currentText := []; tokenIndex := 0 |}.
Proof.
  intros HS. constructor; simpl; auto; try lia.
  intros [|k] c H; discriminate.
Qed.

Section Step.

Variables (S : Z) (n i : nat) (tok : token) (done : list token) (st : chunker_state).
Hypothesis S_pos : 1 <= S.
Hypothesis Hinv : chunker_inv S done st.

Lemma cur_length :
  Z.of_nat (length (extended st tok)) = Z.of_nat (length (currentChunk st)) + 1.
Proof. unfold extended. rewrite length_app. simpl. lia. Qed.

Lemma flushed_wf : chunk_wf (flushed st tok).
Proof.
  unfold chunk_wf, flushed; simpl. repeat split.
  unfold extended. now rewrite concat_snoc, (inv_text _ _ _ Hinv).
Qed.

Lemma flushed_partition :
  concat (map tokens (chunks st ++ [flushed st tok])) = done ++ [tok].
Proof.
  rewrite map_app, concat_app. simpl. rewrite app_nil_r. unfold extended.
  now rewrite app_assoc, (inv_partition _ _ _ Hinv).
Qed.

Lemma flushed_start k c :
  nth_error (chunks st ++ [flushed st tok]) k = Some c -> startToken c = Z.of_nat k * S.
Proof.
  intros H. apply nth_error_snoc in H. destruct H as [[H _]|[-> ->]].
  - now apply (inv_start _ _ _ Hinv).
  - simpl. apply (inv_index _ _ _ Hinv).
Qed.

(** An iteration other than the last keeps the invariant. *)
Lemma chunk_step_inv :
  i <> (n - 1)%nat ->
  chunker_inv S (done ++ [tok]) (chunk_step S n i tok st).
Proof.
  intros Hi. unfold chunk_step. fold (extended st tok).
  apply Nat.eqb_neq in Hi. rewrite Hi, orb_false_r.
  pose proof cur_length as Hlen.
  pose proof (inv_current _ _ _ Hinv) as Hcur.
  destruct (S <=? Z.of_nat (length (extended st tok))) eqn:E.
  - apply Z.leb_le in E. fold (flushed st tok).
    constructor; simpl.
    + rewrite app_nil_r. apply flushed_partition.
    + apply Forall_app. split; [apply (inv_full _ _ _ Hinv)|].
      constructor; [simpl; lia | constructor].
    + apply Forall_app. split; [apply (inv_wf _ _ _ Hinv)|].
      constructor; [apply flushed_wf | constructor].
    + apply flushed_start.
    + rewrite length_app, (inv_index _ _ _ Hinv). simpl. lia.
    + lia.
    + reflexivity.
  - apply Z.leb_gt in E.
    constructor; simpl.
    + unfold extended. now rewrite app_assoc, (inv_partition _ _ _ Hinv).
    + apply (inv_full _ _ _ Hinv).
    + apply (inv_wf _ _ _ Hinv).
    + apply (inv_start _ _ _ Hinv).
    + apply (inv_index _ _ _ Hinv).
    + exact E.
    + unfold extended. now rewrite concat_snoc, (inv_text _ _ _ Hinv).
Qed.

(** The last iteration closes the list. *)
Lemma chunk_step_last :
  i = (n - 1)%nat ->
  chunked S (done ++ [tok]) (chunks (chunk_step S n i tok st)).
Proof.
  intros Hi. unfold chunk_step. fold (extended st tok).
  apply Nat.eqb_eq in Hi. rewrite Hi, orb_true_r. fold (flushed st tok). simpl.
  pose proof cur_length as Hlen.
  pose proof (inv_current _ _ _ Hinv) as Hcur.
  constructor.
  - apply flushed_partition.
  - apply Forall_app. split; [apply (inv_wf _ _ _ Hinv)|].
    constructor; [apply flushed_wf | constructor].
  - apply flushed_start.
  - intros k c H Hk. rewrite length_app in Hk. simpl in Hk.
    apply nth_error_snoc in H. destruct H as [[H _]|[-> _]]; [|lia].
    pose proof (inv_full _ _ _ Hinv) as F.
    rewrite Forall_forall in F. apply F. eapply nth_error_In; eauto.
  - intros c H. rewrite length_app in H. simpl in H.
    apply nth_error_snoc in H. destruct H as [[_ H]|[_ ->]]; [lia|].
    simpl. lia.
Qed.

End Step.

Lemma chunk_loop_chunked (S : Z) (n : nat) :
  1 <= S ->
  forall rest done st,
    rest <> [] ->
    n = (length done + length rest)%nat ->
    chunker_inv S done st ->
    chunked S (done ++ rest) (chunks (chunk_loop S n (length done) rest st)).
Proof.
  intros HS. induction rest as [|tok rest IH]; intros done st Hne Hn Hinv.
  - contradiction.
  - simpl. destruct rest as [|tok' rest].
    + simpl. apply chunk_step_last; auto. simpl in Hn. lia.
    + replace (done ++ tok :: tok' :: rest) with ((done ++ [tok]) ++ tok' :: rest)
        by now rewrite <- app_assoc.
      replace (Datatypes.S (length done)) with (length (done ++ [tok]))
        by (rewrite length_app; simpl; lia).
      apply IH.
      * discriminate.
      * rewrite length_app. simpl in *. lia.
      * apply chunk_step_inv; auto. simpl in Hn. lia.
Qed.

Lemma chunkContent_chunked (txt : jsstring) (toks : list token) (S : Z) :
  1 <= S -> chunked S toks (chunkContent txt toks S).
Proof.
  intros HS. unfold chunkContent. destruct toks as [|tok toks].
  - simpl. constructor; simpl; auto.
    + intros [|k] c H; discriminate.
    + intros [|k] c H; discriminate.
    + intros c H; discriminate.
  - apply (chunk_loop_chunked S (length (tok :: toks)) HS (tok :: toks) []).
    + discriminate.
    + reflexivity.
    + now apply initial_inv.
Qed.

End ChunkerFacts.

Import ChunkerFacts.

Lemma ceil_div_spec (a b q : Z) :
  (0 < b)%Z -> (ceil_div a b = q <-> (q - 1) * b < a <= q * b)%Z.
Proof.
  intros Hb. unfold ceil_div. split.
  - intros <-.
    pose proof (Z.div_mod (a + b - 1) b ltac:(lia)).
    pose proof (Z.mod_pos_bound (a + b - 1) b Hb). nia.
  - intros H. symmetry. apply (Z.div_unique _ _ _ (a + b - 1 - q * b)%Z); lia.
Qed.

Lemma chunk_texts (cs : list Chunk) :
  Forall chunk_wf cs -> concat (map text cs) = concat (concat (map tokens cs)).
Proof.
  induction 1 as [|c cs Hc _ IH]; simpl; [reflexivity|].
  destruct Hc as (-> & _). now rewrite concat_app, IH.
Qed.

Lemma full_chunks_length (S : Z) (cs : list Chunk) :
  Forall chunk_wf cs ->
  Forall (fun c => Z.of_nat (tokenCount c) = S) cs ->
  (Z.of_nat (length (concat (map tokens cs))) = Z.of_nat (length cs) * S)%Z.
Proof.
  induction 1 as [|c cs Hc _ IH]; intros F; [reflexivity|].
  inversion F as [|? ? Hfull F']; subst.
  destruct Hc as (_ & Hcount & _).
  cbn [map concat length].
  rewrite length_app, Nat2Z.inj_add, Nat2Z.inj_succ, IH, <- Hcount by assumption.
  ring.
Qed.

(** A finished chunk list is empty, or full chunks followed by a last one
    of 1 to [S] tokens. *)
Lemma chunked_shape (S : Z) (toks : list token) (cs : list Chunk) :
  chunked S toks cs ->
  cs = [] /\ toks = []
  \/ exists front last,
       cs = front ++ [last]
       /\ Forall (fun c => Z.of_nat (tokenCount c) = S) front
       /\ (1 <= Z.of_nat (tokenCount last) <= S)%Z
       /\ (Z.of_nat (length toks)
           = Z.of_nat (length front) * S + Z.of_nat (tokenCount last))%Z.
Proof.
  intros H. destruct cs as [|c0 cs0].
  - left. split; [reflexivity|]. symmetry. apply (out_partition _ _ _ H).
  - right.
    destruct (@exists_last _ (c0 :: cs0)) as (front & last & Hcs); [discriminate|].
    rewrite Hcs in H |- *. clear Hcs.
    exists front, last.
    assert (Hfront : Forall (fun c => Z.of_nat (tokenCount c) = S) front).
    { apply Forall_forall. intros c Hin.
      apply In_nth_error in Hin. destruct Hin as [k Hk].
      assert (k < length front) by (apply nth_error_Some; congruence).
      apply (out_full _ _ _ H k).
      - rewrite nth_error_app1; assumption.
      - rewrite length_app. simpl. lia. }
    assert (Hlast : (1 <= Z.of_nat (tokenCount last) <= S)%Z).
    { apply (out_last _ _ _ H).
      rewrite length_app. simpl.
      rewrite nth_error_app2 by lia.
      replace (length front + 1 - 1 - length front) with 0 by lia. reflexivity. }
    repeat split; try assumption; try lia.
    pose proof (out_wf _ _ _ H) as W. apply Forall_app in W. destruct W as [Wf Wl].
    inversion Wl as [|? ? (_ & Hc & _) _]; subst.
    rewrite <- (out_partition _ _ _ H), map_app, concat_app, length_app.
    simpl. rewrite app_nil_r, Nat2Z.inj_add, (full_chunks_length S) by assumption.
    rewrite Hc. reflexivity.
Qed.

(** C2 (chunk partition): for a chunk size [S >= 1] and any token sequence
    of length [N], [chunkContent] returns [ceil(N / S)] chunks, every chunk
    but the last with [S] tokens, the last with [N mod S] tokens (or [S]
    when [S] divides [N]); the chunk texts concatenate to the concatenation
    of the tokens, and the start and end indices are 0-based and
    contiguous. *)
Theorem chunkContent_partition (txt : jsstring) (toks : list token) (S : Z) :
  (1 <= S)%Z -> chunk_partition toks S (chunkContent txt toks S).
Proof.
  intros HS. pose proof (chunkContent_chunked txt toks S HS) as H.
  set (cs := chunkContent txt toks S) in *.
  assert (Hfull : forall k c, nth_error cs k = Some c -> k + 1 < length cs ->
                              Z.of_nat (tokenCount c) = S)
    by apply (out_full _ _ _ H).
  assert (Hwf : forall k c, nth_error cs k = Some c -> chunk_wf c).
  { intros k c Hk. pose proof (out_wf _ _ _ H) as W.
    rewrite Forall_forall in W. apply W. eapply nth_error_In; eauto. }
  unfold chunk_partition. cbv zeta.
  destruct (chunked_shape S toks cs H)
    as [[Hcs Htoks]|(front & last & Hcs & Hfront & Hlast & HN)].
  - rewrite Hcs, Htoks. simpl.
    assert (E : forall k (c : Chunk), nth_error [] k = Some c -> False)
      by (intros [|k] c Hk; discriminate).
    split; [unfold ceil_div; rewrite Z.div_small; lia|].
    repeat split; try reflexivity; intros; exfalso; eauto; discriminate.
  - assert (Hlen : Z.of_nat (length cs) = (Z.of_nat (length front) + 1)%Z)
      by (rewrite Hcs, length_app; simpl; lia).
    split; [|split; [|split; [|split; [|split; [|split]]]]].
    + rewrite Hlen. symmetry. apply ceil_div_spec; [lia|]. nia.
    + exact Hfull.
    + intros c Hc.
      assert (c = last).
      { rewrite Hcs, length_app in Hc. simpl in Hc.
        rewrite nth_error_app2 in Hc by lia.
        replace (length front + 1 - 1 - length front) with 0 in Hc by lia.
        simpl in Hc. congruence. }
      subst c. rewrite HN.
      destruct (Z.eq_dec (Z.of_nat (tokenCount last)) S) as [E|E].
      * rewrite E. replace (Z.of_nat (length front) * S + S)%Z
          with ((Z.of_nat (length front) + 1) * S)%Z by ring.
        rewrite Z.mod_mul by lia. reflexivity.
      * rewrite Z.add_comm, Z.mod_add, Z.mod_small by lia.
        destruct (Z.eqb_spec (Z.of_nat (tokenCount last)) 0); [lia | reflexivity].
    + rewrite chunk_texts by apply (out_wf _ _ _ H).
      now rewrite (out_partition _ _ _ H).
    + apply (out_partition _ _ _ H).
    + intros k c Hk. destruct (Hwf k c Hk) as (Ht & Hc & He).
      repeat split; try assumption. apply (out_start _ _ _ H k c Hk).
    + intros k c c' Hk Hk'.
      assert (k + 1 < length cs) by (apply nth_error_Some; congruence).
      rewrite (out_start _ _ _ H _ _ Hk').
      destruct (Hwf k c Hk) as (_ & _ & ->).
      rewrite (out_start _ _ _ H _ _ Hk), (Hfull k c Hk) by assumption.
      lia.
Qed.

Lemma chunkContent_partition_witness :
  (1 <= 2)%Z
  /\ chunk_partition [str "ab"; str " "; str "cd"] 2
       (chunkContent (str "ab cd") [str "ab"; str " "; str "cd"] 2).
Proof.
  split; [lia|].
  apply (chunkContent_partition (str "ab cd") [str "ab"; str " "; str "cd"] 2).
  lia.
Defined.

(** ** binary64 rounding *)

Module Binary64Facts.

Local Open Scope Q_scope.

Lemma Qltb_lt (x y : Q) : Qltb x y = true <-> x < y.
Proof.
  unfold Qltb. rewrite negb_true_iff. split.
  - intros H. apply Qnot_le_lt. intros L. apply Qle_bool_iff in L. congruence.
  - intros H. destruct (Qle_bool y x) eqn:E; [|reflexivity].
    apply Qle_bool_iff in E. exfalso. apply (Qlt_not_le _ _ H E).
Qed.

Lemma Qltb_ge (x y : Q) : Qltb x y = false <-> y <= x.
Proof.
  unfold Qltb. rewrite negb_false_iff. apply Qle_bool_iff.
Qed.

(** *** Powers of two *)

Lemma pow2_pos (e : Z) : 0 < pow2 e.
Proof. apply Qpower_0_lt. reflexivity. Qed.

Lemma pow2_le (a b : Z) : (a <= b)%Z -> pow2 a <= pow2 b.
Proof. intros H. apply Qpower_le_compat_l; [assumption | discriminate]. Qed.


Lemma pow2_plus (a b : Z) : pow2 (a + b) == pow2 a * pow2 b.
Proof. apply Qpower_plus. discriminate. Qed.

Lemma pow2_minus (a b : Z) : pow2 (a - b) == pow2 a / pow2 b.
Proof. apply Qpower_minus. discriminate. Qed.

Lemma pow2_nonneg (e : Z) : (0 <= e)%Z -> pow2 e == inject_Z (2 ^ e).
Proof. intros H. unfold pow2. now rewrite Zpower_Qpower. Qed.

Lemma pow2_succ (e : Z) : pow2 (e + 1) == 2 * pow2 e.
Proof. rewrite pow2_plus. change (pow2 1) with 2. ring. Qed.

(** Bounds of a quotient. *)
Lemma ratio_lt (n d A B : Q) :
  0 < d -> 0 < B -> n < A -> B <= d -> 0 < A -> n / d < A / B.
Proof.
  intros Hd HB Hn HBd HA. apply Qlt_shift_div_r; [assumption|].
  assert (E : A / B * B == A) by (field; lra).
  assert (P : 0 < A / B) by (apply Qlt_shift_div_l; lra).
  nra.
Qed.

Lemma ratio_le (n d A B : Q) :
  0 < d -> 0 < B -> A <= n -> d <= B -> 0 < A -> A / B <= n / d.
Proof.
  intros Hd HB Hn HBd HA. apply Qle_shift_div_l; [assumption|].
  assert (E : A / B * B == A) by (field; lra).
  assert (P : 0 < A / B) by (apply Qlt_shift_div_l; lra).
  nra.
Qed.

(** *** The binade of a positive number *)

Lemma log2_bounds (n : Z) :
  (0 < n)%Z -> pow2 (Z.log2 n) <= inject_Z n < pow2 (Z.log2 n + 1).
Proof.
  intros H. pose proof (Z.log2_nonneg n) as L.
  destruct (Z.log2_spec n H) as [A B].
  rewrite !pow2_nonneg by lia. rewrite <- Zle_Qle, <- Zlt_Qlt.
  replace (Z.log2 n + 1)%Z with (Z.succ (Z.log2 n)) by lia. split; assumption.
Qed.

Lemma binade_spec (x : Q) : 0 < x -> pow2 (binade x) <= x < pow2 (binade x + 1).
Proof.
  intros Hx. unfold binade.
  set (a := Z.log2 (Qnum x)). set (b := Z.log2 (Z.pos (Qden x))).
  assert (Hn : (0 < Qnum x)%Z).
  { destruct x as [n d]. unfold Qlt in Hx. simpl in *. lia. }
  destruct (log2_bounds (Qnum x) Hn) as [A1 A2]. fold a in A1, A2.
  destruct (log2_bounds (Z.pos (Qden x)) ltac:(lia)) as [B1 B2]. fold b in B1, B2.
  assert (Hd : 0 < inject_Z (Z.pos (Qden x))) by reflexivity.
  assert (E : x == inject_Z (Qnum x) / inject_Z (Z.pos (Qden x))).
  { destruct x as [n d]. simpl. rewrite (Qmake_Qdiv n d). reflexivity. }
  pose proof (pow2_pos a) as Pa. pose proof (pow2_pos b) as Pb.
  assert (U : x < pow2 (a - b + 1)).
  { rewrite E. replace (a - b + 1)%Z with ((a + 1) - b)%Z by lia.
    rewrite pow2_minus. apply ratio_lt; try assumption. apply pow2_pos. }
  assert (L : pow2 (a - b - 1) <= x).
  { rewrite E. replace (a - b - 1)%Z with (a - (b + 1))%Z by lia.
    rewrite pow2_minus. pose proof (pow2_pos (b + 1)).
    apply ratio_le; try assumption. lra. }
  destruct (Qle_bool (pow2 (a - b)) x) eqn:C.
  - apply Qle_bool_iff in C. split; assumption.
  - split; [assumption|].
    replace (a - b - 1 + 1)%Z with (a - b)%Z by lia.
    apply Qnot_le_lt. intros D. apply Qle_bool_iff in D. congruence.
Qed.

Lemma binade_unique (x : Q) (e : Z) :
  pow2 e <= x -> x < pow2 (e + 1) -> binade x = e.
Proof.
  intros L U.
  assert (Hx : 0 < x) by (pose proof (pow2_pos e); lra).
  destruct (binade_spec x Hx) as [L' U'].
  destruct (Z.lt_trichotomy (binade x) e) as [H|[H|H]]; [|assumption|].
  - pose proof (pow2_le (binade x + 1) e ltac:(lia)). lra.
  - pose proof (pow2_le (e + 1) (binade x) ltac:(lia)). lra.
Qed.

Lemma binade_mono (x y : Q) : 0 < x -> x <= y -> (binade x <= binade y)%Z.
Proof.
  intros Hx Hxy.
  destruct (binade_spec x Hx) as [L _].
  destruct (binade_spec y ltac:(lra)) as [_ U].
  destruct (Z_le_gt_dec (binade x) (binade y)) as [H|H]; [assumption|].
  pose proof (pow2_le (binade y + 1) (binade x) ltac:(lia)). lra.
Qed.

Lemma binade_comp (x y : Q) : 0 < x -> x == y -> binade x = binade y.
Proof.
  intros Hx E. destruct (binade_spec y ltac:(lra)) as [L U].
  apply binade_unique; lra.
Qed.

(** *** Rounding to the nearest integer, ties to even *)

Lemma nearest_even_cases (x : Q) :
  let n := Qfloor x in
  (nearest_even x = n /\ x - inject_Z n <= 0.5)
  \/ (nearest_even x = (n + 1)%Z /\ 0.5 <= x - inject_Z n).
Proof.
  cbv zeta. unfold nearest_even.
  destruct (Qltb (x - inject_Z (Qfloor x)) 0.5) eqn:A.
  - apply Qltb_lt in A. left. split; [reflexivity | lra].
  - apply Qltb_ge in A. destruct (Qltb 0.5 (x - inject_Z (Qfloor x))) eqn:B.
    + right. split; [reflexivity | assumption].
    + apply Qltb_ge in B. destruct (Z.even (Qfloor x)).
      * left. split; [reflexivity | assumption].
      * right. split; [reflexivity | assumption].
Qed.


Lemma nearest_even_mono (x y : Q) : x <= y -> (nearest_even x <= nearest_even y)%Z.
Proof.
  intros H. pose proof (Qfloor_resp_le x y H) as F.
  destruct (Z.eq_dec (Qfloor x) (Qfloor y)) as [E|N].
  - unfold nearest_even. rewrite <- E.
    set (n := Qfloor x).
    assert (R : x - inject_Z n <= y - inject_Z n) by lra.
    destruct (Qltb (x - inject_Z n) 0.5) eqn:A1;
      destruct (Qltb (y - inject_Z n) 0.5) eqn:A2;
      destruct (Qltb 0.5 (x - inject_Z n)) eqn:B1;
      destruct (Qltb 0.5 (y - inject_Z n)) eqn:B2;
      destruct (Z.even n);
      try lia;
      repeat match goal with
        | H : Qltb _ _ = true |- _ => apply Qltb_lt in H
        | H : Qltb _ _ = false |- _ => apply Qltb_ge in H
        end; exfalso; lra.
  - destruct (nearest_even_cases x) as [[-> _]|[-> _]];
      destruct (nearest_even_cases y) as [[-> _]|[-> _]]; lia.
Qed.

Lemma nearest_even_integer (n : Z) : nearest_even (inject_Z n) = n.
Proof.
  unfold nearest_even. rewrite Qfloor_Z.
  replace (Qltb (inject_Z n - inject_Z n) 0.5) with true; [reflexivity|].
  symmetry. apply Qltb_lt. lra.
Qed.

Lemma nearest_even_comp (x y : Q) : x == y -> nearest_even x = nearest_even y.
Proof.
  intros E. apply Z.le_antisymm; apply nearest_even_mono; lra.
Qed.

Lemma nearest_even_nonneg (x : Q) : 0 <= x -> (0 <= nearest_even x)%Z.
Proof.
  intros H. rewrite <- (nearest_even_integer 0). now apply nearest_even_mono.
Qed.


(** *** Rounding a positive number *)

Lemma quantum_mono (x y : Q) : 0 < x -> x <= y -> (quantum x <= quantum y)%Z.
Proof.
  intros Hx H. unfold quantum. pose proof (binade_mono x y Hx H). lia.
Qed.

Lemma scaled (x : Q) (k : Z) : x / pow2 k * pow2 k == x.
Proof. pose proof (pow2_pos k). field. lra. Qed.

Lemma round_magnitude_mono (x y : Q) :
  0 < x -> x <= y -> round_magnitude x <= round_magnitude y.
Proof.
  intros Hx H. unfold round_magnitude.
  pose proof (quantum_mono x y Hx H) as K.
  destruct (Z.eq_dec (quantum x) (quantum y)) as [E|N].
  - rewrite <- E. pose proof (pow2_pos (quantum x)) as P.
    apply Qmult_le_compat_r; [|lra]. rewrite <- Zle_Qle.
    apply nearest_even_mono. apply Qmult_le_r with (pow2 (quantum x)); [assumption|].
    rewrite !scaled. assumption.
  - (* [y] lies in a higher binade, at or above [pow2 (binade y)], and [x]
       below it *)
    assert (Ky : quantum y = (binade y - 52)%Z) by (unfold quantum in *; lia).
    assert (Bxy : (binade x < binade y)%Z) by (unfold quantum in *; lia).
    destruct (binade_spec x Hx) as [_ Ux].
    destruct (binade_spec y ltac:(lra)) as [Ly _].
    apply Qle_trans with (pow2 (binade y)).
    + set (k := quantum x) in *.
      assert (D : (0 <= binade y - k)%Z) by lia.
      pose proof (pow2_pos k) as P.
      assert (B : x / pow2 k <= inject_Z (2 ^ (binade y - k))).
      { rewrite <- pow2_nonneg by assumption. rewrite pow2_minus.
        apply Qmult_le_r with (pow2 k); [assumption|]. rewrite !scaled.
        pose proof (pow2_le (binade x + 1) (binade y) ltac:(lia)). lra. }
      apply nearest_even_mono in B. rewrite nearest_even_integer in B.
      rewrite Zle_Qle in B. rewrite <- pow2_nonneg in B by assumption.
      rewrite pow2_minus in B.
      apply Qle_trans with (pow2 (binade y) / pow2 k * pow2 k);
        [|rewrite scaled; lra].
      apply Qmult_le_compat_r; [assumption | lra].
    + rewrite Ky. set (e := binade y) in *.
      pose proof (pow2_pos (e - 52)) as P.
      assert (B : inject_Z (2 ^ 52) <= y / pow2 (e - 52)).
      { rewrite <- pow2_nonneg by lia.
        apply Qmult_le_r with (pow2 (e - 52)); [assumption|]. rewrite scaled.
        rewrite <- pow2_plus. replace (52 + (e - 52))%Z with e by lia. assumption. }
      apply nearest_even_mono in B. rewrite nearest_even_integer in B.
      rewrite Zle_Qle in B. rewrite <- pow2_nonneg in B by lia.
      apply Qle_trans with (pow2 52 * pow2 (e - 52)).
      * rewrite <- pow2_plus. replace (52 + (e - 52))%Z with e by lia. lra.
      * apply Qmult_le_compat_r; [assumption | lra].
Qed.

Lemma round_magnitude_nonneg (x : Q) : 0 < x -> 0 <= round_magnitude x.
Proof.
  intros H. unfold round_magnitude. pose proof (pow2_pos (quantum x)) as P.
  apply Qmult_le_0_compat; [|lra]. change 0 with (inject_Z 0). rewrite <- Zle_Qle.
  apply nearest_even_nonneg. apply Qle_shift_div_l; lra.
Qed.

Lemma round_magnitude_comp (x y : Q) :
  0 < x -> x == y -> round_magnitude x = round_magnitude y.
Proof.
  intros Hx E. unfold round_magnitude, quantum.
  rewrite (binade_comp x y Hx E).
  rewrite (nearest_even_comp (x / pow2 (Z.max (binade y - 52) (-1074)))
             (y / pow2 (Z.max (binade y - 52) (-1074)))); [reflexivity|].
  now rewrite E.
Qed.

(** *** Rounding *)

Lemma binary64_zero (x : Q) : x == 0 -> binary64 x = 0.
Proof.
  intros E. unfold binary64. apply Qeq_bool_iff in E. now rewrite E.
Qed.

Lemma binary64_positive (x : Q) : 0 < x -> binary64 x = round_magnitude x.
Proof.
  intros H. unfold binary64.
  destruct (Qeq_bool x 0) eqn:E; [apply Qeq_bool_iff in E; lra|].
  replace (Qltb x 0) with false; [reflexivity|]. symmetry. apply Qltb_ge. lra.
Qed.

Lemma binary64_negative (x : Q) : x < 0 -> binary64 x = - round_magnitude (- x).
Proof.
  intros H. unfold binary64.
  destruct (Qeq_bool x 0) eqn:E; [apply Qeq_bool_iff in E; lra|].
  replace (Qltb x 0) with true; [reflexivity|]. symmetry. now apply Qltb_lt.
Qed.

Lemma binary64_nonneg (x : Q) : 0 <= x -> 0 <= binary64 x.
Proof.
  intros H. destruct (Qlt_le_dec 0 x) as [P|Z].
  - rewrite binary64_positive by assumption. now apply round_magnitude_nonneg.
  - rewrite binary64_zero by lra. lra.
Qed.

Lemma binary64_nonpos (x : Q) : x <= 0 -> binary64 x <= 0.
Proof.
  intros H. destruct (Qlt_le_dec x 0) as [P|Z].
  - rewrite binary64_negative by assumption.
    pose proof (round_magnitude_nonneg (- x) ltac:(lra)). lra.
  - rewrite binary64_zero by lra. lra.
Qed.

(** Rounding is monotone. *)
Lemma binary64_mono (x y : Q) : x <= y -> binary64 x <= binary64 y.
Proof.
  intros H. destruct (Qlt_le_dec 0 x) as [Px|Nx].
  - rewrite !binary64_positive by lra. now apply round_magnitude_mono.
  - destruct (Qlt_le_dec 0 y) as [Py|Ny].
    + pose proof (binary64_nonpos x Nx). pose proof (binary64_nonneg y ltac:(lra)). lra.
    + destruct (Qlt_le_dec y 0) as [Ly|Zy].
      * rewrite !binary64_negative by lra.
        pose proof (round_magnitude_mono (- y) (- x) ltac:(lra) ltac:(lra)). lra.
      * rewrite (binary64_zero y) by lra. now apply binary64_nonpos.
Qed.

(** Rounding does not depend on how the rational is written. *)
Lemma binary64_comp (x y : Q) : x == y -> binary64 x = binary64 y.
Proof.
  intros E. destruct (Qlt_le_dec 0 x) as [P|N].
  - rewrite !binary64_positive by lra. now apply round_magnitude_comp.
  - destruct (Qlt_le_dec x 0) as [L|Z].
    + rewrite !binary64_negative by lra. f_equal.
      apply round_magnitude_comp; [lra | now rewrite E].
    + rewrite !binary64_zero by lra. reflexivity.
Qed.

Lemma binary64_between (a x b : Q) :
  a <= x <= b -> binary64 a <= binary64 x <= binary64 b.
Proof. intros [A B]. split; now apply binary64_mono. Qed.

(** Rounding is odd. *)
Lemma binary64_opp (x : Q) : binary64 (- x) == - binary64 x.
Proof.
  destruct (Qlt_le_dec 0 x) as [P|N].
  - rewrite (binary64_negative (- x)) by lra. rewrite (binary64_positive x P).
    rewrite (round_magnitude_comp (- - x) x); [reflexivity | lra | ring].
  - destruct (Qlt_le_dec x 0) as [L|Z].
    + rewrite (binary64_positive (- x)) by lra. rewrite (binary64_negative x L). ring.
    + rewrite !binary64_zero by lra. reflexivity.
Qed.


End Binary64Facts.

Import Binary64Facts.

(** ** The attention curve *)

Module AttentionFacts.

Local Open Scope Q_scope.

(** A comparison of two numbers without variables, by computation. *)
Ltac closed := vm_compute; first [reflexivity | discriminate].

Lemma inject_Z_pos (S : Z) : (1 <= S)%Z -> 0 < inject_Z S.
Proof.
  intros H. change 0 with (inject_Z 0). rewrite <- Zlt_Qlt. lia.
Qed.

(** *** Operations that stay far from overflow *)

Lemma binary64_bounded (x : Q) : -4 <= x <= 4 -> -4 <= binary64 x <= 4.
Proof.
  intros H. apply binary64_between in H.
  assert (E1 : binary64 4 == 4) by closed.
  assert (E2 : binary64 (-4) == -4) by closed.
  lra.
Qed.

Lemma binary64_unit (x : Q) : 0 <= x <= 1 -> 0 <= binary64 x <= 1.
Proof.
  intros H. apply binary64_between in H.
  assert (E1 : binary64 1 == 1) by closed.
  assert (E2 : binary64 0 == 0) by closed.
  lra.
Qed.

Lemma b64_Fin (x : Q) : -4 <= x <= 4 -> b64 (Fin x) = Fin (binary64 x).
Proof.
  intros H. unfold b64. cbv zeta.
  destruct (Qle_bool (pow2 1024) (Qabs (binary64 x))) eqn:E; [|reflexivity].
  exfalso. apply Qle_bool_iff in E.
  pose proof (binary64_bounded x H) as B.
  assert (A : Qabs (binary64 x) <= 4) by (apply Qabs_Qle_condition; lra).
  assert (P : 4 < pow2 1024) by closed.
  lra.
Qed.

Lemma lit_Fin (c : Q) : -4 <= c <= 4 -> lit c = Fin (binary64 c).
Proof. apply b64_Fin. Qed.

Lemma add64_Fin (x y : Q) :
  -4 <= x + y <= 4 -> add64 (Fin x) (Fin y) = Fin (binary64 (x + y)).
Proof. apply b64_Fin. Qed.

Lemma sub64_Fin (x y : Q) :
  -4 <= x - y <= 4 -> sub64 (Fin x) (Fin y) = Fin (binary64 (x - y)).
Proof. apply b64_Fin. Qed.

Lemma mul64_Fin (x y : Q) :
  -4 <= x * y <= 4 -> mul64 (Fin x) (Fin y) = Fin (binary64 (x * y)).
Proof. apply b64_Fin. Qed.

Lemma div64_Fin (x y : Q) :
  ~ y == 0 -> -4 <= x / y <= 4 -> div64 (Fin x) (Fin y) = Fin (binary64 (x / y)).
Proof.
  intros Hy H. unfold div64, div.
  destruct (Qeq_bool y 0) eqn:E; [apply Qeq_bool_iff in E; contradiction|].
  now apply b64_Fin.
Qed.

(** *** The literals of the curve *)

Lemma half_exact : binary64 0.5 == 0.5.
Proof. closed. Qed.

Lemma literal_bounds :
  0 <= binary64 0.15 <= 1 /\ 0 <= binary64 0.85 <= 1 /\ 0 <= binary64 0.95 <= 1
  /\ 0 <= binary64 0.7 <= 1 /\ 0 <= binary64 0.55 <= 1 /\ 0 <= binary64 0.3 <= 1
  /\ binary64 1.5 == 1.5.
Proof. repeat split; closed. Qed.

(** *** The score on finite operands *)

Lemma relative_position (p s : Q) : 0 < s -> 0 <= p -> p <= s -> 0 <= p / s <= 1.
Proof.
  intros Hs Hp Hps. split.
  - apply Qle_shift_div_l; [assumption | lra].
  - apply Qle_shift_div_r; [assumption | lra].
Qed.

Lemma getAttentionScore_finite (p s : Q) :
  0 < s -> 0 <= p -> p <= s ->
  getAttentionScore (Fin p) (Fin s) = Fin (branch_score (binary64 (p / s))).
Proof.
  intros Hs Hp Hps. pose proof (relative_position p s Hs Hp Hps) as Hr.
  unfold getAttentionScore. cbv zeta.
  rewrite div64_Fin by lra.
  pose proof (binary64_unit _ Hr) as Br. set (r := binary64 (p / s)) in *.
  destruct literal_bounds as (B15 & B85 & B95 & B07 & B055 & B03 & E15).
  pose proof half_exact as E05.
  rewrite !lit_Fin by (split; closed).
  cbn [ltb]. unfold branch_score.
  destruct (Qltb r (binary64 0.15)).
  - unfold first_branch.
    rewrite mul64_Fin by nra.
    assert (B1 : 0 <= binary64 (r * binary64 0.5) <= 1) by (apply binary64_unit; nra).
    rewrite sub64_Fin by lra. reflexivity.
  - destruct (Qltb (binary64 0.85) r).
    + unfold last_branch.
      rewrite sub64_Fin by lra.
      assert (B1 : -4 <= binary64 (r - binary64 0.85) <= 4)
        by (apply binary64_bounded; lra).
      assert (B1' : -1 <= binary64 (r - binary64 0.85) <= 1).
      { assert (L : -1 <= r - binary64 0.85 <= 1) by lra.
        apply binary64_between in L.
        assert (binary64 1 == 1) by closed. assert (binary64 (-1) == -1) by closed.
        lra. }
      rewrite mul64_Fin by nra.
      assert (B2 : -2 <= binary64 (binary64 (r - binary64 0.85) * binary64 1.5) <= 2).
      { assert (L : -2 <= binary64 (r - binary64 0.85) * binary64 1.5 <= 2) by nra.
        apply binary64_between in L.
        assert (binary64 2 == 2) by closed. assert (binary64 (-2) == -2) by closed.
        lra. }
      rewrite add64_Fin by lra. reflexivity.
    + unfold middle_branch.
      rewrite sub64_Fin by lra. cbn [abs].
      assert (B1 : -1 <= binary64 (r - binary64 0.5) <= 1).
      { assert (L : -1 <= r - binary64 0.5 <= 1) by lra.
        apply binary64_between in L.
        assert (binary64 1 == 1) by closed. assert (binary64 (-1) == -1) by closed.
        lra. }
      assert (A : 0 <= Qabs (binary64 (r - binary64 0.5)) <= 1).
      { split; [apply Qabs_nonneg | apply Qabs_Qle_condition; lra]. }
      rewrite mul64_Fin by nra.
      assert (B2 : 0 <= binary64 (Qabs (binary64 (r - binary64 0.5)) * binary64 0.3) <= 1)
        by (apply binary64_unit; nra).
      rewrite add64_Fin by lra. reflexivity.
Qed.

(** *** Each branch is monotone *)

Lemma first_branch_decreasing (x y : Q) : x <= y -> first_branch y <= first_branch x.
Proof.
  intros H. unfold first_branch. apply binary64_mono.
  assert (C : 0 <= binary64 0.5) by closed.
  pose proof (binary64_mono (x * binary64 0.5) (y * binary64 0.5)
                (Qmult_le_compat_r _ _ _ H C)).
  lra.
Qed.

Lemma last_branch_increasing (x y : Q) : x <= y -> last_branch x <= last_branch y.
Proof.
  intros H. unfold last_branch. apply binary64_mono.
  assert (C : 0 <= binary64 1.5) by closed.
  pose proof (binary64_mono (x - binary64 0.85) (y - binary64 0.85) ltac:(lra)) as M.
  pose proof (binary64_mono _ _ (Qmult_le_compat_r _ _ _ M C)).
  lra.
Qed.

Lemma middle_branch_distance (a b : Q) :
  Qabs (binary64 (a - binary64 0.5)) <= Qabs (binary64 (b - binary64 0.5)) ->
  middle_branch a <= middle_branch b.
Proof.
  intros H. unfold middle_branch. apply binary64_mono.
  assert (C : 0 <= binary64 0.3) by closed.
  pose proof (binary64_mono _ _ (Qmult_le_compat_r _ _ _ H C)).
  lra.
Qed.

Lemma middle_branch_decreasing (x y : Q) :
  x <= y -> y <= 0.5 -> middle_branch y <= middle_branch x.
Proof.
  intros H Hy. apply middle_branch_distance.
  pose proof half_exact as E.
  pose proof (binary64_mono (x - binary64 0.5) (y - binary64 0.5) ltac:(lra)) as M.
  pose proof (binary64_nonpos (y - binary64 0.5) ltac:(lra)) as N.
  rewrite !Qabs_neg by lra. lra.
Qed.

Lemma middle_branch_increasing (x y : Q) :
  0.5 <= x -> x <= y -> middle_branch x <= middle_branch y.
Proof.
  intros Hx H. apply middle_branch_distance.
  pose proof half_exact as E.
  pose proof (binary64_mono (x - binary64 0.5) (y - binary64 0.5) ltac:(lra)) as M.
  pose proof (binary64_nonneg (x - binary64 0.5) ltac:(lra)) as N.
  rewrite !Qabs_pos by lra. lra.
Qed.

(** The middle formula between two positions on either side of the
    midpoint is at most the larger of its values at the two. *)
Lemma middle_branch_between (a r b top : Q) :
  a <= r -> r <= b -> a <= 0.5 -> 0.5 <= b ->
  middle_branch a <= top -> middle_branch b <= top -> middle_branch r <= top.
Proof.
  intros Ha Hb La Lb Ta Tb. destruct (Qlt_le_dec r 0.5) as [L|G].
  - pose proof (middle_branch_decreasing a r Ha ltac:(lra)). lra.
  - pose proof (middle_branch_increasing r b G Hb). lra.
Qed.

Ltac bools :=
  repeat match goal with
    | H : Qltb _ _ = true |- _ => apply Qltb_lt in H
    | H : Qltb _ _ = false |- _ => apply Qltb_ge in H
    | H : Qle_bool _ _ = true |- _ => apply Qle_bool_iff in H
    end.

(** The score of a relative position between 0 and 1. *)
Lemma branch_score_range (r : Q) : 0 <= r <= 1 -> 0.55 <= branch_score r <= 0.95.
Proof.
  intros [L U]. unfold branch_score.
  destruct (Qltb r (binary64 0.15)) eqn:E1; [|destruct (Qltb (binary64 0.85) r) eqn:E2]; bools.
  - pose proof (first_branch_decreasing 0 r L).
    pose proof (first_branch_decreasing r (binary64 0.15) ltac:(lra)).
    assert (first_branch 0 <= 0.95) by closed.
    assert (0.55 <= first_branch (binary64 0.15)) by closed.
    lra.
  - pose proof (last_branch_increasing r 1 U).
    pose proof (last_branch_increasing (binary64 0.85) r ltac:(lra)).
    assert (last_branch 1 <= 0.95) by closed.
    assert (0.55 <= last_branch (binary64 0.85)) by closed.
    lra.
  - assert (A : binary64 0.15 <= 0.5) by closed.
    assert (B : 0.5 <= binary64 0.85) by closed.
    split.
    + assert (0.55 <= middle_branch 0.5) by closed.
      destruct (Qlt_le_dec r 0.5) as [S|G].
      * pose proof (middle_branch_decreasing r 0.5 ltac:(lra) ltac:(lra)). lra.
      * pose proof (middle_branch_increasing 0.5 r ltac:(lra) G). lra.
    + apply (middle_branch_between (binary64 0.15) r (binary64 0.85)); try assumption; closed.
Qed.

(** *** Positions and chunk sizes that are integers *)

Lemma scaled_le (a b m S : Z) :
  (a * m <= b * S)%Z -> inject_Z a * inject_Z m <= inject_Z b * inject_Z S.
Proof. intros H. rewrite <- !inject_Z_mult, <- Zle_Qle. exact H. Qed.

Lemma scaled_lt (a b m S : Z) :
  (a * m < b * S)%Z -> inject_Z a * inject_Z m + 1 <= inject_Z b * inject_Z S.
Proof.
  intros H. rewrite <- !inject_Z_mult. change 1 with (inject_Z 1).
  rewrite <- inject_Z_plus, <- Zle_Qle. lia.
Qed.

Lemma small_size (S : Z) : (1 <= S < 2 ^ 32)%Z -> 1 <= inject_Z S <= 4294967295.
Proof.
  intros [L U]. change 1 with (inject_Z 1). change 4294967295 with (inject_Z 4294967295).
  rewrite <- !Zle_Qle. change (2 ^ 32)%Z with 4294967296%Z in U. lia.
Qed.

Ltac numerals H :=
  repeat match type of H with
    | context [inject_Z (Z.pos ?p)] => change (inject_Z (Z.pos p)) with (Z.pos p # 1) in H
    end.

(** [c <= m / S] and [m / S <= c] from the products. *)
Lemma ratio_above (m s c : Q) : 0 < s -> c * s <= m -> c <= m / s.
Proof. intros Hs H. now apply Qle_shift_div_l. Qed.

Lemma ratio_below (m s c : Q) : 0 < s -> m <= c * s -> m / s <= c.
Proof. intros Hs H. now apply Qle_shift_div_r. Qed.

(** The score of an integer position is below 0.65 exactly between one
    sixth and five sixths of the chunk. *)
Lemma low_zone (m S : Z) :
  (1 <= S < 2 ^ 32)%Z -> (0 <= m <= S)%Z ->
  Qltb (branch_score (binary64 (inject_Z m / inject_Z S))) (binary64 0.65) = true
  <-> (S < 6 * m /\ 6 * m < 5 * S)%Z.
Proof.
  intros HS Hm. pose proof (small_size S HS) as [S1 S2].
  assert (Hs : 0 < inject_Z S) by lra.
  rewrite Qltb_lt. set (r := binary64 (inject_Z m / inject_Z S)).
  split.
  - intros Low.
    destruct (Z_le_gt_dec (6 * m) S) as [A|A]; [exfalso|].
    { (* at most one sixth *)
      pose proof (scaled_le 6 1 m S ltac:(lia)) as Q1. numerals Q1.
      assert (R : r <= binary64 (1 # 6))
        by (apply binary64_mono, ratio_below; [assumption | lra]).
      unfold branch_score in Low.
      destruct (Qltb r (binary64 0.15)) eqn:E1;
        [|destruct (Qltb (binary64 0.85) r) eqn:E2]; bools.
      - pose proof (first_branch_decreasing r (binary64 0.15) ltac:(lra)).
        assert (binary64 0.65 <= first_branch (binary64 0.15)) by closed. lra.
      - assert (binary64 (1 # 6) <= binary64 0.85) by closed. lra.
      - assert (binary64 (1 # 6) <= 0.5) by closed.
        pose proof (middle_branch_decreasing r (binary64 (1 # 6)) R ltac:(lra)).
        assert (binary64 0.65 <= middle_branch (binary64 (1 # 6))) by closed. lra. }
    destruct (Z_le_gt_dec (5 * S) (6 * m)) as [B|B]; [exfalso | lia].
    { (* at least five sixths *)
      pose proof (scaled_le 5 6 S m ltac:(lia)) as Q1. numerals Q1.
      assert (R : binary64 (5 # 6) <= r)
        by (apply binary64_mono, ratio_above; [assumption | lra]).
      unfold branch_score in Low.
      destruct (Qltb r (binary64 0.15)) eqn:E1;
        [|destruct (Qltb (binary64 0.85) r) eqn:E2]; bools.
      - assert (binary64 0.15 <= binary64 (5 # 6)) by closed. lra.
      - pose proof (last_branch_increasing (binary64 0.85) r ltac:(lra)).
        assert (binary64 0.65 <= last_branch (binary64 0.85)) by closed. lra.
      - assert (0.5 <= binary64 (5 # 6)) by closed.
        pose proof (middle_branch_increasing (binary64 (5 # 6)) r ltac:(lra) R).
        assert (binary64 0.65 <= middle_branch (binary64 (5 # 6))) by closed. lra. }
  - intros [A B].
    pose proof (scaled_lt 1 6 S m ltac:(lia)) as Q1. numerals Q1.
    pose proof (scaled_lt 6 5 m S ltac:(lia)) as Q2. numerals Q2.
    set (lo := (1 # 6) + (1 # 274877906944)). set (hi := (5 # 6) - (1 # 274877906944)).
    assert (R1 : binary64 lo <= r).
    { apply binary64_mono, ratio_above; [assumption|]. unfold lo. lra. }
    assert (R2 : r <= binary64 hi).
    { apply binary64_mono, ratio_below; [assumption|]. unfold hi. lra. }
    unfold branch_score.
    assert (C1 : binary64 0.15 <= binary64 lo) by closed.
    assert (C2 : binary64 hi <= binary64 0.85) by closed.
    replace (Qltb r (binary64 0.15)) with false by (symmetry; apply Qltb_ge; lra).
    replace (Qltb (binary64 0.85) r) with false by (symmetry; apply Qltb_ge; lra).
    assert (T1 : middle_branch (binary64 lo) <= binary64 0.65 - (1 # 1152921504606846976)) by closed.
    assert (T2 : middle_branch (binary64 hi) <= binary64 0.65 - (1 # 1152921504606846976)) by closed.
    assert (L1 : binary64 lo <= 0.5) by closed.
    assert (L2 : 0.5 <= binary64 hi) by closed.
    pose proof (middle_branch_between _ r _ _ R1 R2 L1 L2 T1 T2). lra.
Qed.

(** *** Colours *)

Lemma getAttentionColor_Fin (x : Q) :
  getAttentionColor (Fin x)
  = if Qle_bool (binary64 0.85) x then str "#4FD1C5"
    else if Qle_bool (binary64 0.70) x then str "#38A89D"
    else if Qle_bool (binary64 0.60) x then str "#6B7280"
    else str "#FF4444".
Proof.
  unfold getAttentionColor. rewrite !lit_Fin by (split; closed). reflexivity.
Qed.

Lemma Qle_bool_lt (x y : Q) : y < x -> Qle_bool x y = false.
Proof.
  intros H. destruct (Qle_bool x y) eqn:E; [|reflexivity].
  apply Qle_bool_iff in E. lra.
Qed.

Lemma Qle_bool_le (x y : Q) : x <= y -> Qle_bool x y = true.
Proof. apply Qle_bool_iff. Qed.

Lemma color_thresholds : binary64 0.60 <= binary64 0.70 /\ binary64 0.70 <= binary64 0.85.
Proof. split; closed. Qed.

Lemma color_hot (x : Q) :
  binary64 0.85 <= x -> getAttentionColor (Fin x) = str "#4FD1C5".
Proof.
  intros H. rewrite getAttentionColor_Fin. now rewrite Qle_bool_le.
Qed.

Lemma color_medium (x : Q) :
  binary64 0.70 <= x -> x < binary64 0.85 -> getAttentionColor (Fin x) = str "#38A89D".
Proof.
  intros H1 H2. rewrite getAttentionColor_Fin.
  rewrite Qle_bool_lt by assumption. now rewrite Qle_bool_le.
Qed.

Lemma color_degraded (x : Q) :
  binary64 0.60 <= x -> x < binary64 0.70 -> getAttentionColor (Fin x) = str "#6B7280".
Proof.
  intros H1 H2. destruct color_thresholds as [T1 T2]. rewrite getAttentionColor_Fin.
  rewrite Qle_bool_lt by lra. rewrite Qle_bool_lt by assumption.
  now rewrite Qle_bool_le.
Qed.

Lemma color_cold (x : Q) :
  x < binary64 0.60 -> getAttentionColor (Fin x) = str "#FF4444".
Proof.
  intros H. destruct color_thresholds as [T1 T2]. rewrite getAttentionColor_Fin.
  rewrite !Qle_bool_lt by lra. reflexivity.
Qed.

Lemma branch_first (r : Q) : r < binary64 0.15 -> branch_score r = first_branch r.
Proof.
  intros H. unfold branch_score. apply Qltb_lt in H. now rewrite H.
Qed.

Lemma branch_last (r : Q) : binary64 0.85 < r -> branch_score r = last_branch r.
Proof.
  intros H. unfold branch_score.
  assert (binary64 0.15 <= binary64 0.85) by closed.
  replace (Qltb r (binary64 0.15)) with false by (symmetry; apply Qltb_ge; lra).
  apply Qltb_lt in H. now rewrite H.
Qed.

Lemma branch_middle (r : Q) :
  binary64 0.15 <= r -> r <= binary64 0.85 -> branch_score r = middle_branch r.
Proof.
  intros H1 H2. unfold branch_score.
  replace (Qltb r (binary64 0.15)) with false by (symmetry; now apply Qltb_ge).
  replace (Qltb (binary64 0.85) r) with false by (symmetry; now apply Qltb_ge).
  reflexivity.
Qed.

(** The colour of the score of an integer position, by zones. *)
Lemma color_zones (m S : Z) :
  (1 <= S < 2 ^ 32)%Z -> (0 <= m <= S)%Z ->
  getAttentionColor (Fin (branch_score (binary64 (inject_Z m / inject_Z S))))
  = zone_color m S.
Proof.
  intros HS Hm. pose proof (small_size S HS) as [S1 S2].
  assert (Hs : 0 < inject_Z S) by lra.
  set (r := binary64 (inject_Z m / inject_Z S)).
  set (mu := 1 # 137438953472).
  unfold zone_color.
  destruct (20 * m <? 3 * S)%Z eqn:Z1.
  { (* in front of 15% *)
    apply Z.ltb_lt in Z1. cbn [orb].
    pose proof (scaled_lt 20 3 m S Z1) as Q1. numerals Q1.
    assert (R : r <= binary64 (0.15 - mu))
      by (apply binary64_mono, ratio_below; [assumption | unfold mu; lra]).
    assert (C : binary64 (0.15 - mu) < binary64 0.15) by closed.
    rewrite branch_first by lra. apply color_hot.
    pose proof (first_branch_decreasing r (binary64 0.15) ltac:(lra)).
    assert (binary64 0.85 <= first_branch (binary64 0.15)) by closed. lra. }
  apply Z.ltb_ge in Z1. pose proof (scaled_le 3 20 S m Z1) as Q1. numerals Q1.
  assert (R15 : binary64 0.15 <= r)
    by (apply binary64_mono, ratio_above; [assumption | lra]).
  destruct (19 * S <? 20 * m)%Z eqn:Z2.
  { (* behind 95% *)
    apply Z.ltb_lt in Z2. cbn [orb].
    pose proof (scaled_lt 19 20 S m Z2) as Q2. numerals Q2.
    assert (R : binary64 (0.95 + mu) <= r)
      by (apply binary64_mono, ratio_above; [assumption | unfold mu; lra]).
    assert (C : binary64 0.85 < binary64 (0.95 + mu)) by closed.
    rewrite branch_last by lra. apply color_hot.
    pose proof (last_branch_increasing (binary64 (0.95 + mu)) r R).
    assert (binary64 0.85 <= last_branch (binary64 (0.95 + mu))) by closed. lra. }
  apply Z.ltb_ge in Z2. pose proof (scaled_le 20 19 m S Z2) as Q2. numerals Q2.
  assert (R95 : r <= binary64 0.95)
    by (apply binary64_mono, ratio_below; [assumption | lra]).
  cbn [orb].
  destruct (17 * S <? 20 * m)%Z eqn:Z3.
  { (* behind 85% and up to 95% *)
    apply Z.ltb_lt in Z3.
    pose proof (scaled_lt 17 20 S m Z3) as Q3. numerals Q3.
    assert (R : binary64 (0.85 + mu) <= r)
      by (apply binary64_mono, ratio_above; [assumption | unfold mu; lra]).
    assert (C : binary64 0.85 < binary64 (0.85 + mu)) by closed.
    rewrite branch_last by lra.
    pose proof (last_branch_increasing (binary64 0.85) r ltac:(lra)).
    pose proof (last_branch_increasing r (binary64 0.95) R95).
    assert (binary64 0.70 <= last_branch (binary64 0.85)) by closed.
    assert (last_branch (binary64 0.95) < binary64 0.85) by closed.
    apply color_medium; lra. }
  apply Z.ltb_ge in Z3. pose proof (scaled_le 20 17 m S Z3) as Q3. numerals Q3.
  assert (R85 : r <= binary64 0.85)
    by (apply binary64_mono, ratio_below; [assumption | lra]).
  rewrite branch_middle by assumption.
  assert (L15 : binary64 0.15 <= 0.5) by closed.
  assert (L85 : 0.5 <= binary64 0.85) by closed.
  assert (T15 : middle_branch (binary64 0.15) <= binary64 0.70 - (1 # 1000)) by closed.
  assert (T85 : middle_branch (binary64 0.85) <= binary64 0.70 - (1 # 1000)) by closed.
  pose proof (middle_branch_between _ r _ _ R15 R85 L15 L85 T15 T85) as Top.
  destruct (3 * m <=? S)%Z eqn:Z4.
  { (* up to one third *)
    apply Z.leb_le in Z4. cbn [orb].
    pose proof (scaled_le 3 1 m S ltac:(lia)) as Q4. numerals Q4.
    assert (R : r <= binary64 (1 # 3))
      by (apply binary64_mono, ratio_below; [assumption | lra]).
    assert (binary64 (1 # 3) <= 0.5) by closed.
    pose proof (middle_branch_decreasing r (binary64 (1 # 3)) R ltac:(lra)).
    assert (binary64 0.60 <= middle_branch (binary64 (1 # 3))) by closed.
    apply color_degraded; lra. }
  apply Z.leb_gt in Z4. cbn [orb].
  destruct (2 * S <=? 3 * m)%Z eqn:Z5.
  { (* from two thirds *)
    apply Z.leb_le in Z5.
    pose proof (scaled_le 2 3 S m Z5) as Q5. numerals Q5.
    assert (R : binary64 (2 # 3) <= r)
      by (apply binary64_mono, ratio_above; [assumption | lra]).
    assert (0.5 <= binary64 (2 # 3)) by closed.
    pose proof (middle_branch_increasing (binary64 (2 # 3)) r ltac:(lra) R).
    assert (binary64 0.60 <= middle_branch (binary64 (2 # 3))) by closed.
    apply color_degraded; lra. }
  apply Z.leb_gt in Z5.
  (* strictly between one third and two thirds *)
  pose proof (scaled_lt 1 3 S m ltac:(lia)) as Q4. numerals Q4.
  pose proof (scaled_lt 3 2 m S Z5) as Q5. numerals Q5.
  assert (R1 : binary64 ((1 # 3) + mu) <= r)
    by (apply binary64_mono, ratio_above; [assumption | unfold mu; lra]).
  assert (R2 : r <= binary64 ((2 # 3) - mu))
    by (apply binary64_mono, ratio_below; [assumption | unfold mu; lra]).
  assert (L1 : binary64 ((1 # 3) + mu) <= 0.5) by closed.
  assert (L2 : 0.5 <= binary64 ((2 # 3) - mu)) by closed.
  assert (T1 : middle_branch (binary64 ((1 # 3) + mu))
               <= binary64 0.60 - (1 # 1152921504606846976)) by closed.
  assert (T2 : middle_branch (binary64 ((2 # 3) - mu))
               <= binary64 0.60 - (1 # 1152921504606846976)) by closed.
  pose proof (middle_branch_between _ r _ _ R1 R2 L1 L2 T1 T2).
  apply color_cold. lra.
Qed.

(** *** The 0.15 boundary *)






End AttentionFacts.

Import AttentionFacts.




(** ** Trimming *)

Lemma trimStart_blank (s : jsstring) : forallb isSpace s = true -> trimStart s = [].
Proof.
  induction s as [|c s IH]; simpl; [reflexivity|].
  intros H. apply andb_true_iff in H. destruct H as [Hc Hs].
  rewrite Hc. auto.
Qed.

Lemma trimStart_nil (s : jsstring) : trimStart s = [] -> forallb isSpace s = true.
Proof.
  induction s as [|c s IH]; simpl; [reflexivity|].
  destruct (isSpace c); [auto | discriminate].
Qed.

Lemma trimStart_suffix (s : jsstring) : exists blank, s = blank ++ trimStart s.
Proof.
  induction s as [|c s [blank IH]]; simpl.
  - exists []. reflexivity.
  - destruct (isSpace c).
    + exists (c :: blank). simpl. now rewrite <- IH.
    + exists []. reflexivity.
Qed.

Lemma trimStart_head (s : jsstring) :
  trimStart s = [] \/ exists c t, trimStart s = c :: t /\ isSpace c = false.
Proof.
  induction s as [|c s IH]; simpl; [left; reflexivity|].
  destruct (isSpace c) eqn:E; [exact IH|].
  right. exists c, s. auto.
Qed.

Lemma forallb_rev_true (f : char -> bool) (s : jsstring) :
  forallb f (rev s) = true -> forallb f s = true.
Proof.
  rewrite !forallb_forall. intros H x Hx. apply H. now apply in_rev in Hx.
Qed.

(** A string trims to the empty string exactly when it is empty or white
    space only. *)
Lemma trim_nil_iff (s : jsstring) : trim s = [] <-> forallb isSpace s = true.
Proof.
  unfold trim, trimEnd. split.
  - intros H.
    assert (H' : trimStart (rev (trimStart s)) = []).
    { destruct (trimStart (rev (trimStart s))); [reflexivity|].
      apply (f_equal (@length _)) in H. rewrite length_rev in H. discriminate. }
    apply trimStart_nil, forallb_rev_true in H'.
    destruct (trimStart_head s) as [E|(c & t & E & Hc)].
    + now apply trimStart_nil.
    + rewrite E in H'. simpl in H'. rewrite Hc in H'. discriminate.
  - intros H. rewrite (trimStart_blank s H). reflexivity.
Qed.

Lemma trim_not_nil_length (s : jsstring) : trim s <> [] -> 1 <= length s.
Proof.
  intros H. destruct s; [|simpl; lia]. exfalso. apply H. reflexivity.
Qed.

(** ** The aggregator *)

Lemma paragraphAnalysis_spec (chunkSize : Z) (ps : list jsstring) :
  forall idx,
  exists infos,
    paragraphAnalysis chunkSize idx ps = Returns infos
    /\ Forall2 (paragraph_recorded chunkSize) ps infos.
Proof.
  induction ps as [|p ps IH]; intros idx; simpl.
  - exists []. split; [reflexivity | constructor].
  - unfold paragraphInfo.
    destruct (approximateTokenize_spec p) as (toks & Ht & _).
    destruct (IH (S idx)) as (infos & Hi & F).
    rewrite Ht. simpl. rewrite Hi. simpl.
    eexists. split; [reflexivity|].
    constructor; [|exact F].
    exists toks. simpl. repeat split; assumption.
Qed.

Lemma chunk_loop_nonempty (chunkSize : Z) (n : nat) :
  forall rest i st,
    rest <> [] -> n = i + length rest ->
    chunks (chunk_loop chunkSize n i rest st) <> [].
Proof.
  induction rest as [|tok rest IH]; intros i st Hne Hn; [contradiction|].
  simpl. destruct rest as [|tok' rest].
  - simpl. unfold chunk_step.
    replace (i =? n - 1) with true by (symmetry; apply Nat.eqb_eq; simpl in Hn; lia).
    rewrite orb_true_r. simpl. intros E. apply app_eq_nil in E.
    destruct E as [_ E]. discriminate.
  - apply IH; [discriminate | simpl in *; lia].
Qed.

(** The last iteration closes a chunk whatever the chunk size is. *)
Lemma chunkContent_nonempty (txt : jsstring) (toks : list token) (chunkSize : Z) :
  toks <> [] -> chunkContent txt toks chunkSize <> [].
Proof.
  intros H. unfold chunkContent. apply chunk_loop_nonempty; auto.
Qed.

(** For a text that does not trim to the empty string the analysis returns
    a result, built from the three token lists and the paragraph records. *)
Lemma analysis_produced (content : jsstring) (chunkSize : Z) :
  trim content <> [] ->
  exists gpt claude gemini infos r,
    approximateTokenize content = Returns gpt
    /\ approximateClaudeTokenize content = Returns claude
    /\ approximateGeminiTokenize content = Returns gemini
    /\ 1 <= length gpt /\ 1 <= length claude /\ 1 <= length gemini
    /\ Forall2 (paragraph_recorded chunkSize) (splitParagraphs content) infos
    /\ analysis content chunkSize = Returns (Some r)
    /\ gptTokens r = length gpt
    /\ claudeTokens r = length claude
    /\ geminiTokens r = length gemini
    /\ paragraphs r = infos
    /\ analysis_chunks r = chunkContent content gpt chunkSize
    /\ entities r = map (entityInfo gpt chunkSize) (extractEntities content)
    /\ variance r
       = round (mul (div (of_nat (max3 (length gpt) (length claude) (length gemini)
                                  - min3 (length gpt) (length claude) (length gemini)))
                         (of_nat (length gpt)))
                    (of_nat 100))
    /\ wordsPerToken r
       = toFixed3 (div (of_nat (countWords content)) (of_nat (length gpt))).
Proof.
  intros Htrim. pose proof (trim_not_nil_length content Htrim) as Hlen.
  destruct (approximateTokenize_spec content) as (g & Hg & _ & _ & Lg).
  destruct (approximateClaudeTokenize_spec content) as (c & Hc & _ & _ & Lc).
  destruct (approximateGeminiTokenize_spec content) as (m & Hm & _ & _ & Lm).
  destruct (paragraphAnalysis_spec chunkSize (splitParagraphs content) 0)
    as (infos & Hi & F).
  exists g, c, m, infos. eexists.
  repeat (split; [solve [eauto]|]).
  unfold analysis. destruct (trim content) eqn:E; [contradiction|].
  rewrite Hg, Hc, Hm. simpl. rewrite Hi. simpl.
  split; [reflexivity|]. simpl. repeat split; reflexivity.
Qed.

Lemma analysis_blank (content : jsstring) (chunkSize : Z) :
  trim content = [] -> analysis content chunkSize = Returns None.
Proof.
  intros H. unfold analysis. now rewrite H.
Qed.


(** C7 (empty input): for a text that is empty or white space only, that
    is, a text that trims to the empty string, the analysis result is
    [null] and the derived hint list is empty. *)
Theorem blank_input_no_result (content : jsstring) (chunkSize : Z) :
  forallb isSpace content = true ->
  trim content = []
  /\ analysis content chunkSize = Returns None
  /\ derivedHints content chunkSize = Returns [].
Proof.
  intros H. apply trim_nil_iff in H.
  pose proof (analysis_blank content chunkSize H) as A.
  unfold derivedHints. rewrite A. auto.
Qed.

Lemma blank_input_no_result_witness :
  forallb isSpace (str "  ") = true
  /\ trim (str "  ") = []
  /\ analysis (str "  ") 100 = Returns None
  /\ derivedHints (str "  ") 100 = Returns [].
Proof.
  split; [reflexivity|].
  apply (blank_input_no_result (str "  ") 100). reflexivity.
Defined.

Lemma analysis_some_nonblank (content : jsstring) (chunkSize : Z) (r : AnalysisResult) :
  analysis content chunkSize = Returns (Some r) -> trim content <> [].
Proof.
  intros H E. rewrite (analysis_blank content chunkSize E) in H. discriminate.
Qed.

Lemma of_nat_nonneg (n : nat) : (0 <= inject_Z (Z.of_nat n))%Q.
Proof. change 0%Q with (inject_Z 0). rewrite <- Zle_Qle. lia. Qed.

Lemma of_nat_pos (n : nat) : 1 <= n -> (0 < inject_Z (Z.of_nat n))%Q.
Proof. intros H. change 0%Q with (inject_Z 0). rewrite <- Zlt_Qlt. lia. Qed.

(** A quotient of two counts, the divisor positive, is a rational that is
    not negative. *)
Lemma div_counts (a b : nat) :
  1 <= b ->
  exists q, div (of_nat a) (of_nat b) = Fin q /\ (0 <= q)%Q.
Proof.
  intros Hb. pose proof (of_nat_pos b Hb) as Hpos.
  pose proof (of_nat_nonneg a) as Ha.
  unfold div, of_nat, of_Z.
  destruct (Qeq_bool (inject_Z (Z.of_nat b)) 0) eqn:E.
  - apply Qeq_bool_iff in E. lra.
  - eexists. split; [reflexivity|].
    apply Qle_shift_div_l; [assumption | lra].
Qed.

Lemma Qfloor_nonneg (q : Q) : (0 <= q)%Q -> (0 <= Qfloor q)%Z.
Proof.
  intros H. change 0%Z with (Qfloor 0). now apply Qfloor_resp_le.
Qed.

(** C6 (no NaN in the ratios): in every analysis result that is produced
    the primary token count is at least 1, so the variance is a defined
    integer percentage and the words-per-token ratio prints as a decimal
    numeral; neither is NaN or an infinity. *)
Theorem analysis_ratios_defined
    (content : jsstring) (chunkSize : Z) (r : AnalysisResult) :
  analysis content chunkSize = Returns (Some r) ->
  1 <= gptTokens r
  /\ (exists percent, variance r = of_Z percent /\ (0 <= percent)%Z)
  /\ (exists thousandths, wordsPerToken r = Decimal3 thousandths /\ (0 <= thousandths)%Z).
Proof.
  intros H. pose proof (analysis_some_nonblank _ _ _ H) as Hne.
  destruct (analysis_produced content chunkSize Hne)
    as (g & c & m & infos & r' & _ & _ & _ & Lg & _ & _ & _ & Hr & Eg & _ & _ & _ & _ & _ & Ev & Ew).
  rewrite Hr in H. injection H as <-.
  split; [rewrite Eg; exact Lg|]. split.
  - rewrite Ev.
    destruct (div_counts (max3 (length g) (length c) (length m)
                          - min3 (length g) (length c) (length m)) (length g) Lg)
      as (q & -> & Hq).
    unfold of_nat at 1. unfold of_Z at 1. cbn [mul round].
    eexists. split; [reflexivity|].
    apply Qfloor_nonneg.
    assert (0 <= q * inject_Z (Z.of_nat 100))%Q
      by (apply Qmult_le_0_compat; [assumption | apply of_nat_nonneg]).
    lra.
  - rewrite Ew.
    destruct (div_counts (countWords content) (length g) Lg) as (q & -> & Hq).
    cbn [toFixed3].
    replace (Qltb q 0) with false by (symmetry; apply Qltb_ge; assumption).
    eexists. split; [reflexivity|].
    apply Qfloor_nonneg. lra.
Qed.

Lemma analysis_ratios_defined_witness :
  exists r,
    analysis (str "Hello world API") 100 = Returns (Some r)
    /\ 1 <= gptTokens r
    /\ (exists percent, variance r = of_Z percent /\ (0 <= percent)%Z)
    /\ (exists thousandths,
           wordsPerToken r = Decimal3 thousandths /\ (0 <= thousandths)%Z).
Proof.
  eexists. split; [vm_compute; reflexivity|].
  apply (analysis_ratios_defined (str "Hello world API") 100).
  vm_compute. reflexivity.
Defined.

(** C10 (at least one token): for a text that does not trim to the empty
    string each tokenizer returns at least one token; the analysis result
    is produced, and in every produced result the primary token count is at
    least 1 and the chunk list is not empty. *)
Theorem nonblank_input_tokens (content : jsstring) (chunkSize : Z) :
  trim content <> [] ->
  (exists gpt, approximateTokenize content = Returns gpt /\ 1 <= length gpt)
  /\ (exists claude, approximateClaudeTokenize content = Returns claude /\ 1 <= length claude)
  /\ (exists gemini, approximateGeminiTokenize content = Returns gemini /\ 1 <= length gemini)
  /\ (exists r, analysis content chunkSize = Returns (Some r))
  /\ (forall r, analysis content chunkSize = Returns (Some r) ->
                1 <= gptTokens r /\ analysis_chunks r <> []).
Proof.
  intros Hne.
  destruct (analysis_produced content chunkSize Hne)
    as (g & c & m & infos & r' & Hg & Hc & Hm & Lg & Lc & Lm & _ & Hr & Eg & _ & _ & _ & Ech & _).
  split; [eauto|]. split; [eauto|]. split; [eauto|]. split; [eauto|].
  intros r H. rewrite Hr in H. injection H as <-. split.
  - rewrite Eg. exact Lg.
  - rewrite Ech. apply chunkContent_nonempty.
    destruct g; [simpl in Lg; lia | discriminate].
Qed.

Lemma nonblank_input_tokens_witness :
  trim (str " a ") <> []
  /\ (exists gpt, approximateTokenize (str " a ") = Returns gpt /\ 1 <= length gpt)
  /\ (exists r, analysis (str " a ") 100 = Returns (Some r)).
Proof.
  assert (H : trim (str " a ") <> []) by (vm_compute; discriminate).
  destruct (nonblank_input_tokens (str " a ") 100 H) as (A & _ & _ & B & _).
  repeat split; assumption.
Defined.

(** ** Chunk sizes below 1 *)


Lemma chunk_step_below_one (S : Z) (n i : nat) (tok : token) (st : chunker_state) :
  (S <= 1)%Z -> chunk_step S n i tok st = chunk_step 1 n i tok st.
Proof.
  intros HS. unfold chunk_step.
  assert (L : length (currentChunk st ++ [tok]) = length (currentChunk st) + 1)
    by (rewrite length_app; reflexivity).
  replace (S <=? Z.of_nat (length (currentChunk st ++ [tok])))%Z with true
    by (symmetry; apply Z.leb_le; lia).
  replace (1 <=? Z.of_nat (length (currentChunk st ++ [tok])))%Z with true
    by (symmetry; apply Z.leb_le; lia).
  reflexivity.
Qed.

Lemma chunk_loop_below_one (S : Z) (n : nat) :
  (S <= 1)%Z ->
  forall rest i st, chunk_loop S n i rest st = chunk_loop 1 n i rest st.
Proof.
  intros HS. induction rest as [|tok rest IH]; intros i st; simpl; [reflexivity|].
  now rewrite chunk_step_below_one, IH.
Qed.


Lemma splitParagraphs_nonblank (content p : jsstring) :
  In p (splitParagraphs content) -> trim p <> [].
Proof.
  unfold splitParagraphs. intros H. apply filter_In in H. destruct H as [_ H].
  apply Nat.ltb_lt in H. intros E. rewrite E in H. simpl in H. lia.
Qed.






(** ** The paragraph splitter *)

Module SplitFacts.

Lemma split_loop_skip (sep : regex) :
  forall k s piece,
    k <= length s ->
    split_loop sep k piece s = split_loop sep 0 piece (skipn k s).
Proof.
  induction k as [|k IH]; intros s piece Hk; [reflexivity|].
  destruct s as [|c s]; [simpl in Hk; lia|].
  simpl. apply IH. simpl in Hk. lia.
Qed.

(** The pieces of [split] and the separators between them spell the
    text; the current piece is completed by [p0]. *)
Lemma split_loop_interleave (sep : regex) :
  forall n s piece,
    length s <= n ->
    exists p0 rest seps,
      split_loop sep 0 piece s = (rev piece ++ p0) :: rest
      /\ length seps = length rest
      /\ s = interleave (p0 :: rest) seps
      /\ Forall (separator sep) seps.
Proof.
  induction n as [|n IH]; intros s piece Hn.
  - destruct s; [|simpl in Hn; lia].
    exists [], [], []. simpl. rewrite app_nil_r. auto.
  - destruct s as [|c s'].
    + exists [], [], []. simpl. rewrite app_nil_r. auto.
    + cbn [split_loop].
      destruct (match_length sep (c :: s')) as [[|k]|] eqn:E.
      * destruct (IH s' (c :: piece)) as (p0 & rest & seps & H1 & H2 & H3 & H4);
          [simpl in Hn; lia|].
        exists (c :: p0), rest, seps. rewrite H1. simpl. rewrite <- app_assoc.
        repeat split; auto.
        destruct seps; simpl in *; now rewrite <- H3.
      * pose proof (match_length_bounds _ _ _ E) as [_ Hk]. simpl in Hk.
        rewrite split_loop_skip by lia.
        destruct (IH (skipn k s') []) as (p1 & rest & seps & H1 & H2 & H3 & H4).
        { rewrite length_skipn. simpl in Hn. lia. }
        exists [], (p1 :: rest), (firstn (S k) (c :: s') :: seps).
        rewrite H1, app_nil_r. split; [reflexivity|].
        split; [simpl; now rewrite H2|]. split.
        -- change (interleave ([] :: p1 :: rest) (firstn (S k) (c :: s') :: seps))
             with (firstn (S k) (c :: s') ++ interleave (p1 :: rest) seps).
           rewrite <- H3.
           change (skipn k s') with (skipn (S k) (c :: s')).
           now rewrite firstn_skipn.
        -- constructor; [|assumption].
           exists (c :: s').
           rewrite length_firstn, Nat.min_l by (simpl; lia). auto.
      * destruct (IH s' (c :: piece)) as (p0 & rest & seps & H1 & H2 & H3 & H4);
          [simpl in Hn; lia|].
        exists (c :: p0), rest, seps. rewrite H1. simpl. rewrite <- app_assoc.
        repeat split; auto.
        destruct seps; simpl in *; now rewrite <- H3.
Qed.

Lemma split_interleave (sep : regex) (s : jsstring) :
  exists seps,
    length (split sep s) = S (length seps)
    /\ s = interleave (split sep s) seps
    /\ Forall (separator sep) seps.
Proof.
  destruct (split_loop_interleave sep (length s) s [] (le_n _))
    as (p0 & rest & seps & H1 & H2 & H3 & H4).
  exists seps. unfold split. rewrite H1. simpl. auto.
Qed.

Lemma interleave_In (pieces seps : list jsstring) (p : jsstring) (c : char) :
  In p pieces -> length pieces = S (length seps) -> In c p ->
  In c (interleave pieces seps).
Proof.
  revert seps. induction pieces as [|q pieces IH]; intros seps Hp Hlen Hc.
  - contradiction.
  - simpl. destruct Hp as [->|Hp].
    + destruct seps; [assumption|]. apply in_or_app. now left.
    + destruct seps as [|sp seps].
      * destruct pieces; [contradiction | discriminate].
      * apply in_or_app. right. apply in_or_app. right.
        apply IH; auto.
Qed.

(** A match of a pattern whose items all have the class [c] consists of
    characters of [c]. *)
Lemma run_length_class (c : char -> bool) (s : jsstring) :
  forall bound j, j <= run_length c bound s -> forallb c (firstn j s) = true.
Proof.
  induction s as [|x s IH]; intros bound j Hj.
  - now rewrite firstn_nil.
  - destruct j as [|j]; [reflexivity|].
    simpl in Hj |- *. destruct (c x); [|lia]. simpl.
    destruct bound as [[|b]|]; [lia | apply (IH (Some b) j) | apply (IH None j)]; lia.
Qed.

Lemma firstn_plus (j n : nat) (s : jsstring) :
  firstn (j + n) s = firstn j s ++ firstn n (skipn j s).
Proof.
  revert s. induction j as [|j IH]; intros s; [reflexivity|].
  destruct s as [|x s]; simpl.
  - now rewrite firstn_nil.
  - now rewrite IH.
Qed.

Lemma match_length_class (c : char -> bool) (r : regex) :
  Forall (fun i => cls i = c) r ->
  forall s m, match_length r s = Some m -> forallb c (firstn m s) = true.
Proof.
  induction 1 as [|i r Hi _ IH]; intros s m H; simpl in H.
  - injection H as <-. reflexivity.
  - apply try_down_some in H. destruct H as (j & n & _ & Hj & Hn & ->).
    rewrite firstn_plus, forallb_app. apply andb_true_iff. split.
    + rewrite <- Hi. eapply run_length_class; eauto.
    + now apply IH.
Qed.

Lemma paragraph_separator (sp : jsstring) :
  separator paragraph_break sp -> 2 <= length sp /\ forallb isNewline sp = true.
Proof.
  intros (s & H & E). split.
  - apply match_length_bounds in H. simpl in H. lia.
  - rewrite E. apply (match_length_class isNewline paragraph_break); auto.
    repeat constructor.
Qed.

(** The pattern matches wherever two newlines stand. *)
Lemma paragraph_break_matches (c d : char) (s : jsstring) :
  isNewline c = true -> isNewline d = true ->
  exists k, match_length paragraph_break (c :: d :: s) = Some (S k).
Proof.
  intros Hc Hd. unfold paragraph_break, one, plus.
  cbn [match_length cls lo hi run_length]. rewrite Hc, Hd.
  cbn [try_down Nat.ltb Nat.leb skipn match_length cls lo hi run_length].
  rewrite Hd. simpl. eexists. reflexivity.
Qed.

Lemma has_break_snoc (s : jsstring) (c : char) :
  has_break (s ++ [c]) = has_break s || (ends_with_newline (rev s) && isNewline c).
Proof.
  induction s as [|x s IH]; [reflexivity|].
  destruct s as [|y s].
  - simpl. now rewrite !orb_false_r.
  - change (has_break ((x :: y :: s) ++ [c]))
      with ((isNewline x && isNewline y) || has_break ((y :: s) ++ [c])).
    rewrite IH.
    change (has_break (x :: y :: s))
      with ((isNewline x && isNewline y) || has_break (y :: s)).
    rewrite orb_assoc. f_equal. f_equal.
    change (rev (x :: y :: s)) with (rev (y :: s) ++ [x]).
    destruct (rev (y :: s)) eqn:E; [|reflexivity].
    apply (f_equal (@length _)) in E. rewrite length_rev in E. discriminate.
Qed.

(** No piece of the paragraph split holds two newlines in a row. *)
Lemma split_loop_no_break :
  forall n s piece,
    length s <= n ->
    has_break (rev piece) = false ->
    ends_with_newline piece && starts_with_newline s = false ->
    Forall (fun p => has_break p = false) (split_loop paragraph_break 0 piece s).
Proof.
  induction n as [|n IH]; intros s piece Hn Hp Hb.
  - destruct s; [|simpl in Hn; lia]. simpl. auto.
  - destruct s as [|c s']; [simpl; auto|].
    assert (Keep : match_length paragraph_break (c :: s') = None
                   \/ match_length paragraph_break (c :: s') = Some 0 ->
                   Forall (fun p => has_break p = false)
                          (split_loop paragraph_break 0 (c :: piece) s')).
    { intros Hm. apply IH; [simpl in Hn; lia | |].
      - simpl rev. rewrite has_break_snoc, Hp, rev_involutive. exact Hb.
      - simpl. destruct (isNewline c) eqn:Hc; [|reflexivity].
        destruct s' as [|d s']; [reflexivity|]. simpl.
        destruct (isNewline d) eqn:Hd; [|reflexivity].
        destruct (paragraph_break_matches c d s' Hc Hd) as [k Hk].
        destruct Hm as [Hm|Hm]; rewrite Hm in Hk; discriminate. }
    cbn [split_loop].
    destruct (match_length paragraph_break (c :: s')) as [[|k]|] eqn:E.
    + apply Keep. now right.
    + constructor; [assumption|].
      pose proof (match_length_bounds _ _ _ E) as [_ Hk]. simpl in Hk.
      rewrite split_loop_skip by lia.
      apply IH; [rewrite length_skipn; simpl in Hn; lia | reflexivity | reflexivity].
    + apply Keep. now left.
Qed.

End SplitFacts.

Import SplitFacts.

(** C8, as the specification states it, fails: the paragraphs are not
    trimmed.  The text of one space and the letter a is one paragraph, and
    it keeps its leading space. *)
Lemma paragraphs_not_trimmed :
  ~ (forall text p, In p (splitParagraphs text) -> trim p = p).
Proof.
  intros H.
  assert (E : trim (str " a") = str " a")
    by (apply (H (str " a")); vm_compute; left; reflexivity).
  vm_compute in E. discriminate.
Qed.

Lemma filter_none (f : jsstring -> bool) (l : list jsstring) :
  (forall x, In x l -> f x = false) -> filter f l = [].
Proof.
  intros H. destruct (filter f l) as [|x l'] eqn:E; [reflexivity|].
  assert (Hx : In x (filter f l)) by (rewrite E; now left).
  apply filter_In in Hx. destruct Hx as [Hx Hf].
  rewrite (H x Hx) in Hf. discriminate.
Qed.

(** ** The cut at the newline runs *)

Module CutFacts.

(** The separator pattern takes the whole run of newlines. *)
Lemma paragraph_break_length (s : jsstring) (m : nat) :
  match_length paragraph_break s = Some m -> m = run_length isNewline None s.
Proof.
  destruct s as [|c s']; [discriminate|].
  unfold paragraph_break, one, plus.
  cbn [match_length cls lo hi run_length].
  destruct (isNewline c); [|discriminate].
  replace (run_length isNewline (Some 0) s') with 0 by (destruct s' as [|d s'']; [reflexivity | simpl; now destruct (isNewline d)]).
  cbn [try_down Nat.ltb Nat.leb skipn].
  destruct (run_length isNewline None s') as [|j] eqn:E.
  - cbn [try_down Nat.ltb Nat.leb]. discriminate.
  - cbn [try_down Nat.ltb Nat.leb]. intros H. injection H as <-. lia.
Qed.

Lemma run_stops (s : jsstring) :
  starts_with_newline (skipn (run_length isNewline None s) s) = false.
Proof.
  induction s as [|c s IH]; [reflexivity|].
  simpl. destruct (isNewline c) eqn:E; [exact IH|]. simpl. exact E.
Qed.

Lemma paragraph_break_first (c : char) (s : jsstring) (m : nat) :
  match_length paragraph_break (c :: s) = Some m -> isNewline c = true.
Proof.
  unfold paragraph_break, one, plus. cbn [match_length cls lo hi run_length].
  destruct (isNewline c); [reflexivity | discriminate].
Qed.

Lemma split_loop_cut :
  forall n s piece,
    length s <= n ->
    ends_with_newline piece && starts_with_newline s = false ->
    exists p0 rest seps,
      split_loop paragraph_break 0 piece s = (rev piece ++ p0) :: rest
      /\ length seps = length rest
      /\ s = interleave (p0 :: rest) seps
      /\ Forall newline_run seps
      /\ whole_runs ((rev piece ++ p0) :: rest) seps.
Proof.
  induction n as [|n IH]; intros s piece Hn Hb.
  - destruct s; [|simpl in Hn; lia].
    exists [], [], []. simpl. rewrite app_nil_r. auto.
  - destruct s as [|c s'].
    + exists [], [], []. simpl. rewrite app_nil_r. auto.
    + assert (Keep : match_length paragraph_break (c :: s') = None
                     \/ match_length paragraph_break (c :: s') = Some 0 ->
                     exists p0 rest seps,
                       split_loop paragraph_break 0 (c :: piece) s'
                       = (rev piece ++ p0) :: rest
                       /\ length seps = length rest
                       /\ c :: s' = interleave (p0 :: rest) seps
                       /\ Forall newline_run seps
                       /\ whole_runs ((rev piece ++ p0) :: rest) seps).
      { intros Hm.
        destruct (IH s' (c :: piece)) as (p0 & rest & seps & H1 & H2 & H3 & H4 & H5).
        - simpl in Hn. lia.
        - simpl. destruct (isNewline c) eqn:Hc; [|reflexivity].
          destruct s' as [|d s']; [reflexivity|]. simpl.
          destruct (isNewline d) eqn:Hd; [|reflexivity].
          destruct (paragraph_break_matches c d s' Hc Hd) as [k Hk].
          destruct Hm as [Hm|Hm]; rewrite Hm in Hk; discriminate.
        - exists (c :: p0), rest, seps.
          simpl rev in H1, H5. rewrite <- app_assoc in H1, H5. simpl in H1, H5.
          repeat split; auto.
          destruct seps; simpl in *; now rewrite <- H3. }
      cbn [split_loop].
      destruct (match_length paragraph_break (c :: s')) as [[|k]|] eqn:E.
      * apply Keep. now right.
      * pose proof (match_length_bounds _ _ _ E) as [_ Hk]. simpl in Hk.
        pose proof (paragraph_break_first _ _ _ E) as Hc.
        pose proof (paragraph_break_length _ _ E) as Hrun.
        rewrite split_loop_skip by lia.
        destruct (IH (skipn k s') []) as (p1 & rest & seps & H1 & H2 & H3 & H4 & H5).
        { rewrite length_skipn. simpl in Hn. lia. }
        { reflexivity. }
        exists [], (p1 :: rest), (firstn (S k) (c :: s') :: seps).
        rewrite H1, app_nil_r. split; [reflexivity|].
        split; [simpl; now rewrite H2|]. split; [|split].
        -- change (interleave ([] :: p1 :: rest) (firstn (S k) (c :: s') :: seps))
             with (firstn (S k) (c :: s') ++ interleave (p1 :: rest) seps).
           rewrite <- H3.
           change (skipn k s') with (skipn (S k) (c :: s')).
           now rewrite firstn_skipn.
        -- constructor; [|assumption]. split.
           ++ rewrite length_firstn, Nat.min_l by (simpl; lia).
              pose proof (match_length_bounds _ _ _ E) as [Hmin _]. simpl in Hmin. lia.
           ++ apply (match_length_class isNewline paragraph_break); auto.
              repeat constructor.
        -- cbn [whole_runs]. rewrite rev_involutive.
           split; [|split; [|exact H5]].
           ++ simpl in Hb. rewrite Hc, andb_true_r in Hb. exact Hb.
           ++ rewrite <- H3. change (skipn k s') with (skipn (S k) (c :: s')).
              rewrite Hrun. apply run_stops.
      * apply Keep. now left.
Qed.

(** What [split] returns cuts the text at its newline runs. *)
Lemma split_cut (text : jsstring) :
  exists seps, cut_at_breaks text (split paragraph_break text) seps.
Proof.
  destruct (split_loop_cut (length text) text [] (le_n _) eq_refl)
    as (p0 & rest & seps & H1 & H2 & H3 & H4 & H5).
  exists seps. unfold cut_at_breaks, split. rewrite H1 in *. simpl rev in *.
  cbn [app] in *. repeat split; auto.
  - simpl. now rewrite H2.
  - rewrite <- H1. apply (split_loop_no_break (length text)); auto.
Qed.

(** *** The cut is unique *)

Lemma has_break_two (a b : jsstring) (c d : char) :
  isNewline c = true -> isNewline d = true -> has_break (a ++ c :: d :: b) = true.
Proof.
  intros Hc Hd. induction a as [|x a IH].
  - simpl. now rewrite Hc, Hd.
  - change ((x :: a) ++ c :: d :: b) with (x :: (a ++ c :: d :: b)).
    destruct (a ++ c :: d :: b) as [|y l] eqn:E; [destruct a; discriminate|].
    change (has_break (x :: y :: l))
      with ((isNewline x && isNewline y) || has_break (y :: l)).
    rewrite IH. apply orb_true_r.
Qed.

Lemma newline_run_two (sp : jsstring) :
  newline_run sp ->
  exists c d sp', sp = c :: d :: sp' /\ isNewline c = true /\ isNewline d = true.
Proof.
  intros [L A]. destruct sp as [|c [|d sp']]; simpl in L; try lia.
  simpl in A. apply andb_true_iff in A. destruct A as [Hc A].
  apply andb_true_iff in A. destruct A as [Hd _]. exists c, d, sp'. auto.
Qed.

Lemma ends_with_newline_snoc (a : jsstring) (c : char) :
  ends_with_newline (rev (a ++ [c])) = isNewline c.
Proof. rewrite rev_app_distr. reflexivity. Qed.

(** The first piece is what stands in front of the first run. *)
Lemma first_piece_unique (p p' sp sp' r r' : jsstring) :
  p ++ sp ++ r = p' ++ sp' ++ r' ->
  newline_run sp' ->
  has_break p = false -> ends_with_newline (rev p) = false ->
  exists l, p' = p ++ l.
Proof.
  intros E Hsp' Hb He.
  apply app_eq_app in E. destruct E as [l [[-> E]|[-> E]]].
  - destruct l as [|c l]; [exists []; now rewrite !app_nil_r|]. exfalso.
    destruct (newline_run_two _ Hsp') as (c' & d' & sp'' & -> & Hc & Hd).
    simpl in E. injection E as <- E.
    destruct l as [|d l].
    + rewrite ends_with_newline_snoc in He. congruence.
    + injection E as <- E.
      rewrite (has_break_two p' l c' d' Hc Hd) in Hb. discriminate.
  - now exists l.
Qed.

Lemma run_prefix_unique (sp sp' r r' : jsstring) :
  sp ++ r = sp' ++ r' ->
  forallb isNewline sp = true -> forallb isNewline sp' = true ->
  starts_with_newline r = false -> starts_with_newline r' = false ->
  sp = sp' /\ r = r'.
Proof.
  revert sp'. induction sp as [|c sp IH]; intros sp' E A A' B B'.
  - destruct sp' as [|c' sp']; [auto|]. exfalso.
    simpl in E, A'. subst r. simpl in B. apply andb_true_iff in A'. destruct A'. congruence.
  - destruct sp' as [|c' sp'].
    + exfalso. simpl in E, A. subst r'. simpl in B'.
      apply andb_true_iff in A. destruct A. congruence.
    + simpl in E, A, A'. injection E as <- E.
      apply andb_true_iff in A. apply andb_true_iff in A'.
      destruct (IH sp' E) as [-> ->]; tauto.
Qed.

Lemma cut_unique :
  forall pieces text seps pieces' seps',
    cut_at_breaks text pieces seps -> cut_at_breaks text pieces' seps' ->
    pieces' = pieces /\ seps' = seps.
Proof.
  induction pieces as [|p pieces IH];
    intros text seps pieces' seps' (L & T & R & B & W) (L' & T' & R' & B' & W').
  - discriminate.
  - destruct pieces' as [|p' pieces']; [discriminate|].
    pose proof (Forall_inv B) as Hb. pose proof (Forall_inv_tail B) as Bt.
    pose proof (Forall_inv B') as Hb'. pose proof (Forall_inv_tail B') as Bt'.
    destruct seps as [|sp seps]; destruct seps' as [|sp' seps'].
    + destruct pieces; [|discriminate]. destruct pieces'; [|discriminate].
      simpl in T, T'. split; [|reflexivity]. congruence.
    + exfalso. destruct pieces; [|discriminate]. simpl in T, T'.
      destruct (newline_run_two _ (Forall_inv R')) as (c & d & sp'' & -> & Hc & Hd).
      rewrite <- T, T' in Hb. simpl in Hb.
      rewrite (has_break_two p' _ c d Hc Hd) in Hb. discriminate.
    + exfalso. destruct pieces'; [|discriminate]. simpl in T, T'.
      destruct (newline_run_two _ (Forall_inv R)) as (c & d & sp'' & -> & Hc & Hd).
      rewrite <- T', T in Hb'. simpl in Hb'.
      rewrite (has_break_two p _ c d Hc Hd) in Hb'. discriminate.
    + simpl in T, T'. rewrite T in T'.
      pose proof (Forall_inv R) as Hsp. pose proof (Forall_inv_tail R) as Rt.
      pose proof (Forall_inv R') as Hsp'. pose proof (Forall_inv_tail R') as Rt'.
      cbn [whole_runs] in W, W'.
      destruct W as (We & Ws & Wt). destruct W' as (We' & Ws' & Wt').
      destruct (first_piece_unique _ _ _ _ _ _ T' Hsp' Hb We) as [l El].
      destruct (first_piece_unique _ _ _ _ _ _ (eq_sym T') Hsp Hb' We') as [l' El'].
      assert (Ep : p' = p).
      { rewrite El in El'. rewrite <- app_assoc in El'.
        rewrite <- (app_nil_r p) in El' at 1. apply app_inv_head in El'.
        symmetry in El'. apply app_eq_nil in El'. destruct El' as [El' _].
        rewrite El' in El. now rewrite app_nil_r in El. }
      rewrite Ep in *. apply app_inv_head in T'.
      destruct Hsp as [_ A]. destruct Hsp' as [_ A'].
      destruct (run_prefix_unique _ _ _ _ T' A A' Ws Ws') as [Es Er].
      destruct (IH (interleave pieces seps) seps pieces' seps') as [Ep' Es'].
      * repeat split; auto; simpl in L; lia.
      * repeat split; auto; simpl in L'; lia.
      * split; congruence.
Qed.

Lemma nonblank_trim (p : jsstring) :
  (0 <? length (trim p)) = negb (forallb isSpace p).
Proof.
  destruct (forallb isSpace p) eqn:E.
  - apply trim_nil_iff in E. now rewrite E.
  - destruct (trim p) eqn:T; [|reflexivity].
    apply trim_nil_iff in T. congruence.
Qed.

End CutFacts.

Import CutFacts.

(** C8 (amended): [splitParagraphs] cuts the text at its runs of two or
    more newlines.  The pieces and the runs between them spell the text in
    order; every separator is a whole run of at least two newlines (the
    piece in front of it does not end in a newline, the text behind it
    does not start with one); no piece holds two newlines in a row; and
    there is no other such cut of the text.  The paragraphs are the pieces
    that are not white space only, in order and as they stand, not
    trimmed.  A text that is empty or white space only has no
    paragraphs. *)
Theorem splitParagraphs_spec (text : jsstring) :
  exists pieces seps,
    cut_at_breaks text pieces seps
    /\ (forall pieces' seps',
          cut_at_breaks text pieces' seps' -> pieces' = pieces /\ seps' = seps)
    /\ splitParagraphs text = filter (fun p => negb (forallb isSpace p)) pieces
    /\ Forall (fun p => trim p <> []) (splitParagraphs text)
    /\ (if forallb isSpace text then splitParagraphs text = [] else True).
Proof.
  destruct (split_cut text) as (seps & C).
  exists (split paragraph_break text), seps.
  split; [exact C|]. split; [|split; [|split]].
  - intros pieces' seps' C'. exact (cut_unique _ _ _ _ _ C C').
  - unfold splitParagraphs. apply filter_ext. intros p. apply nonblank_trim.
  - apply Forall_forall. intros p Hp. eapply splitParagraphs_nonblank; eauto.
  - destruct (forallb isSpace text) eqn:B; [|exact I].
    destruct C as (Hlen & Htext & _).
    unfold splitParagraphs. apply filter_none. intros p Hp.
    assert (Hblank : forallb isSpace p = true).
    { apply forallb_forall. intros c Hc.
      rewrite forallb_forall in B. apply B.
      rewrite Htext. eapply interleave_In; eauto. }
    apply trim_nil_iff in Hblank. now rewrite Hblank.
Qed.

Lemma splitParagraphs_spec_witness :
  splitParagraphs (str "a" ++ [10; 10; 10]%N ++ str "b") = [str "a"; str "b"].
Proof.
  destruct (splitParagraphs_spec (str "a" ++ [10; 10; 10]%N ++ str "b"))
    as (pieces & seps & _ & U & F & _).
  assert (C : cut_at_breaks (str "a" ++ [10; 10; 10]%N ++ str "b")
                [str "a"; str "b"] [[10; 10; 10]%N]).
  { unfold cut_at_breaks. split; [reflexivity|]. split; [reflexivity|].
    split; [|split].
    - constructor; [|constructor]. split; [simpl; lia | reflexivity].
    - constructor; [reflexivity|]. constructor; [reflexivity | constructor].
    - simpl. auto. }
  destruct (U _ _ C) as [E _]. rewrite F, <- E. reflexivity.
Defined.

(** ** The entity extractor *)

(** White space lies below the digits, letters and punctuation, is the
    space itself, or lies above them. *)
Lemma space_cases (c : char) : isSpace c = true -> (c <= 13 \/ c = 32 \/ 160 <= c)%N.
Proof.
  unfold isSpace, in_range, one_of. cbn [existsb]. intros H.
  rewrite orb_false_r in H.
  rewrite !orb_true_iff, !andb_true_iff, !N.eqb_eq, !N.leb_le in H. lia.
Qed.

Lemma space_not_upper (c : char) : isSpace c = true -> isUpper c = false.
Proof.
  intros H. apply space_cases in H. unfold isUpper, in_range.
  destruct (N.leb_spec 65 c) as [L|L]; [|reflexivity].
  destruct (N.leb_spec c 90) as [U|U]; [|reflexivity].
  lia.
Qed.

Lemma behind_sentence_spaces (ws : jsstring) (c : char) (a : jsstring) :
  forallb isSpace ws = true -> isSentenceEnd c = true ->
  behind_sentence true (ws ++ c :: a) = true.
Proof.
  intros Hws Hc. induction ws as [|w ws IH]; simpl.
  - now rewrite Hc.
  - simpl in Hws. apply andb_true_iff in Hws. destruct Hws as [Hw Hws].
    rewrite Hw, (space_not_upper w Hw), (IH Hws). simpl. apply orb_true_r.
Qed.

(** [behind_sentence] decides the first alternative of the look-behind;
    [space] stands for a white-space character already passed. *)
Lemma behind_sentence_general (before : jsstring) :
  forall space,
    behind_sentence space before = true
    <-> exists rest ws c a,
          before = rest ++ ws ++ c :: a
          /\ forallb (fun x => negb (isUpper x)) rest = true
          /\ forallb isSpace ws = true
          /\ isSentenceEnd c = true
          /\ (ws = [] -> rest = [] /\ space = true).
Proof.
  induction before as [|x before IH]; intros space.
  - simpl. split; [discriminate|].
    intros (rest & ws & c & a & E & _). destruct rest, ws; discriminate.
  - simpl. split.
    + intros H. apply orb_true_iff in H. destruct H as [H|H].
      * apply andb_true_iff in H. destruct H as [Hx Hs].
        exists [], [], x, before. repeat (split; [solve [auto]|]). auto.
      * apply andb_true_iff in H. destruct H as [Hx H].
        apply IH in H. destruct H as (rest & ws & c & a & E & Hr & Hw & Hc & Hn).
        destruct ws as [|w ws].
        -- destruct (Hn eq_refl) as [-> Hsp].
           exists [], [x], c, a. simpl in *. rewrite Hsp, E.
           repeat (split; [solve [auto]|]). discriminate.
        -- exists (x :: rest), (w :: ws), c, a. simpl. rewrite Hx, E.
           repeat (split; [solve [auto]|]). discriminate.
    + intros (rest & ws & c & a & E & Hr & Hw & Hc & Hn).
      destruct rest as [|r rest].
      * destruct ws as [|w ws].
        -- destruct (Hn eq_refl) as [_ ->]. simpl in E. injection E as -> ->.
           now rewrite Hc.
        -- simpl in E. injection E as -> ->.
           simpl in Hw. apply andb_true_iff in Hw. destruct Hw as [Hw Hws].
           rewrite Hw, (space_not_upper w Hw), behind_sentence_spaces by assumption.
           simpl. apply orb_true_r.
      * simpl in E. injection E as -> ->.
        simpl in Hr. apply andb_true_iff in Hr. destruct Hr as [Hx Hr].
        rewrite Hx. simpl. apply orb_true_iff. right.
        apply IH. exists rest, ws, c, a.
        repeat (split; [solve [auto]|]).
        intros ->. destruct (Hn eq_refl) as [? _]. discriminate.
Qed.

Lemma behind_sentence_spec (before : jsstring) :
  behind_sentence false before = true <-> matches_behind_sentence before.
Proof.
  rewrite behind_sentence_general. unfold matches_behind_sentence. split.
  - intros (rest & ws & c & a & E & Hr & Hw & Hc & Hn).
    exists rest, ws, c, a. repeat (split; [solve [auto]|]).
    split; [|auto].
    intros ->. destruct (Hn eq_refl) as [_ ?]. discriminate.
  - intros (rest & ws & c & a & E & Hr & Hne & Hw & Hc).
    exists rest, ws, c, a. repeat (split; [solve [auto]|]).
    intros ->. contradiction.
Qed.

(** The look-behind holds at the start of the text and right after a
    sentence end followed by white space: both alternatives let the run of
    non-capitals be empty. *)
Lemma lookbehind_sentence_start (c w : char) (before : jsstring) :
  lookbehind [] = true
  /\ (isSentenceEnd c = true -> isSpace w = true -> isUpper w = false ->
      lookbehind (w :: c :: before) = true).
Proof.
  split; [reflexivity|].
  intros Hc Hw Hu. unfold lookbehind. simpl.
  rewrite Hc, Hw, Hu. simpl. now rewrite !orb_true_r.
Qed.

Lemma star_length_le (r : regex) :
  forall fuel s, star_length fuel r s <= length s.
Proof.
  induction fuel as [|fuel IH]; intros s; cbn [star_length]; [lia|].
  destruct (match_length r s) as [[|n]|] eqn:E; try lia.
  apply match_length_bounds in E. destruct E as [_ E].
  specialize (IH (skipn (S n) s)). rewrite length_skipn in IH. lia.
Qed.

(** A text that starts with a capitalized word of more than two
    characters has that word, at offset 0, as the start of its first
    capitalized-phrase entity. *)
Lemma first_word_reported (text : jsstring) (n : nat) :
  match_length capitalized_word text = Some n -> 2 < n ->
  exists e es,
    capitalizedPhrases text = e :: es
    /\ position e = 0
    /\ firstn n (entity_text e) = firstn n text.
Proof.
  intros Hm Hn.
  pose proof (match_length_bounds _ _ _ Hm) as [_ Hlen].
  destruct text as [|c text]; [simpl in Hlen; lia|].
  unfold capitalizedPhrases, matchAll. cbn [matchAll_loop].
  unfold phrase_matcher at 1. cbn [lookbehind behind_sentence behind_start forallb orb].
  rewrite Hm.
  pose proof (star_length_le next_capitalized_word (length (c :: text))
                (skipn n (c :: text))) as Hstar.
  rewrite length_skipn in Hstar.
  destruct (n + star_length (length (c :: text)) next_capitalized_word
                  (skipn n (c :: text))) as [|k] eqn:E; [lia|].
  cbn [flat_map fst snd].
  assert (L : length (firstn (S k) (c :: text)) = S k)
    by (rewrite length_firstn; lia).
  rewrite L.
  replace (2 <? S k) with true by (symmetry; apply Nat.ltb_lt; lia).
  eexists. eexists. split; [reflexivity|]. split; [reflexivity|].
  cbn [entity_text]. rewrite firstn_firstn. f_equal. lia.
Qed.

(** C4: the capitalized-phrase pass does report the capitalized word that
    merely starts a sentence.  The first word of a document is extracted
    at offset 0, and so is the first word after a full stop and a space;
    a capitalized name later in the same sentence is not found. *)
Theorem sentence_start_reported :
  capitalizedPhrases (str "Hello world") = [mkEntity (str "Hello") 0]
  /\ extractEntities (str "Hello world") = [mkEntity (str "Hello") 0]
  /\ capitalizedPhrases (str "it works. Then stop") = [mkEntity (str "Then") 10]
  /\ capitalizedPhrases (str "Hello there Jane Smith") = [mkEntity (str "Hello") 0].
Proof.
  repeat split; vm_compute; reflexivity.
Qed.

(** * Further properties *)

(** ** Shape of the tokens *)

Module TokenShape.

Lemma run_length_bound (c : char -> bool) (s : jsstring) :
  forall b, run_length c (Some b) s <= b.
Proof.
  induction s as [|x s IH]; intros b; simpl; [lia|].
  destruct (c x); [|lia]. destruct b as [|b]; [lia|].
  specialize (IH b). lia.
Qed.

Lemma match_length_max (r : regex) :
  forall s m M,
    max_length r = Some M -> match_length r s = Some m -> m <= M.
Proof.
  induction r as [|i r IH]; intros s m M HM H; simpl in *.
  - injection H as <-. lia.
  - destruct (hi i) as [h|] eqn:Hh; [|discriminate].
    destruct (max_length r) as [M'|] eqn:HM'; [|discriminate].
    injection HM as <-.
    apply try_down_some in H. destruct H as (j & n & _ & Hj & Hn & ->).
    pose proof (run_length_bound (cls i) s h).
    specialize (IH _ _ _ eq_refl Hn). lia.
Qed.

(** The characters of a match are in the classes of the pattern. *)
Lemma match_length_within (P : char -> bool) (r : regex) :
  classes_within P r ->
  forall s m, match_length r s = Some m -> forallb P (firstn m s) = true.
Proof.
  induction 1 as [|i r Hi _ IH]; intros s m H; simpl in H.
  - injection H as <-. reflexivity.
  - apply try_down_some in H. destruct H as (j & n & _ & Hj & Hn & ->).
    rewrite firstn_plus, forallb_app. apply andb_true_iff. split.
    + apply forallb_forall. intros x Hx. apply Hi.
      pose proof (run_length_class (cls i) s (hi i) j Hj) as Hc.
      rewrite forallb_forall in Hc. now apply Hc.
    + now apply IH.
Qed.

Lemma tl_firstn (n : nat) (s : jsstring) : tl (firstn (S n) s) = firstn n (tl s).
Proof. destruct s; [simpl; now rewrite firstn_nil | reflexivity]. Qed.

Lemma forallb_firstn (P : char -> bool) (n : nat) (s : jsstring) :
  forallb P s = true -> forallb P (firstn n s) = true.
Proof.
  rewrite !forallb_forall. intros H x Hx. apply H.
  rewrite <- (firstn_skipn n s). apply in_or_app. now left.
Qed.

Lemma forallb_skipn (P : char -> bool) (n : nat) (s : jsstring) :
  forallb P s = true -> forallb P (skipn n s) = true.
Proof.
  rewrite !forallb_forall. intros H x Hx. apply H.
  rewrite <- (firstn_skipn n s). apply in_or_app. now right.
Qed.

Lemma forallb_tl (P : char -> bool) (s : jsstring) :
  forallb P s = true -> forallb P (tl s) = true.
Proof.
  destruct s; simpl; [auto|]. intros H. now apply andb_true_iff in H.
Qed.

(** A match of a [capital_first_pattern] holds capitals in first place
    only. *)
Lemma match_capital_first (r : regex) (s w : jsstring) :
  capital_first_pattern r -> exec r s = Some w -> capital_only_first w = true.
Proof.
  unfold exec. destruct (match_length r s) as [m|] eqn:E; [|discriminate].
  intros Hr H. injection H as <-. unfold capital_only_first.
  destruct r as [|i r']; simpl in E.
  - injection E as <-. reflexivity.
  - destruct Hr as [[Hone|Hall] Hrest].
    + apply try_down_some in E. destruct E as (j & n & _ & Hj & Hn & ->).
      rewrite Hone in Hj. pose proof (run_length_bound (cls i) s 1).
      pose proof (match_length_within notUpper r' Hrest _ _ Hn) as Hw.
      destruct j as [|[|j]]; [| |lia].
      * simpl. now apply forallb_tl.
      * change (1 + n) with (S n). rewrite tl_firstn.
        destruct s as [|x s]; [now rewrite firstn_nil|]. exact Hw.
    + apply forallb_tl.
      apply (match_length_within notUpper (i :: r')); [|exact E].
      inversion Hall; subst. constructor; assumption.
Qed.

Lemma first_match_In (ps : list regex) (s w : jsstring) :
  first_match ps s = Some w -> exists r, In r ps /\ exec r s = Some w.
Proof.
  induction ps as [|p ps IH]; simpl; [discriminate|].
  destruct (exec p s) as [w'|] eqn:E.
  - intros H. injection H as ->. exists p. auto.
  - intros H. destruct (IH H) as (r & Hr & Hw). exists r. auto.
Qed.

Lemma lower_not_upper (c : char) : isLower c = true -> notUpper c = true.
Proof.
  unfold notUpper, isLower, isUpper, in_range. intros H.
  destruct (N.leb_spec 97 c), (N.leb_spec c 122); try discriminate.
  destruct (N.leb_spec 65 c), (N.leb_spec c 90); try reflexivity. lia.
Qed.

Lemma digit_not_upper (c : char) : isDigit c = true -> notUpper c = true.
Proof.
  unfold notUpper, isDigit, isUpper, in_range. intros H.
  destruct (N.leb_spec 48 c), (N.leb_spec c 57); try discriminate.
  destruct (N.leb_spec 65 c), (N.leb_spec c 90); try reflexivity. lia.
Qed.

Lemma space_notUpper (c : char) : isSpace c = true -> notUpper c = true.
Proof. intros H. unfold notUpper. now rewrite (space_not_upper c H). Qed.

Lemma within_one (P c : char -> bool) (lo : nat) (hi : option nat) :
  (forall x, c x = true -> P x = true) -> classes_within P [Item c lo hi].
Proof. intros H. constructor; [exact H | constructor]. Qed.

Lemma gpt_patterns_capital_first : Forall capital_first_pattern gpt_patterns.
Proof.
  unfold gpt_patterns, one, plus.
  repeat apply Forall_cons; try apply Forall_nil;
    (split;
     [ first [ left; reflexivity
             | right; apply within_one;
               auto using lower_not_upper, digit_not_upper, space_notUpper ]
     | repeat apply Forall_cons; try apply Forall_nil;
       simpl; auto using lower_not_upper ]).
Qed.

End TokenShape.

Import TokenShape.

Module TokenizerShape.

Import TokenShape.

Section LoopForall.

Variable patterns : list regex.
Variable push : jsstring -> list token.
Variable P : token -> Prop.

Hypothesis fallback_ok : forall c, P [c].
Hypothesis push_ok :
  forall remaining word, first_match patterns remaining = Some word -> Forall P (push word).

Lemma tokenize_loop_Forall :
  forall fuel remaining tokens result,
    Forall P tokens ->
    tokenize_loop patterns push fuel remaining tokens = Returns result ->
    Forall P result.
Proof.
  induction fuel as [|fuel IH]; intros remaining tokens result Hacc H.
  - destruct remaining; simpl in H; [|discriminate].
    injection H as <-. exact Hacc.
  - destruct remaining as [|c rest]; simpl in H.
    + injection H as <-. exact Hacc.
    + destruct (first_match patterns (c :: rest)) as [word|] eqn:E.
      * eapply IH; [|exact H]. apply Forall_app. split; [exact Hacc|].
        eapply push_ok; eauto.
      * eapply IH; [|exact H]. apply Forall_app. split; [exact Hacc|].
        constructor; [apply fallback_ok | constructor].
Qed.

Lemma tokenize_Forall (text : jsstring) (result : list token) :
  tokenize patterns push text = Returns result -> Forall P result.
Proof.
  unfold tokenize. destruct text as [|c text].
  - intros H. injection H as <-. constructor.
  - apply tokenize_loop_Forall. constructor.
Qed.

End LoopForall.

(** The pieces of the 4-character split. *)
Lemma split4_loop_pieces (word : jsstring) :
  capital_only_first word = true ->
  forall fuel i,
    Forall (fun p => 1 <= length p <= 4 /\ capital_only_first p = true)
           (split4_loop fuel i word).
Proof.
  intros Hw. induction fuel as [|fuel IH]; intros i; simpl; [constructor|].
  destruct (i <? length word) eqn:E; [|constructor].
  apply Nat.ltb_lt in E. constructor; [|apply IH].
  unfold slice. split.
  - rewrite length_firstn, length_skipn. lia.
  - unfold capital_only_first in *.
    destruct i as [|i].
    + simpl skipn. destruct (Nat.min (0 + 4) (length word) - 0) as [|k]; [reflexivity|].
      rewrite tl_firstn. now apply forallb_firstn.
    + apply forallb_tl, forallb_firstn.
      destruct word as [|x word]; [reflexivity|].
      simpl skipn. simpl in Hw. now apply forallb_skipn.
Qed.

Lemma gpt_push_shape (remaining word : jsstring) :
  first_match gpt_patterns remaining = Some word -> Forall gpt_token (gpt_push word).
Proof.
  intros H.
  pose proof (first_match_prefix _ _ _ gpt_patterns_progress H) as [_ Hlen].
  destruct (first_match_In _ _ _ H) as (r & Hr & Hexec).
  assert (Hcap : capital_only_first word = true).
  { pose proof gpt_patterns_capital_first as F. rewrite Forall_forall in F.
    eapply match_capital_first; eauto. }
  unfold gpt_push.
  destruct ((4 <? length word) && test_all isAlpha word) eqn:E.
  - eapply Forall_impl; [|apply split4_loop_pieces; exact Hcap].
    intros p [Hp Hc]. repeat split; auto; lia.
  - constructor; [|constructor]. repeat split; auto.
    intros Halpha. apply andb_false_iff in E. destruct E as [E|E].
    + apply Nat.ltb_ge in E. exact E.
    + destruct word; [simpl in Hlen; lia|].
      cbv beta iota delta [test_all] in E. congruence.
Qed.

Lemma gpt_tokens_shape (text : jsstring) (toks : list token) :
  approximateTokenize text = Returns toks -> Forall gpt_token toks.
Proof.
  apply (tokenize_Forall gpt_patterns gpt_push gpt_token).
  - intros c. repeat split; simpl; auto; lia.
  - apply gpt_push_shape.
Qed.

Lemma space_not_alpha (c : char) : isSpace c = true -> negb (isAlpha c) = true.
Proof.
  intros H. unfold isAlpha. rewrite (space_not_upper c H). simpl.
  apply space_cases in H. unfold isLower, in_range.
  destruct (N.leb_spec 97 c) as [L|L]; [|reflexivity].
  destruct (N.leb_spec c 122) as [U|U]; [|reflexivity].
  lia.
Qed.

Lemma digit_not_alpha (c : char) : isDigit c = true -> negb (isAlpha c) = true.
Proof.
  unfold isDigit, isAlpha, isUpper, isLower, in_range. intros H.
  destruct (N.leb_spec 48 c), (N.leb_spec c 57); try discriminate.
  destruct (N.leb_spec 65 c), (N.leb_spec c 90), (N.leb_spec 97 c), (N.leb_spec c 122);
    try reflexivity; lia.
Qed.

(** A match of a [bounded_or_outside] pattern that starts in [P] is
    short. *)
Lemma match_bounded (bound : nat) (P : char -> bool) (r : regex) (s w : jsstring) :
  bounded_or_outside bound P r -> exec r s = Some w ->
  starts_with P w = true -> length w <= bound.
Proof.
  unfold exec. destruct (match_length r s) as [m|] eqn:E; [|discriminate].
  intros Hr H Hs. injection H as <-.
  pose proof (match_length_bounds _ _ _ E) as [_ Hm].
  rewrite length_firstn, Nat.min_l by assumption.
  destruct Hr as [(M & HM & Hle)|Hout].
  - pose proof (match_length_max _ _ _ _ HM E). lia.
  - pose proof (match_length_within _ _ Hout _ _ E) as Hw.
    destruct (firstn m s) as [|x t]; [discriminate|].
    simpl in Hs, Hw. rewrite Hs in Hw. discriminate.
Qed.

Lemma claude_patterns_bounded : Forall (bounded_or_outside 6 isAlpha) claude_patterns.
Proof.
  unfold claude_patterns, one, plus, between.
  repeat apply Forall_cons; try apply Forall_nil;
    first [ left; eexists; split; [reflexivity | lia]
          | right; apply within_one; auto using space_not_alpha, digit_not_alpha ].
Qed.

Lemma approximateClaudeTokenize_tokens (text : jsstring) :
  exists toks, approximateClaudeTokenize text = Returns toks /\ Forall claude_token toks.
Proof.
  destruct (approximateClaudeTokenize_spec text) as (toks & H & _).
  exists toks. split; [exact H|].
  eapply (tokenize_Forall claude_patterns (fun w => [w]) claude_token); [| |exact H].
  - intros c. split; simpl; lia.
  - intros remaining word Hm. constructor; [|constructor].
    pose proof (first_match_prefix _ _ _ claude_patterns_progress Hm) as [_ Hlen].
    destruct (first_match_In _ _ _ Hm) as (r & Hr & Hexec).
    split; [exact Hlen|].
    pose proof claude_patterns_bounded as F. rewrite Forall_forall in F.
    eapply match_bounded; eauto.
Qed.

Lemma run_length_head (c : char -> bool) (bound : option nat) (s : jsstring) :
  1 <= run_length c bound s -> starts_with c s = true.
Proof.
  destruct s as [|x s]; simpl; [lia|]. destruct (c x); [reflexivity | lia].
Qed.

Lemma lower_block_not_alpha (c : char) : isLowerBlock c = true -> negb (isAlpha c) = true.
Proof.
  unfold isLowerBlock. intros H. apply N.eqb_eq in H. subst c. reflexivity.
Qed.

Lemma space_not_lower_block (c : char) : isSpace c = true -> negb (isLowerBlock c) = true.
Proof.
  unfold isLowerBlock. intros H. destruct (N.eqb_spec c 9601) as [->|]; [|reflexivity].
  discriminate.
Qed.

Lemma digit_not_lower_block (c : char) : isDigit c = true -> negb (isLowerBlock c) = true.
Proof.
  unfold isLowerBlock. intros H. destruct (N.eqb_spec c 9601) as [->|]; [|reflexivity].
  discriminate.
Qed.

(** The word pattern of the tertiary tokenizer: a match that starts with
    a letter has no marker, hence at most 6 characters. *)
Lemma gemini_word_alpha (s w : jsstring) :
  exec [opt isLowerBlock; between 1 6 isAlpha] s = Some w ->
  starts_with isAlpha w = true -> length w <= 6.
Proof.
  unfold exec.
  destruct (match_length [opt isLowerBlock; between 1 6 isAlpha] s) as [m|] eqn:E;
    [|discriminate].
  intros H Hs. injection H as <-.
  pose proof (match_length_bounds _ _ _ E) as [_ Hm].
  rewrite length_firstn, Nat.min_l by assumption.
  cbn [match_length] in E.
  apply try_down_some in E. destruct E as (j & n & _ & Hj & Hn & ->).
  assert (Hn6 : n <= 6)
    by (apply (match_length_max [between 1 6 isAlpha] (skipn j s) n 6 eq_refl Hn)).
  pose proof (run_length_bound isLowerBlock s 1) as Hb. cbn [opt cls hi] in Hj.
  destruct j as [|j]; [lia|]. exfalso.
  assert (Hhead : starts_with isLowerBlock s = true)
    by (apply (run_length_head isLowerBlock (Some 1)); lia).
  destruct s as [|x s]; [discriminate|]. simpl in Hhead, Hs.
  pose proof (lower_block_not_alpha x Hhead) as Hx. rewrite Hs in Hx. discriminate.
Qed.

Lemma gemini_patterns_bounded :
  Forall (bounded_or_outside 7 isLowerBlock) gemini_patterns.
Proof.
  unfold gemini_patterns, one, plus, between, opt.
  repeat apply Forall_cons; try apply Forall_nil;
    first [ left; eexists; split; [reflexivity | lia]
          | right; apply within_one;
            auto using space_not_lower_block, digit_not_lower_block ].
Qed.

Lemma approximateGeminiTokenize_tokens (text : jsstring) :
  exists toks, approximateGeminiTokenize text = Returns toks /\ Forall gemini_token toks.
Proof.
  destruct (approximateGeminiTokenize_spec text) as (toks & H & _).
  exists toks. split; [exact H|].
  eapply (tokenize_Forall gemini_patterns (fun w => [w]) gemini_token); [| |exact H].
  - intros c. repeat split; simpl; lia.
  - intros remaining word Hm. constructor; [|constructor].
    pose proof (first_match_prefix _ _ _ gemini_patterns_progress Hm) as [_ Hlen].
    destruct (first_match_In _ _ _ Hm) as (r & Hr & Hexec).
    split; [exact Hlen|]. split.
    + intros Hs. unfold gemini_patterns in Hr. simpl in Hr.
      destruct Hr as [<-|[<-|[<-|[<-|[]]]]].
      * eapply gemini_word_alpha; eauto.
      * apply (match_bounded 6 isAlpha [plus isSpace] remaining); auto.
        right. apply within_one. apply space_not_alpha.
      * apply (match_bounded 6 isAlpha [plus isDigit] remaining); auto.
        right. apply within_one. apply digit_not_alpha.
      * apply (match_bounded 6 isAlpha [one isSpecial] remaining); auto.
        left. exists 1. split; [reflexivity | lia].
    + pose proof gemini_patterns_bounded as F. rewrite Forall_forall in F.
      eapply match_bounded; eauto.
Qed.

End TokenizerShape.

Import TokenizerShape.

(** X1 (tokens of the primary tokenizer): on every input the primary
    tokenizer returns tokens that are not empty, that have at most 4
    characters when made of letters only, and in which a capital letter
    stands in first place only; they spell the input. *)
Theorem approximateTokenize_tokens (text : jsstring) :
  exists toks,
    approximateTokenize text = Returns toks
    /\ concat toks = text
    /\ Forall gpt_token toks.
Proof.
  destruct (approximateTokenize_spec text) as (toks & H & Hcat & _).
  exists toks. split; [exact H|]. split; [exact Hcat|].
  eapply gpt_tokens_shape; eauto.
Qed.

(** X2 (tokens of the secondary and tertiary tokenizers): on every input
    both tokenizers return tokens that are not empty; a token of the
    secondary tokenizer that starts with a letter has at most 6
    characters; a token of the tertiary tokenizer has at most 6 characters
    when it starts with a letter and at most 7 when it starts with the
    word-boundary marker. *)
Theorem capped_tokens (text : jsstring) :
  (exists toks, approximateClaudeTokenize text = Returns toks /\ Forall claude_token toks)
  /\ (exists toks, approximateGeminiTokenize text = Returns toks /\ Forall gemini_token toks).
Proof.
  split; [apply approximateClaudeTokenize_tokens | apply approximateGeminiTokenize_tokens].
Qed.

(** ** Entities and their place in the text *)

Module EntityFacts.

Import TokenShape.

(** Every match of [matchAll] is what the matcher finds at its index. *)
Lemma matchAll_loop_spec (matcher : jsstring -> jsstring -> option nat) :
  forall s skip before index m i,
    In (m, i) (matchAll_loop matcher skip before index s) ->
    exists j n,
      i = index + j /\ j < length s
      /\ matcher (rev (firstn j s) ++ before) (skipn j s) = Some n
      /\ m = firstn n (skipn j s).
Proof.
  induction s as [|c s IH]; intros skip before index m i H; [contradiction|].
  assert (Next : forall skip',
             In (m, i) (matchAll_loop matcher skip' (c :: before) (S index) s) ->
             exists j n,
               i = index + j /\ j < length (c :: s)
               /\ matcher (rev (firstn j (c :: s)) ++ before) (skipn j (c :: s)) = Some n
               /\ m = firstn n (skipn j (c :: s))).
  { intros skip' H'. destruct (IH _ _ _ _ _ H') as (j & n & -> & Hj & Hm & ->).
    exists (S j), n. simpl. rewrite <- app_assoc. simpl.
    repeat split; auto; lia. }
  simpl in H. destruct skip as [|k]; [|now apply (Next k)].
  destruct (matcher before (c :: s)) as [[|k]|] eqn:E.
  - destruct H as [H|H]; [|now apply (Next 0)].
    injection H as <- <-. exists 0, 0. simpl. repeat split; auto; lia.
  - destruct H as [H|H]; [|now apply (Next k)].
    injection H as <- <-. exists 0, (S k). simpl. repeat split; auto; lia.
  - now apply (Next 0).
Qed.

Lemma matchAll_spec (matcher : jsstring -> jsstring -> option nat)
    (text m : jsstring) (i : nat) :
  In (m, i) (matchAll matcher text) ->
  exists n,
    i < length text
    /\ matcher (rev (firstn i text)) (skipn i text) = Some n
    /\ m = firstn n (skipn i text).
Proof.
  intros H. destruct (matchAll_loop_spec _ _ _ _ _ _ _ H) as (j & n & -> & Hj & Hm & ->).
  rewrite app_nil_r in Hm. exists n. auto.
Qed.

Lemma matches_in_sequence_weaken (lo up : nat) (ms : list (jsstring * nat)) :
  lo <= up -> matches_in_sequence up ms -> matches_in_sequence lo ms.
Proof.
  destruct ms as [|m ms]; simpl; [auto|].
  intros Hle [H1 H2]. split; [lia | exact H2].
Qed.

(** The matches of [matchAll] come in the order of the text and do not
    overlap. *)
Lemma matchAll_loop_sequence (matcher : jsstring -> jsstring -> option nat) :
  forall s skip before index,
    matches_in_sequence (index + skip) (matchAll_loop matcher skip before index s).
Proof.
  induction s as [|c s IH]; intros skip before index; [exact I|].
  cbn [matchAll_loop]. destruct skip as [|k].
  - destruct (matcher before (c :: s)) as [[|k]|] eqn:E.
    + cbn [matches_in_sequence fst snd]. split; [lia|].
      apply (matches_in_sequence_weaken _ (S index + 0)); [simpl; lia | apply IH].
    + cbn [matches_in_sequence fst snd]. split; [lia|].
      pose proof (firstn_le_length (S k) (c :: s)) as Hle.
      apply (matches_in_sequence_weaken _ (S index + k)); [lia | apply IH].
    + apply (matches_in_sequence_weaken _ (S index + 0)); [lia | apply IH].
  - replace (index + S k) with (S index + k) by lia. apply IH.
Qed.

(** The capitalized-phrase pattern matches at a capital letter and takes
    at least two characters, all within the text. *)
Lemma phrase_matcher_spec (before s : jsstring) (n : nat) :
  phrase_matcher before s = Some n ->
  2 <= n <= length s /\ starts_with isUpper s = true.
Proof.
  unfold phrase_matcher. destruct (lookbehind before); [|discriminate].
  destruct (match_length capitalized_word s) as [n1|] eqn:E; [|discriminate].
  intros H. injection H as <-.
  pose proof (match_length_bounds _ _ _ E) as [Hmin Hmax]. simpl in Hmin.
  pose proof (star_length_le next_capitalized_word (length s) (skipn n1 s)) as Hstar.
  rewrite length_skipn in Hstar. split; [lia|].
  cbn [capitalized_word match_length] in E.
  apply try_down_some in E. destruct E as (j & m & Hlo & Hj & _).
  apply (run_length_head isUpper (Some 1)). simpl in Hlo. cbn [one cls hi] in Hj. lia.
Qed.

(** The acronym pattern matches two or more capital letters. *)
Lemma acronym_matcher_spec (before s : jsstring) (n : nat) :
  acronym_matcher before s = Some n ->
  2 <= n <= length s /\ forallb isUpper (firstn n s) = true.
Proof.
  unfold acronym_matcher.
  destruct (word_boundary (hd_error before) (hd_error s)); [|discriminate].
  intros H. apply try_down_some in H. destruct H as (j & m & Hlo & Hj & Hm & ->).
  destruct (word_boundary (nth_error s (j - 1)) (nth_error s j)); [|discriminate].
  injection Hm as <-. rewrite Nat.add_0_r.
  pose proof (run_length_le isUpper s None). split; [lia|].
  eapply run_length_class; eauto.
Qed.

Lemma starts_with_firstn (P : char -> bool) (n : nat) (s : jsstring) :
  1 <= n -> starts_with P s = true -> starts_with P (firstn n s) = true.
Proof.
  destruct n as [|n]; [lia|]. destruct s; [discriminate | auto].
Qed.

(** A match of [matchAll] lies in the text at its index. *)
Lemma match_found_at (text w : jsstring) (i n : nat) :
  i <= length text -> n <= length (skipn i text) -> w = firstn n (skipn i text) ->
  found_at text (mkEntity w i) /\ length w = n.
Proof.
  intros Hi Hn ->. unfold found_at. cbn [position entity_text].
  rewrite length_firstn, Nat.min_l by assumption.
  rewrite length_skipn in Hn. repeat split; try reflexivity; lia.
Qed.

Lemma in_sequence_weaken (lo up : nat) (es : list Entity) :
  lo <= up -> in_sequence up es -> in_sequence lo es.
Proof.
  destruct es as [|e es]; simpl; [auto|].
  intros Hle [H1 H2]. split; [lia | exact H2].
Qed.

Lemma acronyms_sequence (lower : nat) (ms : list (jsstring * nat)) :
  matches_in_sequence lower ms ->
  in_sequence lower (map (fun m => mkEntity (fst m) (snd m)) ms).
Proof.
  revert lower. induction ms as [|m ms IH]; intros lower; simpl; [auto|].
  intros [H1 H2]. split; [exact H1 | now apply IH].
Qed.

Lemma phrases_sequence (lower : nat) (ms : list (jsstring * nat)) :
  matches_in_sequence lower ms ->
  in_sequence lower
    (flat_map (fun m => if 2 <? length (fst m) then [mkEntity (fst m) (snd m)] else []) ms).
Proof.
  revert lower. induction ms as [|m ms IH]; intros lower; [auto|].
  intros H. simpl in H. destruct H as [H1 H2]. simpl flat_map.
  match goal with |- context [if ?b then _ else _] => destruct b end.
  - simpl. split; [exact H1 | now apply IH].
  - simpl. eapply in_sequence_weaken; [|apply IH; exact H2]. lia.
Qed.

Lemma hd_error_skipn (i : nat) (s : jsstring) : hd_error (skipn i s) = nth_error s i.
Proof.
  revert s. induction i as [|i IH]; intros [|x s]; simpl; auto.
Qed.

(** An extracted entity starts at a capital letter of the text. *)
Lemma entity_at_capital (text : jsstring) (e : Entity) :
  In e (extractEntities text) ->
  exists c,
    nth_error text (position e) = Some c
    /\ isUpper c = true
    /\ hd_error (entity_text e) = Some c.
Proof.
  assert (G : forall w i n,
             1 <= n -> w = firstn n (skipn i text) ->
             starts_with isUpper (skipn i text) = true ->
             exists c, nth_error text i = Some c /\ isUpper c = true
                       /\ hd_error w = Some c).
  { intros w i n Hn -> Hs. rewrite <- hd_error_skipn.
    destruct (skipn i text) as [|x t]; [discriminate|].
    exists x. destruct n; [lia|]. simpl in *. auto. }
  unfold extractEntities. intros H. apply in_app_or in H. destruct H as [H|H].
  - unfold capitalizedPhrases in H.
    apply in_flat_map in H. destruct H as ([w i] & Hm & He). cbn [fst snd] in He.
    destruct (2 <? length w); [|contradiction]. destruct He as [<-|[]].
    destruct (matchAll_spec _ _ _ _ Hm) as (n & Hi & Hmatch & Hw).
    destruct (phrase_matcher_spec _ _ _ Hmatch) as [Hn Hup].
    apply (G w i n); auto; lia.
  - unfold acronyms in H.
    apply in_map_iff in H. destruct H as ([w i] & <- & Hm). cbn [fst snd position entity_text].
    destruct (matchAll_spec _ _ _ _ Hm) as (n & Hi & Hmatch & Hw).
    destruct (acronym_matcher_spec _ _ _ Hmatch) as [Hn Hup].
    apply (G w i n); auto; [lia|].
    destruct n as [|n]; [lia|].
    destruct (skipn i text) as [|x t]; [simpl in Hn; lia|].
    simpl in Hup |- *. now apply andb_true_iff in Hup.
Qed.

End EntityFacts.

Import EntityFacts.

(** X3 (entities are where they say): every extracted entity lies in the
    text at its recorded offset, that is,
    [text.slice(position, position + length)] is its text, and it starts
    with a capital letter.  It comes from the capitalized-phrase pass with
    at least 3 characters, or from the acronym pass with at least 2
    characters, all of them capital letters. *)
Theorem extracted_entities_found (text : jsstring) (e : Entity) :
  In e (extractEntities text) ->
  found_at text e
  /\ starts_with isUpper (entity_text e) = true
  /\ (In e (capitalizedPhrases text) /\ 3 <= length (entity_text e)
      \/ In e (acronyms text) /\ 2 <= length (entity_text e)
         /\ forallb isUpper (entity_text e) = true).
Proof.
  unfold extractEntities. intros H. apply in_app_or in H. destruct H as [H|H].
  - pose proof H as Hin. unfold capitalizedPhrases in H.
    apply in_flat_map in H. destruct H as ([w i] & Hm & He). cbn [fst snd] in He.
    destruct (2 <? length w) eqn:Hlen; [|contradiction].
    destruct He as [<-|[]]. apply Nat.ltb_lt in Hlen.
    destruct (matchAll_spec _ _ _ _ Hm) as (n & Hi & Hmatch & Hw).
    destruct (phrase_matcher_spec _ _ _ Hmatch) as [Hn Hup].
    destruct (match_found_at text w i n (Nat.lt_le_incl _ _ Hi) (proj2 Hn) Hw) as [Hf Hl].
    split; [exact Hf|]. split.
    + cbn [entity_text]. rewrite Hw. apply starts_with_firstn; [lia | exact Hup].
    + left. split; [exact Hin | cbn [entity_text]; lia].
  - pose proof H as Hin. unfold acronyms in H.
    apply in_map_iff in H. destruct H as ([w i] & <- & Hm). cbn [fst snd].
    destruct (matchAll_spec _ _ _ _ Hm) as (n & Hi & Hmatch & Hw).
    destruct (acronym_matcher_spec _ _ _ Hmatch) as [Hn Hup].
    destruct (match_found_at text w i n (Nat.lt_le_incl _ _ Hi) (proj2 Hn) Hw) as [Hf Hl].
    split; [exact Hf|]. cbn [entity_text]. split.
    + rewrite Hw. destruct n as [|n]; [lia|].
      destruct (skipn i text) as [|x t]; [simpl in Hn; lia|].
      simpl in Hup |- *. now apply andb_true_iff in Hup.
    + right. split; [exact Hin|]. split; [lia|]. now rewrite Hw.
Qed.

Lemma extracted_entities_found_witness :
  In (mkEntity (str "API") 4) (extractEntities (str "the API"))
  /\ found_at (str "the API") (mkEntity (str "API") 4)
  /\ starts_with isUpper (entity_text (mkEntity (str "API") 4)) = true.
Proof.
  assert (H : In (mkEntity (str "API") 4) (extractEntities (str "the API")))
    by (vm_compute; left; reflexivity).
  destruct (extracted_entities_found (str "the API") (mkEntity (str "API") 4) H)
    as (A & B & _).
  split; [exact H|]. split; [exact A | exact B].
Defined.

(** X4 (entities in order): within each of the two passes the entities
    come in the order of the text and do not overlap: each one starts at
    or after the end of the one before. *)
Theorem entities_in_sequence (text : jsstring) :
  in_sequence 0 (capitalizedPhrases text) /\ in_sequence 0 (acronyms text).
Proof.
  split.
  - apply phrases_sequence. apply (matchAll_loop_sequence phrase_matcher text 0 [] 0).
  - apply acronyms_sequence. apply (matchAll_loop_sequence acronym_matcher text 0 [] 0).
Qed.

(** ** From character offsets to token indices *)

Module PositionFacts.

Lemma offset_of_cons (t : token) (toks : list token) (k : nat) :
  offset_of (t :: toks) (S k) = length t + offset_of toks k.
Proof. unfold offset_of. simpl. now rewrite length_app. Qed.

Lemma offset_of_zero (toks : list token) : offset_of toks 0 = 0.
Proof. reflexivity. Qed.

(** What the loop computes from the index [i] and the count [charCount]
    on: the first index whose token starts at or after the position, or 0
    when every token starts in front of it. *)
Lemma tokenPosition_loop_general (entityPosition : nat) :
  forall rest i charCount,
    (exists k,
        tokenPosition_loop entityPosition i charCount rest = i + k
        /\ k < length rest
        /\ entityPosition <= charCount + offset_of rest k
        /\ forall j, j < k -> charCount + offset_of rest j < entityPosition)
    \/ (tokenPosition_loop entityPosition i charCount rest = 0
        /\ forall j, j < length rest -> charCount + offset_of rest j < entityPosition).
Proof.
  induction rest as [|tok rest IH]; intros i charCount.
  - right. split; [reflexivity|]. simpl. intros j Hj. lia.
  - cbn [tokenPosition_loop].
    destruct (entityPosition <=? charCount) eqn:E.
    + apply Nat.leb_le in E. left. exists 0. rewrite offset_of_zero.
      repeat split; simpl; try lia.
    + apply Nat.leb_gt in E.
      destruct (IH (S i) (charCount + length tok)) as [(k & Hr & Hk & Hle & Hlt)|[Hr Hlt]].
      * left. exists (S k). rewrite offset_of_cons.
        repeat split; simpl; try lia.
        intros [|j] Hj; [rewrite offset_of_zero; lia|].
        rewrite offset_of_cons. specialize (Hlt j). lia.
      * right. split; [exact Hr|].
        intros [|j] Hj; [rewrite offset_of_zero; lia|].
        rewrite offset_of_cons. simpl in Hj. specialize (Hlt j). lia.
Qed.

Lemma offset_of_lt (toks : list token) :
  Forall (fun t => 1 <= length t) toks ->
  forall j k, j < k -> k <= length toks -> offset_of toks j < offset_of toks k.
Proof.
  induction 1 as [|t toks Ht _ IH]; intros j k Hjk Hk; [simpl in Hk; lia|].
  destruct k as [|k]; [lia|]. rewrite offset_of_cons.
  destruct j as [|j]; [rewrite offset_of_zero; lia|].
  rewrite offset_of_cons. simpl in Hk. specialize (IH j k). lia.
Qed.

(** A capital letter of the text starts a token of the primary
    tokenizer. *)
Lemma capital_at_boundary (toks : list token) :
  Forall gpt_token toks ->
  forall p c,
    nth_error (concat toks) p = Some c -> isUpper c = true ->
    exists k t,
      nth_error toks k = Some t /\ p = offset_of toks k /\ hd_error t = Some c.
Proof.
  induction 1 as [|t toks Ht _ IH]; intros p c Hp Hc; simpl in Hp.
  - destruct p; discriminate.
  - destruct Ht as (Hlen & _ & Hcap).
    destruct (Nat.lt_ge_cases p (length t)) as [Hlt|Hge].
    + rewrite nth_error_app1 in Hp by assumption.
      destruct t as [|x t']; [simpl in Hlen; lia|].
      destruct p as [|p].
      * exists 0, (x :: t'). simpl in Hp. injection Hp as ->. auto.
      * exfalso. simpl in Hp. unfold capital_only_first in Hcap. simpl in Hcap.
        rewrite forallb_forall in Hcap.
        apply nth_error_In in Hp. specialize (Hcap c Hp).
        unfold notUpper in Hcap. rewrite Hc in Hcap. discriminate.
    + rewrite nth_error_app2 in Hp by assumption.
      destruct (IH _ _ Hp Hc) as (k & t0 & Hk & Hoff & Hhd).
      exists (S k), t0. rewrite offset_of_cons. repeat split; auto. lia.
Qed.

End PositionFacts.

(** ** Quotients of counts *)

Module CountFacts.

Lemma of_Z_nonzero (S : Z) : (1 <= S)%Z -> Qeq_bool (inject_Z S) 0 = false.
Proof.
  intros H. pose proof (inject_Z_pos S H).
  destruct (Qeq_bool (inject_Z S) 0) eqn:E; [|reflexivity].
  apply Qeq_bool_iff in E. lra.
Qed.

Lemma div_finite (n : nat) (S : Z) :
  (1 <= S)%Z ->
  div (of_nat n) (of_Z S) = Fin (inject_Z (Z.of_nat n) / inject_Z S).
Proof.
  intros H. unfold div, of_nat, of_Z. now rewrite of_Z_nonzero.
Qed.

Lemma div_finite_counts (a b : nat) :
  1 <= b ->
  div (of_nat a) (of_nat b) = Fin (inject_Z (Z.of_nat a) / inject_Z (Z.of_nat b)).
Proof.
  intros H. apply (div_finite a (Z.of_nat b)). lia.
Qed.

(** [Math.floor(n / S)] is the integer quotient. *)
Lemma floor_div_counts (n : nat) (S : Z) :
  (1 <= S)%Z -> floor (div (of_nat n) (of_Z S)) = of_Z (Z.of_nat n / S).
Proof.
  intros H. rewrite div_finite by assumption. cbn [floor].
  now rewrite <- Zdiv_Qdiv.
Qed.

Lemma quotient_nonneg (n : nat) (S : Z) :
  (1 <= S)%Z -> (0 <= inject_Z (Z.of_nat n) / inject_Z S)%Q.
Proof.
  intros H. apply Qle_shift_div_l; [now apply inject_Z_pos|].
  pose proof (of_nat_nonneg n). lra.
Qed.

(** [n % S] is the integer remainder. *)
Lemma rem_counts (n : nat) (S : Z) :
  (1 <= S)%Z ->
  exists q, rem (of_nat n) (of_Z S) = Fin q /\ (q == inject_Z (Z.of_nat n mod S))%Q.
Proof.
  intros H. unfold rem, of_nat, of_Z. rewrite of_Z_nonzero by assumption.
  eexists. split; [reflexivity|].
  unfold Qtrunc.
  replace (Qle_bool 0 (inject_Z (Z.of_nat n) / inject_Z S)) with true
    by (symmetry; apply Qle_bool_iff; now apply quotient_nonneg).
  rewrite <- Zdiv_Qdiv, Z.mod_eq by lia.
  unfold Zminus. rewrite inject_Z_plus, inject_Z_opp, inject_Z_mult.
  reflexivity.
Qed.

(** [Math.ceil(n / S)] is the integer ceiling. *)
Lemma ceil_div_counts (n : nat) (S : Z) :
  (1 <= S)%Z -> ceil (div (of_nat n) (of_Z S)) = of_Z (ceil_div (Z.of_nat n) S).
Proof.
  intros H. rewrite div_finite by assumption. cbn [ceil]. f_equal.
  symmetry. apply ceil_div_spec; [lia|].
  pose proof (inject_Z_pos S H) as Hpos.
  set (q := (inject_Z (Z.of_nat n) / inject_Z S)%Q).
  assert (Hq : (inject_Z (Z.of_nat n) == q * inject_Z S)%Q).
  { unfold q. field. lra. }
  pose proof (Qle_ceiling q) as Hle. pose proof (Qceiling_lt q) as Hlt.
  split.
  - rewrite Zlt_Qlt, inject_Z_mult, Hq.
    apply Qmult_lt_compat_r; assumption.
  - rewrite Zle_Qle, inject_Z_mult, Hq.
    apply Qmult_le_compat_r; [assumption | lra].
Qed.

End CountFacts.

Import PositionFacts CountFacts.

(** X5 (offset to token index): the token index that the analysis gives
    an entity is the index of the first token that starts at or after the
    character offset of the entity; when every token starts in front of
    that offset, the index is 0. *)
Theorem tokenPosition_first_at_or_after (entityPosition : nat) (gptTokens : list token) :
  let tokenPosition := tokenPosition_loop entityPosition 0 0 gptTokens in
  (tokenPosition < length gptTokens
   /\ entityPosition <= offset_of gptTokens tokenPosition
   /\ forall j, j < tokenPosition -> offset_of gptTokens j < entityPosition)
  \/ (tokenPosition = 0
      /\ forall j, j < length gptTokens -> offset_of gptTokens j < entityPosition).
Proof.
  cbv zeta.
  destruct (tokenPosition_loop_general entityPosition gptTokens 0 0)
    as [(k & Hr & Hk & Hle & Hlt)|[Hr Hlt]].
  - left. rewrite Hr. simpl. repeat split; auto.
  - right. split; [exact Hr|]. intros j Hj. now apply Hlt.
Qed.

(** X6 (entities sit on token starts): for every extracted entity the
    primary tokenizer has a token that starts exactly at the character
    offset of the entity, with the same first character, and the analysis
    gives the entity the index of that token. *)
Theorem entity_token_exact (content : jsstring) (chunkSize : Z) (e : Entity) :
  In e (extractEntities content) ->
  exists gpt t,
    approximateTokenize content = Returns gpt
    /\ nth_error gpt (tokenPosition (entityInfo gpt chunkSize e)) = Some t
    /\ offset_of gpt (tokenPosition (entityInfo gpt chunkSize e)) = position e
    /\ hd_error t = hd_error (entity_text e).
Proof.
  intros Hin.
  destruct (approximateTokenize_spec content) as (gpt & Hg & Hcat & _).
  pose proof (gpt_tokens_shape content gpt Hg) as Hshape.
  destruct (entity_at_capital content e Hin) as (c & Hc & Hup & Hhd).
  rewrite <- Hcat in Hc.
  destruct (capital_at_boundary gpt Hshape _ _ Hc Hup) as (k & t & Hk & Hoff & Ht).
  assert (Hklen : k < length gpt) by (apply nth_error_Some; congruence).
  assert (Hne : Forall (fun t => 1 <= length t) gpt)
    by (eapply Forall_impl; [|exact Hshape]; intros ? (? & _); assumption).
  exists gpt, t. split; [exact Hg|].
  cbn [entityInfo tokenPosition].
  assert (E : tokenPosition_loop (position e) 0 0 gpt = k).
  { destruct (tokenPosition_loop_general (position e) gpt 0 0)
      as [(k' & Hr & Hk' & Hle & Hlt)|[Hr Hlt]].
    - rewrite Hr. simpl in *.
      destruct (Nat.lt_trichotomy k k') as [L|[L|L]]; [|congruence|].
      + specialize (Hlt k L). lia.
      + pose proof (offset_of_lt gpt Hne k' k L ltac:(lia)). lia.
    - specialize (Hlt k Hklen). simpl in Hlt. lia. }
  rewrite E. repeat split; auto. congruence.
Qed.

Lemma entity_token_exact_witness :
  In (mkEntity (str "API") 4) (extractEntities (str "the API"))
  /\ exists gpt t,
       approximateTokenize (str "the API") = Returns gpt
       /\ nth_error gpt (tokenPosition (entityInfo gpt 100 (mkEntity (str "API") 4))) = Some t
       /\ offset_of gpt (tokenPosition (entityInfo gpt 100 (mkEntity (str "API") 4))) = 4
       /\ hd_error t = hd_error (str "API").
Proof.
  assert (H : In (mkEntity (str "API") 4) (extractEntities (str "the API")))
    by (vm_compute; left; reflexivity).
  split; [exact H|].
  exact (entity_token_exact (str "the API") 100 (mkEntity (str "API") 4) H).
Defined.

Lemma tokenPosition_valid (entityPosition : nat) (gptTokens : list token) :
  gptTokens <> [] ->
  tokenPosition_loop entityPosition 0 0 gptTokens < length gptTokens.
Proof.
  intros Hne.
  destruct (tokenPosition_loop_general entityPosition gptTokens 0 0)
    as [(k & Hr & Hk & _)|[Hr _]]; rewrite Hr; [simpl; lia|].
  destruct gptTokens; [contradiction | simpl; lia].
Qed.

(** X7 (an entity and its chunk): for a chunk size of at least 1 the chunk
    index and the position in the chunk of an entity are the integer
    quotient and remainder of its token index by the chunk size; the chunk
    of that index exists, its token range holds the token of the entity,
    and the position in the chunk counts from the first token of that
    chunk. *)
Theorem entity_in_its_chunk
    (content : jsstring) (gpt : list token) (S : Z) (e : Entity) :
  (1 <= S)%Z -> gpt <> [] ->
  let info := entityInfo gpt S e in
  let k := Z.of_nat (tokenPosition info) in
  chunkIndex info = of_Z (k / S)
  /\ (exists q, positionInChunk info = Fin q /\ (q == inject_Z (k mod S))%Q)
  /\ exists c,
       nth_error (chunkContent content gpt S) (Z.to_nat (k / S)) = Some c
       /\ (startToken c <= k <= endToken c)%Z
       /\ (k - startToken c = k mod S)%Z.
Proof.
  intros HS Hne. cbv zeta. cbn [entityInfo tokenPosition chunkIndex positionInChunk].
  pose proof (tokenPosition_valid (position e) gpt Hne) as Hvalid.
  set (n := tokenPosition_loop (position e) 0 0 gpt) in *.
  split; [now apply floor_div_counts|]. split; [now apply rem_counts|].
  pose proof (chunkContent_chunked content gpt S HS) as H.
  set (cs := chunkContent content gpt S) in *.
  destruct (chunked_shape S gpt cs H)
    as [[_ Hnil]|(front & last & Hcs & Hfront & Hlast & HN)]; [contradiction|].
  pose proof (Z.div_mod (Z.of_nat n) S ltac:(lia)) as Hdm.
  pose proof (Z.mod_pos_bound (Z.of_nat n) S ltac:(lia)) as Hmod.
  assert (Hj0 : (0 <= Z.of_nat n / S)%Z) by (apply Z.div_pos; lia).
  assert (Hlen : length cs = length front + 1)
    by (rewrite Hcs, length_app; reflexivity).
  assert (Hj : Z.to_nat (Z.of_nat n / S) < length cs) by nia.
  destruct (nth_error cs (Z.to_nat (Z.of_nat n / S))) as [c|] eqn:Hc;
    [|apply nth_error_None in Hc; lia].
  exists c. split; [reflexivity|].
  pose proof (out_start _ _ _ H _ _ Hc) as Hstart.
  rewrite Z2Nat.id in Hstart by assumption.
  assert (Hwf : chunk_wf c).
  { pose proof (out_wf _ _ _ H) as W. rewrite Forall_forall in W.
    apply W. eapply nth_error_In; eauto. }
  destruct Hwf as (_ & _ & Hend).
  assert (Hcount : (Z.of_nat n < startToken c + Z.of_nat (tokenCount c))%Z).
  { destruct (Nat.eq_dec (Z.to_nat (Z.of_nat n / S) + 1) (length cs)) as [E|E].
    - assert (c = last).
      { rewrite Hcs in Hc. rewrite nth_error_app2 in Hc by lia.
        replace (Z.to_nat (Z.of_nat n / S) - length front) with 0 in Hc by lia.
        simpl in Hc. congruence. }
      subst c. nia.
    - rewrite (out_full _ _ _ H _ _ Hc) by lia. nia. }
  repeat split; nia.
Qed.

Lemma entity_in_its_chunk_witness :
  (1 <= 2)%Z /\ [str "the"; str " "; str "A"; str "P"; str "I"] <> []
  /\ chunkIndex (entityInfo [str "the"; str " "; str "A"; str "P"; str "I"] 2
                   (mkEntity (str "API") 4)) = of_Z 1.
Proof.
  assert (H1 : (1 <= 2)%Z) by lia.
  assert (H2 : [str "the"; str " "; str "A"; str "P"; str "I"] <> []) by discriminate.
  split; [exact H1|]. split; [exact H2|].
  exact (proj1 (entity_in_its_chunk (str "the API")
                  [str "the"; str " "; str "A"; str "P"; str "I"] 2
                  (mkEntity (str "API") 4) H1 H2)).
Defined.

(** ** Attention by relative position *)

(** X8 (range of the attention score): for a position between 0 and the
    chunk size, the chunk size positive, the attention score is a number
    between 0.55 and 0.95. *)
Theorem attention_score_range (p s : Q) :
  (0 < s)%Q -> (0 <= p)%Q -> (p <= s)%Q ->
  exists score,
    getAttentionScore (Fin p) (Fin s) = Fin score /\ (0.55 <= score <= 0.95)%Q.
Proof.
  intros Hs Hp Hps. rewrite getAttentionScore_finite by assumption.
  eexists. split; [reflexivity|].
  apply branch_score_range, binary64_unit, relative_position; assumption.
Qed.

Lemma attention_score_range_witness :
  (0 < 100)%Q /\ (0 <= 50)%Q /\ (50 <= 100)%Q
  /\ exists score,
       getAttentionScore (Fin 50) (Fin 100) = Fin score /\ (0.55 <= score <= 0.95)%Q.
Proof.
  assert (H1 : (0 < 100)%Q) by reflexivity.
  assert (H2 : (0 <= 50)%Q) by (vm_compute; discriminate).
  assert (H3 : (50 <= 100)%Q) by (vm_compute; discriminate).
  split; [exact H1|]. split; [exact H2|]. split; [exact H3|].
  exact (attention_score_range 50 100 H1 H2 H3).
Defined.

(** X9 (the low-attention zone): for a chunk size [S] of at least 1 and
    below 2^32 an entity is flagged as low attention exactly when its
    position [m] in the chunk lies strictly between one sixth and five
    sixths of the chunk size. *)
Theorem low_attention_zone (gpt : list token) (S : Z) (e : Entity) :
  (1 <= S < 2 ^ 32)%Z ->
  let m := (Z.of_nat (tokenPosition (entityInfo gpt S e)) mod S)%Z in
  isLowAttention (entityInfo gpt S e) = true <-> (S < 6 * m /\ 6 * m < 5 * S)%Z.
Proof.
  intros HS. cbv zeta. cbn [entityInfo tokenPosition isLowAttention].
  set (n := tokenPosition_loop (position e) 0 0 gpt).
  destruct (rem_counts n S ltac:(lia)) as (q & -> & Hq).
  pose proof (inject_Z_pos S ltac:(lia)) as Hpos.
  set (m := (Z.of_nat n mod S)%Z) in *.
  assert (Hm : (0 <= m < S)%Z) by (apply Z.mod_pos_bound; lia).
  assert (M0 : (inject_Z 0 <= inject_Z m)%Q) by (rewrite <- Zle_Qle; lia).
  assert (M1 : (inject_Z m <= inject_Z S)%Q) by (rewrite <- Zle_Qle; lia).
  change (inject_Z 0) with 0%Q in M0.
  unfold of_Z at 1. rewrite getAttentionScore_finite by lra.
  rewrite lit_Fin by (split; closed). cbn [ltb].
  rewrite (binary64_comp (q / inject_Z S) (inject_Z m / inject_Z S))
    by (now rewrite Hq).
  apply low_zone; lia.
Qed.

Lemma low_attention_zone_witness :
  (1 <= 10 < 2 ^ 32)%Z
  /\ isLowAttention
       (entityInfo [str "a"; str " "; str "b"; str " "; str "API"; str " "; str "c"]
                   10 (mkEntity (str "API") 4)) = true.
Proof.
  assert (H : (1 <= 10 < 2 ^ 32)%Z) by (split; [lia | reflexivity]).
  split; [exact H|].
  apply (proj2 (low_attention_zone
                  [str "a"; str " "; str "b"; str " "; str "API"; str " "; str "c"]
                  10 (mkEntity (str "API") 4) H)).
  split; reflexivity.
Defined.

(** X10 (colour zones): for a chunk size [S] of at least 1 and below 2^32
    the colour shown for the attention score of the integer position [m],
    [0 <= m <= S], is read off the two numbers: the hot colour when
    [20 m < 3 S] or [20 m > 19 S], the medium colour when
    [17 S < 20 m <= 19 S], the degraded colour when [3 S <= 20 m <= 17 S]
    and [3 m <= S] or [3 m >= 2 S], the cold colour when [S < 3 m < 2 S].
    At exactly 95% the score rounds below 0.85 and the colour is the medium
    one. *)
Theorem attention_color_zones (m S : Z) :
  (1 <= S < 2 ^ 32)%Z -> (0 <= m <= S)%Z ->
  getAttentionColor (getAttentionScore (of_Z m) (of_Z S)) = zone_color m S.
Proof.
  intros HS Hm. pose proof (inject_Z_pos S ltac:(lia)) as Hpos.
  assert (M0 : (inject_Z 0 <= inject_Z m)%Q) by (rewrite <- Zle_Qle; lia).
  assert (M1 : (inject_Z m <= inject_Z S)%Q) by (rewrite <- Zle_Qle; lia).
  change (inject_Z 0) with 0%Q in M0.
  unfold of_Z. rewrite getAttentionScore_finite by assumption.
  now apply color_zones.
Qed.

Lemma attention_color_zones_witness :
  (1 <= 100 < 2 ^ 32)%Z /\ (0 <= 95 <= 100)%Z
  /\ getAttentionColor (getAttentionScore (of_Z 95) (of_Z 100)) = str "#38A89D".
Proof.
  assert (H1 : (1 <= 100 < 2 ^ 32)%Z) by (split; [lia | reflexivity]).
  assert (H2 : (0 <= 95 <= 100)%Z) by lia.
  split; [exact H1|]. split; [exact H2|].
  exact (attention_color_zones 95 100 H1 H2).
Defined.

(** ** The result as a whole *)

Module ResultFacts.

(** A chunk size below 1 works as 1. *)
Lemma chunkContent_clamped (txt : jsstring) (toks : list token) (S : Z) :
  chunkContent txt toks S = chunkContent txt toks (Z.max 1 S).
Proof.
  destruct (Z.le_gt_cases S 1) as [H|H].
  - rewrite Z.max_l by lia. unfold chunkContent.
    now rewrite chunk_loop_below_one by assumption.
  - now rewrite Z.max_r by lia.
Qed.

Lemma chunked_count (S : Z) (toks : list token) (cs : list Chunk) :
  (1 <= S)%Z -> chunked S toks cs ->
  Z.of_nat (length cs) = ceil_div (Z.of_nat (length toks)) S.
Proof.
  intros HS H.
  destruct (chunked_shape S toks cs H)
    as [[-> ->]|(front & last & -> & _ & Hlast & HN)].
  - simpl. unfold ceil_div. rewrite Z.div_small; lia.
  - rewrite length_app. simpl. symmetry. apply ceil_div_spec; [lia|]. nia.
Qed.

Lemma paragraphAnalysis_index (chunkSize : Z) (ps : list jsstring) :
  forall idx infos,
    paragraphAnalysis chunkSize idx ps = Returns infos ->
    map index infos = seq idx (length ps).
Proof.
  induction ps as [|p ps IH]; intros idx infos H; simpl in H.
  - injection H as <-. reflexivity.
  - unfold paragraphInfo in H.
    destruct (approximateTokenize p) as [toks|]; [|discriminate]. simpl in H.
    destruct (paragraphAnalysis chunkSize (S idx) ps) as [infos'|] eqn:E;
      [|discriminate].
    simpl in H. injection H as <-. simpl. f_equal. now apply IH.
Qed.

End ResultFacts.

Import ResultFacts.

(** X11 (the chunks of a result): in every analysis result, whatever the
    chunk size, the texts of the chunks spell the analysed text, and there
    are [ceil(gptTokens / S)] chunks, where [S] is the chunk size or 1 when
    the chunk size is below 1. *)
Theorem analysis_chunks_cover
    (content : jsstring) (chunkSize : Z) (r : AnalysisResult) :
  analysis content chunkSize = Returns (Some r) ->
  concat (map text (analysis_chunks r)) = content
  /\ Z.of_nat (length (analysis_chunks r))
     = ceil_div (Z.of_nat (gptTokens r)) (Z.max 1 chunkSize).
Proof.
  intros H. pose proof (analysis_some_nonblank _ _ _ H) as Hne.
  destruct (analysis_produced content chunkSize Hne)
    as (g & c & m & infos & r' & Hg & _ & _ & _ & _ & _ & _ & Hr & Eg & _ & _ & _ & Ech & _).
  rewrite Hr in H. injection H as <-.
  destruct (approximateTokenize_spec content) as (g' & Hg' & Hcat & _).
  rewrite Hg in Hg'. injection Hg' as <-.
  rewrite Ech, Eg, chunkContent_clamped.
  pose proof (chunkContent_chunked content g (Z.max 1 chunkSize) ltac:(lia)) as Hch.
  split.
  - rewrite chunk_texts by apply (out_wf _ _ _ Hch).
    now rewrite (out_partition _ _ _ Hch).
  - apply chunked_count; [lia | exact Hch].
Qed.

Lemma analysis_chunks_cover_witness :
  exists r,
    analysis (str "Hello world API") 2 = Returns (Some r)
    /\ concat (map text (analysis_chunks r)) = str "Hello world API"
    /\ Z.of_nat (length (analysis_chunks r))
       = ceil_div (Z.of_nat (gptTokens r)) (Z.max 1 2).
Proof.
  eexists. split; [vm_compute; reflexivity|].
  apply (analysis_chunks_cover (str "Hello world API") 2).
  vm_compute. reflexivity.
Defined.

(** X12 (paragraph records): for a chunk size [S] of at least 1 the
    paragraph records of a result are those of the paragraphs of the text
    in order, numbered from 0; every paragraph has at least one token and
    needs [ceil(tokenCount / S)] chunks, at least 1, and it is marked as
    exceeding the chunk exactly when it needs 2 chunks or more. *)
Theorem analysis_paragraph_records
    (content : jsstring) (S : Z) (r : AnalysisResult) :
  (1 <= S)%Z ->
  analysis content S = Returns (Some r) ->
  map paragraph_text (paragraphs r) = splitParagraphs content
  /\ map index (paragraphs r) = seq 0 (length (splitParagraphs content))
  /\ Forall (fun p =>
               let needed := ceil_div (Z.of_nat (paragraph_tokenCount p)) S in
               1 <= paragraph_tokenCount p
               /\ chunksRequired p = of_Z needed
               /\ (1 <= needed)%Z
               /\ (exceedsChunk p = true <-> (2 <= needed)%Z))
            (paragraphs r).
Proof.
  intros HS H. pose proof (analysis_some_nonblank _ _ _ H) as Hne.
  destruct (analysis_produced content S Hne)
    as (g & c & m & infos & r' & _ & _ & _ & _ & _ & _ & F & Hr & _ & _ & _ & Ep & _).
  rewrite Hr in H. injection H as <-. rewrite Ep.
  split; [|split].
  - clear Hr Ep. induction F as [|p info ps infos Hrec _ IH]; [reflexivity|].
    simpl. destruct Hrec as (toks & _ & -> & _). now rewrite IH.
  - unfold analysis in Hr. destruct (trim content); [contradiction|].
    destruct (approximateTokenize content); [|discriminate].
    destruct (approximateClaudeTokenize content); [|discriminate].
    destruct (approximateGeminiTokenize content); [|discriminate].
    cbn [bind] in Hr.
    destruct (paragraphAnalysis S 0 (splitParagraphs content)) as [infos'|] eqn:E;
      [|discriminate].
    cbn [bind] in Hr. injection Hr as Hr. rewrite <- Ep, <- Hr. cbn [paragraphs].
    now apply (paragraphAnalysis_index S).
  - assert (P : forall p, In p (splitParagraphs content) -> trim p <> [])
      by apply splitParagraphs_nonblank.
    clear Hr Ep. revert P.
    induction F as [|p info ps infos Hrec _ IH]; intros P; constructor.
    + destruct Hrec as (toks & Ht & _ & Hcount & Hex & Hreq). cbv zeta.
      destruct (approximateTokenize_spec p) as (toks' & Ht' & _ & _ & L).
      rewrite Ht in Ht'. injection Ht' as <-.
      assert (Hlen : 1 <= length toks)
        by (apply L, trim_not_nil_length, P; now left).
      rewrite Hcount, Hreq, Hex, ceil_div_counts by assumption.
      set (needed := ceil_div (Z.of_nat (length toks)) S).
      assert (Hn : ((needed - 1) * S < Z.of_nat (length toks) <= needed * S)%Z)
        by (apply ceil_div_spec; [lia | reflexivity]).
      split; [exact Hlen|]. split; [reflexivity|]. split; [nia|].
      rewrite Z.ltb_lt. split; intros E; nia.
    + apply IH. intros q Hq. apply P. now right.
Qed.

Lemma analysis_paragraph_records_witness :
  exists r,
    (1 <= 2)%Z
    /\ analysis (str "Hello world API") 2 = Returns (Some r)
    /\ map paragraph_text (paragraphs r) = splitParagraphs (str "Hello world API").
Proof.
  eexists. split; [lia|]. split; [vm_compute; reflexivity|].
  apply (analysis_paragraph_records (str "Hello world API") 2); [lia|].
  vm_compute. reflexivity.
Defined.

(** X13 (text shorter than a chunk): tokens that number between 1 and the
    chunk size make exactly one chunk, which holds all of them, from token
    0 to the last one. *)
Theorem chunkContent_single_chunk (txt : jsstring) (toks : list token) (S : Z) :
  1 <= length toks -> (Z.of_nat (length toks) <= S)%Z ->
  exists c,
    chunkContent txt toks S = [c]
    /\ tokens c = toks
    /\ text c = concat toks
    /\ startToken c = 0%Z
    /\ endToken c = (Z.of_nat (length toks) - 1)%Z
    /\ tokenCount c = length toks.
Proof.
  intros Hlen HS.
  pose proof (chunkContent_chunked txt toks S ltac:(lia)) as H.
  pose proof (chunked_count S toks _ ltac:(lia) H) as Hcount.
  assert (Hone : ceil_div (Z.of_nat (length toks)) S = 1%Z)
    by (apply ceil_div_spec; lia).
  rewrite Hone in Hcount.
  destruct (chunkContent txt toks S) as [|c [|c' cs]] eqn:E;
    [simpl in Hcount; lia | | simpl in Hcount; lia].
  exists c. split; [reflexivity|].
  pose proof (out_partition _ _ _ H) as Hp. simpl in Hp. rewrite app_nil_r in Hp.
  pose proof (out_wf _ _ _ H) as W. inversion W as [|? ? (Ht & Hc & He) _]; subst.
  pose proof (out_start _ _ _ H 0 c eq_refl) as Hs. simpl in Hs.
  repeat split; auto; try congruence. rewrite He, Hs, Hc. lia.
Qed.

Lemma chunkContent_single_chunk_witness :
  1 <= length [str "ab"; str " "] /\ (Z.of_nat (length [str "ab"; str " "]) <= 100)%Z
  /\ exists c, chunkContent (str "ab ") [str "ab"; str " "] 100 = [c]
               /\ tokens c = [str "ab"; str " "].
Proof.
  assert (H1 : 1 <= length [str "ab"; str " "]) by (simpl; lia).
  assert (H2 : (Z.of_nat (length [str "ab"; str " "]) <= 100)%Z) by (simpl; lia).
  destruct (chunkContent_single_chunk (str "ab ") [str "ab"; str " "] 100 H1 H2)
    as (c & A & B & _).
  split; [exact H1|]. split; [exact H2|]. exists c. split; assumption.
Defined.

(** ** Paragraphs and white space *)

Module BlankFacts.

(** A text without two newlines in a row is one piece. *)
Lemma split_unbroken (s : jsstring) :
  has_break s = false ->
  forall piece, split_loop paragraph_break 0 piece s = [rev piece ++ s].
Proof.
  induction s as [|c s IH]; intros Hb piece.
  - simpl. now rewrite app_nil_r.
  - cbn [split_loop].
    destruct (match_length paragraph_break (c :: s)) as [[|k]|] eqn:E.
    + rewrite IH; [simpl; now rewrite <- app_assoc|].
      destruct s; [reflexivity|]. simpl in Hb. now apply orb_false_iff in Hb.
    + exfalso.
      pose proof (match_length_bounds _ _ _ E) as [Hmin Hmax]. simpl in Hmin.
      assert (Hc : forallb isNewline (firstn (S k) (c :: s)) = true).
      { apply (match_length_class isNewline paragraph_break); auto.
        repeat constructor. }
      destruct k as [|k]; [lia|]. destruct s as [|d s]; [simpl in Hmax; lia|].
      simpl in Hc, Hb. apply andb_true_iff in Hc. destruct Hc as [Hc Hd].
      apply andb_true_iff in Hd. destruct Hd as [Hd _].
      rewrite Hc, Hd in Hb. discriminate.
    + rewrite IH; [simpl; now rewrite <- app_assoc|].
      destruct s; [reflexivity|]. simpl in Hb. now apply orb_false_iff in Hb.
Qed.

Lemma run_length_all (c : char -> bool) (s : jsstring) :
  forallb c s = true -> run_length c None s = length s.
Proof.
  induction s as [|x s IH]; simpl; [reflexivity|].
  intros H. apply andb_true_iff in H. destruct H as [Hx Hs].
  rewrite Hx. now rewrite IH.
Qed.

Lemma try_down_first (f : nat -> option nat) (lo k n : nat) :
  lo <= k -> f k = Some n -> try_down f lo k = Some (k + n).
Proof.
  intros Hle Hf. destruct k as [|k]; simpl.
  - replace (0 <? lo) with false by (symmetry; apply Nat.ltb_ge; lia).
    now rewrite Hf.
  - replace (S k <? lo) with false by (symmetry; apply Nat.ltb_ge; lia).
    now rewrite Hf.
Qed.

(** A run pattern takes a whole text of its class. *)
Lemma exec_plus_all (c : char -> bool) (s : jsstring) :
  1 <= length s -> forallb c s = true -> exec [plus c] s = Some s.
Proof.
  intros Hlen Hall. unfold exec. cbn [match_length plus cls lo hi].
  rewrite run_length_all by assumption.
  rewrite (try_down_first _ 1 (length s) 0) by auto.
  now rewrite Nat.add_0_r, firstn_all.
Qed.

(** The loop on a text that one match takes whole. *)
Lemma tokenize_one_match (patterns : list regex) (push : jsstring -> list token)
    (text : jsstring) :
  1 <= length text -> first_match patterns text = Some text ->
  tokenize patterns push text = Returns (push text).
Proof.
  intros Hlen Hm. unfold tokenize. destruct text as [|c rest]; [simpl in Hlen; lia|].
  cbn [length tokenize_loop]. rewrite Hm, skipn_all. simpl.
  destruct (length rest); reflexivity.
Qed.

End BlankFacts.

Import BlankFacts.

(** X14 (paragraphs are stable): a paragraph of a text is one paragraph
    by itself: splitting it again returns just that paragraph. *)
Theorem paragraphs_stable (text p : jsstring) :
  In p (splitParagraphs text) -> splitParagraphs p = [p].
Proof.
  intros H. pose proof (splitParagraphs_nonblank text p H) as Hne.
  unfold splitParagraphs in H. apply filter_In in H. destruct H as [H _].
  pose proof (split_loop_no_break (length text) text [] (le_n _) eq_refl eq_refl) as F.
  rewrite Forall_forall in F. specialize (F p H).
  unfold splitParagraphs, split. rewrite split_unbroken by exact F. simpl.
  destruct (trim p); [contradiction | reflexivity].
Qed.

Lemma paragraphs_stable_witness :
  In (str "two") (splitParagraphs (str "one" ++ [10; 10; 10]%N ++ str "two"))
  /\ splitParagraphs (str "two") = [str "two"].
Proof.
  assert (H : In (str "two") (splitParagraphs (str "one" ++ [10; 10; 10]%N ++ str "two")))
    by (vm_compute; right; left; reflexivity).
  split; [exact H|].
  exact (paragraphs_stable (str "one" ++ [10; 10; 10]%N ++ str "two") (str "two") H).
Defined.

(** X15 (white space is one token): a text that is not empty and holds
    white space only is returned as one single token by each of the three
    tokenizers. *)
Theorem blank_text_one_token (text : jsstring) :
  1 <= length text -> forallb isSpace text = true ->
  approximateTokenize text = Returns [text]
  /\ approximateClaudeTokenize text = Returns [text]
  /\ approximateGeminiTokenize text = Returns [text].
Proof.
  intros Hlen Hall.
  pose proof (exec_plus_all isSpace text Hlen Hall) as Hexec.
  destruct text as [|c rest] eqn:Et; [simpl in Hlen; lia|]. rewrite <- Et in *.
  assert (Hc : isSpace c = true)
    by (rewrite Et in Hall; simpl in Hall; now apply andb_true_iff in Hall).
  pose proof (space_not_alpha c Hc) as Halpha. apply negb_true_iff in Halpha.
  pose proof (space_not_lower_block c Hc) as Hblock. apply negb_true_iff in Hblock.
  split; [|split].
  - unfold approximateTokenize.
    rewrite (tokenize_one_match gpt_patterns gpt_push text Hlen)
      by (unfold gpt_patterns; cbn [first_match]; now rewrite Hexec).
    unfold gpt_push. replace (test_all isAlpha text) with false.
    + now rewrite andb_false_r.
    + rewrite Et. cbn [test_all forallb]. now rewrite Halpha.
  - unfold approximateClaudeTokenize.
    apply (tokenize_one_match claude_patterns (fun w => [w]) text Hlen).
    unfold claude_patterns. cbn [first_match]. now rewrite Hexec.
  - unfold approximateGeminiTokenize.
    apply (tokenize_one_match gemini_patterns (fun w => [w]) text Hlen).
    unfold gemini_patterns. cbn [first_match].
    replace (exec [opt isLowerBlock; between 1 6 isAlpha] text) with (@None jsstring).
    + now rewrite Hexec.
    + rewrite Et. unfold exec. cbn [match_length opt between cls lo hi run_length].
      rewrite Hblock. cbn [try_down Nat.ltb Nat.leb skipn match_length cls lo hi run_length].
      rewrite Halpha. reflexivity.
Qed.

Lemma blank_text_one_token_witness :
  1 <= length (str "  ") /\ forallb isSpace (str "  ") = true
  /\ approximateTokenize (str "  ") = Returns [str "  "].
Proof.
  assert (H1 : 1 <= length (str "  ")) by (simpl; lia).
  assert (H2 : forallb isSpace (str "  ") = true) by reflexivity.
  split; [exact H1|]. split; [exact H2|].
  exact (proj1 (blank_text_one_token (str "  ") H1 H2)).
Defined.

(** ** Words and tokens *)

Module WordFacts.

Import TokenShape TokenizerShape BlankFacts.

Lemma count_words_skip (k : nat) :
  forall s, forallb isSpace (firstn k s) = true ->
            count_words false (skipn k s) = count_words false s.
Proof.
  induction k as [|k IH]; intros s H; [reflexivity|].
  destruct s as [|c s]; [reflexivity|].
  simpl in H. apply andb_true_iff in H. destruct H as [Hc Hs].
  simpl. rewrite Hc. now apply IH.
Qed.

(** The white-space pattern matches exactly at a white-space character. *)
Lemma space_run_matches (c : char) (s : jsstring) :
  isSpace c = true -> exists k, match_length [plus isSpace] (c :: s) = Some (S k).
Proof.
  intros Hc. cbn [match_length plus cls lo hi run_length]. rewrite Hc.
  rewrite (try_down_first _ 1 (S (run_length isSpace None s)) 0) by (auto; lia).
  eexists. rewrite Nat.add_0_r. reflexivity.
Qed.

Lemma space_run_head (c : char) (s : jsstring) (k : nat) :
  match_length [plus isSpace] (c :: s) = Some (S k) ->
  isSpace c = true /\ forallb isSpace (firstn k s) = true /\ k <= length s.
Proof.
  intros E. pose proof (match_length_bounds _ _ _ E) as [_ Hmax].
  assert (H : forallb isSpace (firstn (S k) (c :: s)) = true).
  { apply (match_length_class isSpace [plus isSpace]); [repeat constructor | exact E]. }
  simpl in H, Hmax. apply andb_true_iff in H. destruct H. repeat split; auto; lia.
Qed.

(** The pieces of [split(/\s+/)] that are not empty are the words. *)
Lemma split_loop_words :
  forall n s piece,
    length s <= n ->
    length (filter (fun w => 0 <? length w) (split_loop [plus isSpace] 0 piece s))
    = count_words (nonempty piece) s + (if nonempty piece then 1 else 0).
Proof.
  assert (R : forall piece : jsstring,
             (if 0 <? length (rev piece) then 1 else 0)
             = (if nonempty piece then 1 else 0)).
  { intros [|x piece]; [reflexivity|]. rewrite length_rev. reflexivity. }
  induction n as [|n IH]; intros s piece Hn.
  - destruct s; [|simpl in Hn; lia]. simpl.
    rewrite <- R. destruct (0 <? length (rev piece)); reflexivity.
  - destruct s as [|c s'].
    + simpl. rewrite <- R. destruct (0 <? length (rev piece)); reflexivity.
    + assert (Word : isSpace c = false ->
                     length (filter (fun w => 0 <? length w)
                               (split_loop [plus isSpace] 0 (c :: piece) s'))
                     = count_words (nonempty piece) (c :: s')
                       + (if nonempty piece then 1 else 0)).
      { intros Hc. rewrite IH by (simpl in Hn; lia).
        cbn [count_words nonempty]. rewrite Hc.
        destruct (nonempty piece); lia. }
      cbn [split_loop].
      destruct (match_length [plus isSpace] (c :: s')) as [[|k]|] eqn:E.
      * apply Word. destruct (isSpace c) eqn:Hc; [|reflexivity].
        destruct (space_run_matches c s' Hc) as [k Hk]. congruence.
      * destruct (space_run_head c s' k E) as (Hc & Hrun & Hk).
        rewrite split_loop_skip by assumption.
        cbn [filter]. rewrite <- R.
        assert (Hrest : length (filter (fun w => 0 <? length w)
                                  (split_loop [plus isSpace] 0 [] (skipn k s')))
                        = count_words false s').
        { rewrite IH by (rewrite length_skipn; simpl in Hn; lia).
          simpl. rewrite Nat.add_0_r. now apply count_words_skip. }
        cbn [count_words]. rewrite Hc.
        destruct (0 <? length (rev piece)); simpl; rewrite Hrest; lia.
      * apply Word. destruct (isSpace c) eqn:Hc; [|reflexivity].
        destruct (space_run_matches c s' Hc) as [k Hk]. congruence.
Qed.

Lemma countWords_count (content : jsstring) : countWords content = count_words false content.
Proof.
  unfold countWords, split.
  rewrite (split_loop_words (length content)) by lia. simpl. lia.
Qed.

Lemma count_words_in_word (s : jsstring) :
  count_words true s <= count_words false s <= 1 + count_words true s.
Proof.
  destruct s as [|c s]; simpl; [lia|]. destruct (isSpace c); lia.
Qed.

Lemma count_words_space_token (t rest : jsstring) (b : bool) :
  1 <= length t -> forallb isSpace t = true ->
  count_words b (t ++ rest) = count_words false rest.
Proof.
  revert b. induction t as [|c t IH]; intros b Hlen H; [simpl in Hlen; lia|].
  simpl in H. apply andb_true_iff in H. destruct H as [Hc Ht].
  simpl. rewrite Hc. destruct t as [|d t]; [reflexivity|].
  apply IH; [simpl; lia | exact Ht].
Qed.

Lemma count_words_continue (t rest : jsstring) :
  forallb notSpace t = true -> count_words true (t ++ rest) = count_words true rest.
Proof.
  induction t as [|c t IH]; intros H; [reflexivity|].
  simpl in H. apply andb_true_iff in H. destruct H as [Hc Ht].
  unfold notSpace in Hc. apply negb_true_iff in Hc.
  simpl. rewrite Hc. now apply IH.
Qed.

Lemma count_words_word_token (t rest : jsstring) (b : bool) :
  forallb notSpace t = true ->
  count_words b (t ++ rest) <= 1 + count_words true rest.
Proof.
  intros H. destruct t as [|c t].
  - simpl. pose proof (count_words_in_word rest). destruct b; lia.
  - simpl in H. apply andb_true_iff in H. destruct H as [Hc Ht].
    unfold notSpace in Hc. apply negb_true_iff in Hc.
    simpl. rewrite Hc, count_words_continue by assumption.
    destruct b; lia.
Qed.

(** Unmixed tokens: no more words than tokens. *)
Lemma words_le_tokens (toks : list token) :
  Forall (fun t => 1 <= length t /\ unmixed t) toks ->
  forall b, count_words b (concat toks) <= length toks.
Proof.
  induction 1 as [|t toks [Hlen Ht] _ IH]; intros b; simpl; [lia|].
  destruct Ht as [Hs|Hw].
  - rewrite count_words_space_token by assumption. specialize (IH false). lia.
  - pose proof (count_words_word_token t (concat toks) b Hw). specialize (IH true). lia.
Qed.

End WordFacts.

Module UnmixedFacts.

Import TokenShape TokenizerShape BlankFacts WordFacts.

Lemma upper_notSpace (c : char) : isUpper c = true -> notSpace c = true.
Proof.
  intros H. unfold notSpace. destruct (isSpace c) eqn:E; [|reflexivity].
  rewrite (space_not_upper c E) in H. discriminate.
Qed.

Lemma alpha_notSpace (c : char) : isAlpha c = true -> notSpace c = true.
Proof.
  intros H. unfold notSpace. destruct (isSpace c) eqn:E; [|reflexivity].
  pose proof (space_not_alpha c E) as N. rewrite H in N. discriminate.
Qed.

Lemma lower_notSpace (c : char) : isLower c = true -> notSpace c = true.
Proof.
  intros H. apply alpha_notSpace. unfold isAlpha. rewrite H. apply orb_true_r.
Qed.

Lemma digit_notSpace (c : char) : isDigit c = true -> notSpace c = true.
Proof.
  unfold isDigit, in_range. intros H.
  destruct (N.leb_spec 48 c) as [L|L]; [|discriminate].
  destruct (N.leb_spec c 57) as [U|U]; [|discriminate].
  unfold notSpace. destruct (isSpace c) eqn:E; [|reflexivity]. exfalso.
  apply space_cases in E. lia.
Qed.

Lemma punct_notSpace (c : char) : isPunct c = true -> notSpace c = true.
Proof.
  unfold isPunct, one_of. simpl.
  repeat match goal with
         | |- context [N.eqb c ?v] =>
             destruct (N.eqb_spec c v) as [->|]; [intros _; reflexivity|]
         end.
  simpl. discriminate.
Qed.

Lemma special_notSpace (c : char) : isSpecial c = true -> notSpace c = true.
Proof.
  unfold isSpecial, notSpace. intros H. now apply andb_true_iff in H.
Qed.

Lemma gpt_patterns_unmixed : Forall unmixed_pattern gpt_patterns.
Proof.
  unfold gpt_patterns, one, plus.
  repeat apply Forall_cons; try apply Forall_nil;
    first [ left; apply within_one; solve [auto]
          | right; repeat apply Forall_cons; try apply Forall_nil; simpl;
            auto using upper_notSpace, lower_notSpace, digit_notSpace,
              punct_notSpace, special_notSpace ].
Qed.

Lemma unmixed_slice (w : jsstring) (a b : nat) : unmixed w -> unmixed (slice a b w).
Proof.
  unfold slice. intros [H|H]; [left | right]; now apply forallb_firstn, forallb_skipn.
Qed.

Lemma split4_loop_unmixed (w : jsstring) :
  unmixed w -> forall fuel i, Forall unmixed (split4_loop fuel i w).
Proof.
  intros Hw. induction fuel as [|fuel IH]; intros i; simpl; [constructor|].
  destruct (i <? length w); constructor; [now apply unmixed_slice | apply IH].
Qed.

(** Every token of the primary tokenizer is white space only or free of
    white space. *)
Lemma gpt_tokens_unmixed (text : jsstring) (toks : list token) :
  approximateTokenize text = Returns toks -> Forall unmixed toks.
Proof.
  apply (tokenize_Forall gpt_patterns gpt_push unmixed).
  - intros c. unfold unmixed, notSpace. simpl. destruct (isSpace c); auto.
  - intros remaining word Hm.
    destruct (first_match_In _ _ _ Hm) as (r & Hr & Hexec).
    assert (Hw : unmixed word).
    { pose proof gpt_patterns_unmixed as F. rewrite Forall_forall in F.
      specialize (F r Hr). unfold exec in Hexec.
      destruct (match_length r remaining) as [m|] eqn:E; [|discriminate].
      injection Hexec as <-.
      destruct F as [F|F]; [left | right]; eapply match_length_within; eauto. }
    unfold gpt_push. destruct ((4 <? length word) && test_all isAlpha word).
    + now apply split4_loop_unmixed.
    + constructor; [exact Hw | constructor].
Qed.

Lemma count_words_nonblank (s : jsstring) :
  forallb isSpace s = false -> 1 <= count_words false s.
Proof.
  induction s as [|c s IH]; simpl; [discriminate|].
  destruct (isSpace c); simpl; [exact IH | lia].
Qed.

(** The fields of a result that depend on the word count. *)
Lemma analysis_word_fields (content : jsstring) (chunkSize : Z) (r : AnalysisResult) :
  analysis content chunkSize = Returns (Some r) ->
  exists gpt,
    approximateTokenize content = Returns gpt
    /\ gptTokens r = length gpt
    /\ wordCount r = countWords content
    /\ wordsPerToken r = toFixed3 (div (of_nat (countWords content)) (of_nat (length gpt)))
    /\ efficiency r
       = (if leb (Fin 0.75) (div (of_nat (countWords content)) (of_nat (length gpt)))
          then optimal
          else if leb (Fin 0.65) (div (of_nat (countWords content)) (of_nat (length gpt)))
               then acceptable else verbose).
Proof.
  unfold analysis. destruct (trim content); [discriminate|].
  destruct (approximateTokenize content) as [gpt|]; [|discriminate].
  destruct (approximateClaudeTokenize content); [|discriminate].
  destruct (approximateGeminiTokenize content); [|discriminate].
  cbn [bind].
  destruct (paragraphAnalysis chunkSize 0 (splitParagraphs content)); [|discriminate].
  cbn [bind]. intros H. injection H as <-. exists gpt. repeat split.
Qed.

End UnmixedFacts.

Import WordFacts UnmixedFacts.

(** X16 (no more words than tokens): in every analysis result the word
    count is at least 1 and at most the primary token count, so the
    words-per-token ratio printed with three decimals lies between 0.000
    and 1.000. *)
Theorem words_per_token_bounded
    (content : jsstring) (chunkSize : Z) (r : AnalysisResult) :
  analysis content chunkSize = Returns (Some r) ->
  1 <= wordCount r <= gptTokens r
  /\ exists thousandths,
       wordsPerToken r = Decimal3 thousandths /\ (0 <= thousandths <= 1000)%Z.
Proof.
  intros H. pose proof (analysis_some_nonblank _ _ _ H) as Hne.
  destruct (analysis_word_fields _ _ _ H) as (gpt & Hg & Eg & Ew & Ef & _).
  destruct (approximateTokenize_spec content) as (gpt' & Hg' & Hcat & _ & L).
  rewrite Hg in Hg'. injection Hg' as <-.
  assert (Hwords : 1 <= countWords content <= length gpt).
  { rewrite countWords_count. split.
    - apply count_words_nonblank.
      destruct (forallb isSpace content) eqn:B; [|reflexivity].
      apply trim_nil_iff in B. contradiction.
    - rewrite <- Hcat at 1. apply words_le_tokens.
      pose proof (gpt_tokens_shape content gpt Hg) as S1.
      pose proof (gpt_tokens_unmixed content gpt Hg) as S2.
      rewrite Forall_forall in *. intros t Ht. split; [apply (S1 t Ht) | apply (S2 t Ht)]. }
  split; [rewrite Ew, Eg; exact Hwords|].
  rewrite Ef.
  assert (Hlen : 1 <= length gpt) by lia.
  pose proof (of_nat_pos (length gpt) Hlen) as Hpos.
  rewrite div_finite_counts by assumption.
  set (q := (inject_Z (Z.of_nat (countWords content)) / inject_Z (Z.of_nat (length gpt)))%Q).
  assert (Hq0 : (0 <= q)%Q).
  { apply Qle_shift_div_l; [assumption|]. pose proof (of_nat_nonneg (countWords content)). lra. }
  assert (Hq1 : (q <= 1)%Q).
  { apply Qle_shift_div_r; [assumption|]. rewrite Qmult_1_l, <- Zle_Qle. lia. }
  cbn [toFixed3].
  replace (Qltb q 0) with false by (symmetry; apply Qltb_ge; assumption).
  eexists. split; [reflexivity|]. split.
  - apply Qfloor_nonneg. lra.
  - apply Z.le_trans with (Qfloor 1000.5); [apply Qfloor_resp_le; lra|].
    vm_compute. discriminate.
Qed.

Lemma words_per_token_bounded_witness :
  exists r,
    analysis (str "Hello world API") 100 = Returns (Some r)
    /\ 1 <= wordCount r <= gptTokens r.
Proof.
  eexists. split; [vm_compute; reflexivity|].
  apply (words_per_token_bounded (str "Hello world API") 100).
  vm_compute. reflexivity.
Defined.

(** X17 (efficiency labels): the label of a result is [optimal] exactly
    when the word count is at least three quarters of the primary token
    count, [verbose] exactly when it is below 65 hundredths of it, and
    [acceptable] in between. *)
Theorem efficiency_thresholds
    (content : jsstring) (chunkSize : Z) (r : AnalysisResult) :
  analysis content chunkSize = Returns (Some r) ->
  let w := Z.of_nat (wordCount r) in
  let g := Z.of_nat (gptTokens r) in
  (efficiency r = optimal <-> (3 * g <= 4 * w)%Z)
  /\ (efficiency r = acceptable <-> (4 * w < 3 * g /\ 13 * g <= 20 * w)%Z)
  /\ (efficiency r = verbose <-> (20 * w < 13 * g)%Z).
Proof.
  intros H. cbv zeta. pose proof (analysis_some_nonblank _ _ _ H) as Hne.
  destruct (analysis_word_fields _ _ _ H) as (gpt & Hg & Eg & Ew & _ & Ee).
  destruct (approximateTokenize_spec content) as (gpt' & Hg' & _ & _ & L).
  rewrite Hg in Hg'. injection Hg' as <-.
  assert (Hlen : 1 <= length gpt) by (apply L, trim_not_nil_length, Hne).
  pose proof (of_nat_pos (length gpt) Hlen) as Hpos.
  rewrite Ee, Eg, Ew, div_finite_counts by assumption. cbn [leb].
  set (w := Z.of_nat (countWords content)) in *.
  set (g := Z.of_nat (length gpt)) in *.
  assert (Hq : (inject_Z w / inject_Z g * inject_Z g == inject_Z w)%Q)
    by (field; lra).
  assert (T : forall a b : Z,
             (0 < b)%Z ->
             Qle_bool (inject_Z a / inject_Z b) (inject_Z w / inject_Z g) = true
             <-> (a * g <= b * w)%Z).
  { intros a b Hb. rewrite Qle_bool_iff.
    assert (Hbpos : (0 < inject_Z b)%Q)
      by (change 0%Q with (inject_Z 0); rewrite <- Zlt_Qlt; lia).
    rewrite <- (Qmult_le_r _ _ (inject_Z g) Hpos), Hq.
    rewrite <- (Qmult_le_r _ _ (inject_Z b) Hbpos).
    rewrite Zle_Qle, !inject_Z_mult.
    assert (E : (inject_Z a / inject_Z b * inject_Z g * inject_Z b
                 == inject_Z a * inject_Z g)%Q) by (field; lra).
    rewrite E. split; intros; lra. }
  pose proof (T 3%Z 4%Z ltac:(lia)) as T1. pose proof (T 13%Z 20%Z ltac:(lia)) as T2.
  change (inject_Z 3 / inject_Z 4)%Q with (3 / 4)%Q in T1.
  change (inject_Z 13 / inject_Z 20)%Q with (13 / 20)%Q in T2.
  assert (E1 : Qle_bool 0.75 (inject_Z w / inject_Z g)
               = Qle_bool (3 / 4) (inject_Z w / inject_Z g))
    by (apply Qleb_comp; reflexivity).
  assert (E2 : Qle_bool 0.65 (inject_Z w / inject_Z g)
               = Qle_bool (13 / 20) (inject_Z w / inject_Z g))
    by (apply Qleb_comp; reflexivity).
  rewrite E1, E2.
  destruct (Qle_bool (3 / 4) (inject_Z w / inject_Z g)) eqn:B1;
    destruct (Qle_bool (13 / 20) (inject_Z w / inject_Z g)) eqn:B2;
    repeat split; intros; try discriminate; try reflexivity;
    repeat match goal with
      | H : true = true <-> _ |- _ => destruct H as [H _]; specialize (H eq_refl)
      | H : false = true <-> _ |- _ =>
          let N := fresh in
          assert (N : ~ _) by (intros ?; apply (proj2 H) in H; discriminate);
          clear H
      end; try lia.
Qed.

Lemma efficiency_thresholds_witness :
  exists r,
    analysis (str "Hello world API") 100 = Returns (Some r)
    /\ (efficiency r = verbose
        <-> (20 * Z.of_nat (wordCount r) < 13 * Z.of_nat (gptTokens r))%Z).
Proof.
  eexists. split; [vm_compute; reflexivity|].
  apply (efficiency_thresholds (str "Hello world API") 100).
  vm_compute. reflexivity.
Defined.

(** ** The hints of a result *)

Module HintFacts.

Lemma In_optional (A : Type) (b : bool) (x y : A) :
  In x (if b then [y] else []) <-> b = true /\ x = y.
Proof.
  destruct b; simpl; split.
  - intros [<-|[]]. auto.
  - intros [_ ->]. now left.
  - intros [].
  - intros [H _]. discriminate.
Qed.

(** A hint of the list is the hint of one of the six rules, and the
    condition of that rule holds. *)
Lemma hints_In (a : AnalysisResult) (chunkSize : Z) (h : Hint) :
  In h (hints (Some a) chunkSize) <->
  let firstChunkEntities := filter (fun e => eqb (chunkIndex e) (of_nat 0)) (entities a) in
  let laterEntities := filter (fun e => ltb (of_nat 0) (chunkIndex e)) (entities a) in
  let lowAttentionEntities := filter isLowAttention (entities a) in
  let longParagraphs := filter exceedsChunk (paragraphs a) in
  ((length firstChunkEntities <? length laterEntities) = true
   /\ h = mkHint warning (EntitiesAfterFirstChunk (length laterEntities)))
  \/ ((0 <? length lowAttentionEntities) = true
      /\ h = mkHint critical
               (LowAttentionEntities (length lowAttentionEntities)
                  (map (fun e => entity_text (entity e)) (firstn 3 lowAttentionEntities))))
  \/ ((0 <? length longParagraphs) = true
      /\ h = mkHint warning (LongParagraphs (length longParagraphs) chunkSize))
  \/ (is_verbose (efficiency a) = true
      /\ h = mkHint optimize (LowEfficiency (wordsPerToken a)))
  \/ ((5 <? length (analysis_chunks a)) = true
      /\ h = mkHint info (ManyChunks (length (analysis_chunks a))))
  \/ ((120 <? chunkSize)%Z = true /\ h = mkHint optimize LargeChunkSize).
Proof.
  cbv zeta. unfold hints. rewrite !in_app_iff, !In_optional. reflexivity.
Qed.

Lemma filter_complement (A : Type) (f g : A -> bool) (l : list A) :
  (forall x, In x l -> g x = negb (f x)) ->
  length (filter f l) + length (filter g l) = length l.
Proof.
  induction l as [|x l IH]; intros H; [reflexivity|].
  simpl. rewrite (H x (or_introl eq_refl)).
  assert (IH' : length (filter f l) + length (filter g l) = length l)
    by (apply IH; intros y Hy; apply H; now right).
  destruct (f x); simpl; lia.
Qed.

(** For a chunk size of at least 1 an entity is in the first chunk when
    its token index is below the chunk size, and in a later chunk
    otherwise. *)
Lemma entityInfo_chunk_side (gpt : list token) (S : Z) (e : Entity) :
  (1 <= S)%Z ->
  let info := entityInfo gpt S e in
  eqb (chunkIndex info) (of_nat 0) = (Z.of_nat (tokenPosition info) <? S)%Z
  /\ ltb (of_nat 0) (chunkIndex info) = (S <=? Z.of_nat (tokenPosition info))%Z.
Proof.
  intros HS. cbv zeta. cbn [entityInfo chunkIndex tokenPosition].
  set (n := tokenPosition_loop (position e) 0 0 gpt).
  rewrite floor_div_counts by assumption.
  pose proof (Z.div_small_iff (Z.of_nat n) S ltac:(lia)) as Hsmall.
  assert (Hdiv : (0 <= Z.of_nat n / S)%Z) by (apply Z.div_pos; lia).
  unfold eqb, ltb, of_nat, of_Z. split.
  - destruct (Z.ltb_spec (Z.of_nat n) S) as [L|L].
    + apply Qeq_bool_iff. rewrite (proj2 Hsmall) by lia. reflexivity.
    + destruct (Qeq_bool (inject_Z (Z.of_nat n / S)) (inject_Z (Z.of_nat 0))) eqn:E;
        [|reflexivity].
      apply Qeq_bool_iff in E.
      apply (proj1 (inject_Z_injective (Z.of_nat n / S) (Z.of_nat 0))) in E.
      apply Hsmall in E. simpl in E. lia.
  - destruct (Z.leb_spec S (Z.of_nat n)) as [L|L].
    + apply Qltb_lt. rewrite <- Zlt_Qlt. simpl.
      destruct (Z.eq_dec (Z.of_nat n / S) 0) as [E|E]; [|lia].
      apply Hsmall in E. lia.
    + apply Qltb_ge. rewrite <- Zle_Qle. rewrite (proj2 Hsmall) by lia. simpl. lia.
Qed.

End HintFacts.

Import HintFacts.

(** X18 (the buried-entities warning): for a chunk size [S] of at least 1
    the first warning appears exactly when more than half of the entities
    of the result have a token index of [S] or more, and it reports the
    number of those entities. *)
Theorem buried_entities_hint
    (content : jsstring) (S : Z) (r : AnalysisResult) (n : nat) :
  (1 <= S)%Z ->
  analysis content S = Returns (Some r) ->
  let later := filter (fun e => (S <=? Z.of_nat (tokenPosition e))%Z) (entities r) in
  In (mkHint warning (EntitiesAfterFirstChunk n)) (hints (Some r) S)
  <-> n = length later /\ length (entities r) < 2 * n.
Proof.
  intros HS H. cbv zeta. pose proof (analysis_some_nonblank _ _ _ H) as Hne.
  destruct (analysis_produced content S Hne)
    as (g & c & m & infos & r' & _ & _ & _ & _ & _ & _ & _ & Hr & _ & _ & _ & _ & _ & Ee & _).
  rewrite Hr in H. injection H as <-.
  assert (Side : forall x, In x (entities r') ->
                 eqb (chunkIndex x) (of_nat 0) = (Z.of_nat (tokenPosition x) <? S)%Z
                 /\ ltb (of_nat 0) (chunkIndex x) = (S <=? Z.of_nat (tokenPosition x))%Z).
  { intros x Hx. rewrite Ee in Hx. apply in_map_iff in Hx.
    destruct Hx as (e & <- & _). now apply entityInfo_chunk_side. }
  rewrite hints_In. cbv zeta.
  rewrite (filter_ext_in _ (fun e => (Z.of_nat (tokenPosition e) <? S)%Z) (entities r'))
    by (intros x Hx; apply (Side x Hx)).
  rewrite (filter_ext_in (fun e => ltb (of_nat 0) (chunkIndex e))
             (fun e => (S <=? Z.of_nat (tokenPosition e))%Z) (entities r'))
    by (intros x Hx; apply (Side x Hx)).
  pose proof (filter_complement _ (fun e => (Z.of_nat (tokenPosition e) <? S)%Z)
                (fun e => (S <=? Z.of_nat (tokenPosition e))%Z) (entities r')) as Hsum.
  rewrite <- Hsum by (intros x _; rewrite Z.leb_antisym; reflexivity).
  split.
  - intros [[Hc Hh]|[[_ Hh]|[[_ Hh]|[[_ Hh]|[[_ Hh]|[_ Hh]]]]]]; try discriminate.
    injection Hh as ->. apply Nat.ltb_lt in Hc. split; [reflexivity | lia].
  - intros [-> Hlt]. left. split; [apply Nat.ltb_lt; lia | reflexivity].
Qed.

(** X19 (the chunk-count hint): for a chunk size [S] of at least 1 the
    information hint appears exactly when the primary token count exceeds
    5 times the chunk size, and it reports [ceil(gptTokens / S)] chunks. *)
Theorem many_chunks_hint
    (content : jsstring) (S : Z) (r : AnalysisResult) (n : nat) :
  (1 <= S)%Z ->
  analysis content S = Returns (Some r) ->
  In (mkHint info (ManyChunks n)) (hints (Some r) S)
  <-> Z.of_nat n = ceil_div (Z.of_nat (gptTokens r)) S
      /\ (5 * S < Z.of_nat (gptTokens r))%Z.
Proof.
  intros HS H. pose proof (analysis_some_nonblank _ _ _ H) as Hne.
  destruct (analysis_produced content S Hne)
    as (g & c & m & infos & r' & _ & _ & _ & _ & _ & _ & _ & Hr & Eg & _ & _ & _ & Ech & _).
  rewrite Hr in H. injection H as <-.
  pose proof (chunkContent_chunked content g S HS) as Hch.
  pose proof (chunked_count S g _ HS Hch) as Hcount.
  rewrite <- Ech, <- Eg in Hcount.
  assert (Hspec : ((Z.of_nat (length (analysis_chunks r')) - 1) * S
                   < Z.of_nat (gptTokens r')
                   <= Z.of_nat (length (analysis_chunks r')) * S)%Z)
    by (apply ceil_div_spec; [lia | now symmetry]).
  rewrite hints_In. cbv zeta. rewrite <- Hcount. split.
  - intros [[_ Hh]|[[_ Hh]|[[_ Hh]|[[_ Hh]|[[Hc Hh]|[_ Hh]]]]]]; try discriminate.
    injection Hh as ->. apply Nat.ltb_lt in Hc. split; [reflexivity | nia].
  - intros [Hn Hlt]. apply Nat2Z.inj in Hn. subst n.
    right. right. right. right. left. split; [apply Nat.ltb_lt; nia | reflexivity].
Qed.

Lemma buried_entities_hint_witness :
  exists r,
    (1 <= 2)%Z
    /\ analysis (str "we met Jane Smith. Then API") 2 = Returns (Some r)
    /\ (In (mkHint warning (EntitiesAfterFirstChunk 3)) (hints (Some r) 2)
        <-> 3 = length (filter (fun e => (2 <=? Z.of_nat (tokenPosition e))%Z) (entities r))
            /\ length (entities r) < 2 * 3).
Proof.
  eexists. split; [lia|]. split; [vm_compute; reflexivity|].
  apply (buried_entities_hint (str "we met Jane Smith. Then API") 2); [lia|].
  vm_compute. reflexivity.
Defined.

Lemma many_chunks_hint_witness :
  exists r,
    (1 <= 1)%Z
    /\ analysis (str "Hello world API") 1 = Returns (Some r)
    /\ (In (mkHint info (ManyChunks 9)) (hints (Some r) 1)
        <-> Z.of_nat 9 = ceil_div (Z.of_nat (gptTokens r)) 1
            /\ (5 * 1 < Z.of_nat (gptTokens r))%Z).
Proof.
  eexists. split; [lia|]. split; [vm_compute; reflexivity|].
  apply (many_chunks_hint (str "Hello world API") 1); [lia|].
  vm_compute. reflexivity.
Defined.

(** X20 (no capitals, no entities): a text without capital letters has no
    entities. *)
Theorem no_capitals_no_entities (text : jsstring) :
  forallb notUpper text = true -> extractEntities text = [].
Proof.
  intros H. destruct (extractEntities text) as [|e es] eqn:E; [reflexivity|].
  exfalso.
  destruct (entity_at_capital text e) as (c & Hc & Hup & _);
    [rewrite E; now left|].
  rewrite forallb_forall in H. apply nth_error_In in Hc.
  specialize (H c Hc). unfold notUpper in H. rewrite Hup in H. discriminate.
Qed.

Lemma no_capitals_no_entities_witness :
  forallb notUpper (str "hello world.") = true /\ extractEntities (str "hello world.") = [].
Proof.
  assert (H : forallb notUpper (str "hello world.") = true) by reflexivity.
  split; [exact H|].
  exact (no_capitals_no_entities (str "hello world.") H).
Defined.
